(** * gh-codex-agent: a shallow embedding of [src/main.ts]

    The agent watches a GitHub repository for labelled issues, clones the
    repository, lets a reasoning service drive a bounded tool-calling loop
    over the checkout and publishes the result as a pull request.

    The development follows the source file top-down:
    - JavaScript strings as sequences of UTF-16 code units;
    - the pieces of the runtime the program calls ([path], [fs],
      [child_process], [JSON.stringify], [Buffer]) over a small file-system
      model; the program is written against the Node API and its container
      runs it with Bun, so where the two are known to differ the difference
      is a parameter of the world;
    - [safeRun], [openaiLoop], [slug] and the body of [main] in a
      state/exception monad that records every external interaction;
    - the properties of the specification, one theorem each. *)

From Stdlib Require Import ZArith Lia Ascii String.
From stdpp Require Import base option list strings gmap.

Local Open Scope Z_scope.
Set Warnings "-register-all".

(** ** JavaScript strings

    A JavaScript string is a finite sequence of 16-bit code units.  We keep
    the code units as integers; [js] injects an ASCII literal. *)

Abbreviation jsstring := (list Z).

Definition js (s : string) : jsstring :=
  (λ a, Z.of_N (N_of_ascii a)) <$> list_ascii_of_string s.
Arguments js : simpl never.

Definition in_range (lo hi c : Z) : bool := (lo <=? c) && (c <=? hi).

Definition is_high_surrogate (c : Z) : bool := in_range 0xD800 0xDBFF c.
Definition is_low_surrogate (c : Z) : bool := in_range 0xDC00 0xDFFF c.

(** [f] occurs at the very beginning of [s]. *)
Fixpoint startsWith (s f : jsstring) : bool :=
  match f, s with
  | [], _ => true
  | _ :: _, [] => false
  | a :: f', b :: s' => (a =? b) && startsWith s' f'
  end.

(** [String.prototype.includes]: [f] occurs somewhere in [s]. *)
Fixpoint includes (s f : jsstring) : bool :=
  startsWith s f ||
  match s with
  | [] => false
  | _ :: s' => includes s' f
  end.

(** [s.includes("\u0000")]: the string holds a NUL character. *)
Definition has_nul (s : jsstring) : bool := existsb (Z.eqb 0) s.

(** [s.slice(0, n)] for a non-negative constant [n]. *)
Definition slice0 (n : Z) (s : jsstring) : jsstring := take (Z.to_nat n) s.

(** White space and line terminators, as [String.prototype.trim] sees them. *)
Definition is_js_space (c : Z) : bool :=
  in_range 9 13 c || (c =? 32) || (c =? 0xA0) || (c =? 0x1680) ||
  in_range 0x2000 0x200A c || (c =? 0x2028) || (c =? 0x2029) ||
  (c =? 0x202F) || (c =? 0x205F) || (c =? 0x3000) || (c =? 0xFEFF).

Fixpoint trimStart (s : jsstring) : jsstring :=
  match s with
  | c :: t => if is_js_space c then trimStart t else s
  | [] => []
  end.

Definition trim (s : jsstring) : jsstring :=
  reverse (trimStart (reverse (trimStart s))).

(** [parts.join(sep)] *)
Fixpoint join (sep : jsstring) (parts : list jsstring) : jsstring :=
  match parts with
  | [] => []
  | [p] => p
  | p :: rest => p ++ sep ++ join sep rest
  end.

(** [String.prototype.toLowerCase].  ASCII capitals move to their small
    letters.  Outside ASCII only two characters have a lower-case form that
    contains an ASCII letter: KELVIN SIGN (U+212A, to "k") and LATIN CAPITAL
    LETTER I WITH DOT ABOVE (U+0130, to "i" followed by U+0307).  Every other
    code unit above 127 lower-cases to code units above 127; the only caller,
    [slug], treats all of those alike, so they are left in place. *)
Definition lower_unit (c : Z) : jsstring :=
  if in_range 65 90 c then [c + 32]
  else if c =? 0x212A then [107]
  else if c =? 0x130 then [105; 0x307]
  else [c].

Definition toLowerCase (s : jsstring) : jsstring := s ≫= lower_unit.

(** ** [slug] (main.ts, line 288) *)

Definition hyphen : Z := 45.

(** The character class [[a-z0-9]]. *)
Definition is_lower_alnum (c : Z) : bool := in_range 97 122 c || in_range 48 57 c.

(** [.replace(/[^a-z0-9]+/g, "-")]: every maximal run of code units outside
    [[a-z0-9]] becomes one hyphen.  [in_run] tells that the scan is inside
    such a run, whose hyphen has been emitted already. *)
Fixpoint replace_runs (in_run : bool) (s : jsstring) : jsstring :=
  match s with
  | [] => []
  | c :: t =>
      if is_lower_alnum c then c :: replace_runs false t
      else if in_run then replace_runs true t
      else hyphen :: replace_runs true t
  end.

(** [.replace(/(^-|-$)/g, "")]: without the [m] flag [^] matches at index 0
    only and [$] at the end only, so the global replace deletes a hyphen at
    index 0 and then a hyphen in last position of what follows. *)
Definition strip_first_hyphen (s : jsstring) : jsstring :=
  match s with
  | c :: t => if c =? hyphen then t else s
  | [] => []
  end.

Definition strip_last_hyphen (s : jsstring) : jsstring :=
  reverse (strip_first_hyphen (reverse s)).

Definition strip_edge_hyphens (s : jsstring) : jsstring :=
  strip_last_hyphen (strip_first_hyphen s).

Definition slug_cap : Z := 40.

Definition slug (s : jsstring) : jsstring :=
  slice0 slug_cap (strip_edge_hyphens (replace_runs false (toLowerCase s))).

(** ** The Node runtime: UTF-8

    [fs.writeFileSync(p, s, "utf8")] stores the UTF-8 encoding of [s] and
    [fs.readFileSync(p, "utf8")] decodes the stored bytes.  Bytes are
    integers in [0, 255].  A surrogate code unit that is not part of a pair
    is written as U+FFFD, as Node does; the properties that depend on the
    bytes of a written string are stated for well-formed strings, on which
    the runtimes agree.  The decoder replaces every ill-formed sequence by
    U+FFFD and resumes at the first byte it could not use. *)

Definition replacement_char : Z := 0xFFFD.

Definition utf8_of_code_point (cp : Z) : list Z :=
  if cp <? 0x80 then [cp]
  else if cp <? 0x800 then [0xC0 + cp / 64; 0x80 + cp mod 64]
  else if cp <? 0x10000 then
    [0xE0 + cp / 4096; 0x80 + (cp / 64) mod 64; 0x80 + cp mod 64]
  else
    [0xF0 + cp / 262144; 0x80 + (cp / 4096) mod 64;
     0x80 + (cp / 64) mod 64; 0x80 + cp mod 64].

Definition code_point_of_pair (hi lo : Z) : Z :=
  0x10000 + (hi - 0xD800) * 1024 + (lo - 0xDC00).

Fixpoint utf8_encode (s : jsstring) : list Z :=
  match s with
  | [] => []
  | c :: t =>
      if is_high_surrogate c then
        match t with
        | d :: t' =>
            if is_low_surrogate d
            then utf8_of_code_point (code_point_of_pair c d) ++ utf8_encode t'
            else utf8_of_code_point replacement_char ++ utf8_encode t
        | [] => utf8_of_code_point replacement_char
        end
      else if is_low_surrogate c
      then utf8_of_code_point replacement_char ++ utf8_encode t
      else utf8_of_code_point c ++ utf8_encode t
  end.

Definition utf16_of_code_point (cp : Z) : jsstring :=
  if cp <? 0x10000 then [cp]
  else [0xD800 + (cp - 0x10000) / 1024; 0xDC00 + (cp - 0x10000) mod 1024].

Definition is_continuation (b : Z) : bool := in_range 0x80 0xBF b.

(** Admissible second byte after the lead byte [b0] of a three- or
    four-byte sequence (excludes overlong forms, surrogates and code points
    above U+10FFFF). *)
Definition second_byte_ok (b0 b1 : Z) : bool :=
  in_range (if b0 =? 0xE0 then 0xA0 else if b0 =? 0xF0 then 0x90 else 0x80)
           (if b0 =? 0xED then 0x9F else if b0 =? 0xF4 then 0x8F else 0xBF) b1.

Fixpoint utf8_decode (bs : list Z) : jsstring :=
  match bs with
  | [] => []
  | b0 :: r0 =>
      if b0 <? 0x80 then b0 :: utf8_decode r0
      else if in_range 0xC2 0xDF b0 then
        match r0 with
        | b1 :: r1 =>
            if is_continuation b1
            then ((b0 - 0xC0) * 64 + (b1 - 0x80)) :: utf8_decode r1
            else replacement_char :: utf8_decode r0
        | [] => [replacement_char]
        end
      else if in_range 0xE0 0xEF b0 then
        match r0 with
        | b1 :: r1 =>
            if second_byte_ok b0 b1 then
              match r1 with
              | b2 :: r2 =>
                  if is_continuation b2
                  then ((b0 - 0xE0) * 4096 + (b1 - 0x80) * 64 + (b2 - 0x80))
                         :: utf8_decode r2
                  else replacement_char :: utf8_decode r1
              | [] => [replacement_char]
              end
            else replacement_char :: utf8_decode r0
        | [] => [replacement_char]
        end
      else if in_range 0xF0 0xF4 b0 then
        match r0 with
        | b1 :: r1 =>
            if second_byte_ok b0 b1 then
              match r1 with
              | b2 :: r2 =>
                  if is_continuation b2 then
                    match r2 with
                    | b3 :: r3 =>
                        if is_continuation b3
                        then utf16_of_code_point
                               ((b0 - 0xF0) * 262144 + (b1 - 0x80) * 4096 +
                                (b2 - 0x80) * 64 + (b3 - 0x80))
                             ++ utf8_decode r3
                        else replacement_char :: utf8_decode r2
                    | [] => [replacement_char]
                    end
                  else replacement_char :: utf8_decode r1
              | [] => [replacement_char]
              end
            else replacement_char :: utf8_decode r0
        | [] => [replacement_char]
        end
      else replacement_char :: utf8_decode r0
  end.

(** [String.prototype.isWellFormed]: all code units are 16-bit and every
    surrogate belongs to a high/low pair. *)
Fixpoint isWellFormed (s : jsstring) : bool :=
  match s with
  | [] => true
  | c :: t =>
      in_range 0 0xFFFF c &&
      if is_high_surrogate c then
        match t with
        | d :: t' => is_low_surrogate d && isWellFormed t'
        | [] => false
        end
      else negb (is_low_surrogate c) && isWellFormed t
  end.

(** The number of bytes of the UTF-8 form of a string, counted code unit by
    code unit without encoding: one to three bytes for a code unit outside
    the surrogates, four for a pair, and three for a surrogate outside a
    pair, as for the U+FFFD that stands for it. *)
Fixpoint utf8_length (s : jsstring) : Z :=
  match s with
  | [] => 0
  | c :: t =>
      if is_high_surrogate c then
        match t with
        | d :: t' =>
            if is_low_surrogate d then 4 + utf8_length t' else 3 + utf8_length t
        | [] => 3
        end
      else (if c <? 0x80 then 1 else if c <? 0x800 then 2 else 3) + utf8_length t
  end.

(** ** The Node runtime: [path] (POSIX flavour) *)

Definition slash : Z := 47.

(** [s.split("/")] *)
Fixpoint split_slash (s : jsstring) : list jsstring :=
  match s with
  | [] => [[]]
  | c :: t =>
      if c =? slash then [] :: split_slash t
      else match split_slash t with
           | seg :: segs => (c :: seg) :: segs
           | [] => [[c]]
           end
  end.

(** One step of [normalizeString]: [rstack] is the list of segments kept so
    far, last one first.  Empty segments and "." vanish; ".." removes the
    segment before it, and above the start of a relative path it is kept. *)
Definition norm_step (allow_above_root : bool)
    (rstack : list jsstring) (seg : jsstring) : list jsstring :=
  if decide (seg = [] ∨ seg = js ".") then rstack
  else if decide (seg = js "..") then
    match rstack with
    | top :: rest =>
        if decide (top = js "..")
        then (if allow_above_root then seg :: rstack else rstack)
        else rest
    | [] => if allow_above_root then [seg] else []
    end
  else seg :: rstack.

Definition is_absolute (p : jsstring) : bool :=
  match p with c :: _ => c =? slash | [] => false end.

Definition has_trailing_slash (p : jsstring) : bool :=
  match reverse p with c :: _ => c =? slash | [] => false end.

(** [path.normalize] *)
Definition path_normalize (p : jsstring) : jsstring :=
  match p with
  | [] => js "."
  | _ =>
      let abs := is_absolute p in
      let segs := reverse (foldl (norm_step (negb abs)) [] (split_slash p)) in
      match segs with
      | [] => if abs then js "/" else if has_trailing_slash p then js "./" else js "."
      | _ =>
          (if abs then js "/" else []) ++ join (js "/") segs ++
          (if has_trailing_slash p then js "/" else [])
      end
  end.

(** [path.join(a, b)]: the non-empty arguments are glued with "/" and the
    result is normalized. *)
Definition path_join (a b : jsstring) : jsstring :=
  match filter (λ x : jsstring, x ≠ []) [a; b] with
  | [] => js "."
  | parts => path_normalize (join (js "/") parts)
  end.

Fixpoint drop_while (f : Z → bool) (s : jsstring) : jsstring :=
  match s with
  | c :: t => if f c then drop_while f t else s
  | [] => []
  end.

(** [path.dirname]: scanning from the end, skip the trailing slashes and the
    last segment; what precedes the slash found is the result.  The scan
    never looks at index 0. *)
Definition path_dirname (p : jsstring) : jsstring :=
  match p with
  | [] => js "."
  | _ =>
      let after_slashes := drop_while (λ c, c =? slash) (reverse p) in
      match drop_while (λ c, negb (c =? slash)) after_slashes with
      | _ :: ((_ :: _) as rprefix) =>
          if is_absolute p && bool_decide (length rprefix = 1%nat)
          then js "//" else reverse rprefix
      | _ => if is_absolute p then js "/" else js "."
      end
  end.

(** ** The Node runtime: [fs]

    The file system is a finite map from absolute paths (lists of segments,
    the root being the empty list) to nodes.  There are no symbolic links,
    no permissions and no limits on the length of a name, so ".." is
    resolved lexically and an operation fails only for the shape of the
    tree or for a path that is refused before the system is asked. *)

Inductive node :=
  | File (bytes : list Z)
  | Dir.

Abbreviation filesystem := (gmap (list jsstring) node).

(** The codes of the errors that [fs] raises: those of the system, and
    [ERR_INVALID_ARG_VALUE] for a path that holds a NUL character, which is
    refused before the system is asked. *)
Inductive errno := ENOENT | ENOTDIR | EISDIR | EEXIST | ERR_INVALID_ARG_VALUE.

Definition stat (fs : filesystem) (p : list jsstring) : option node :=
  match p with
  | [] => Some Dir
  | _ => fs !! p
  end.

(** How the system resolves a path string for a process whose working
    directory is [cwd] (segments, last one first): the absolute segment
    list and whether the string ended in a slash.  The empty string names
    nothing, and neither does a string with a NUL character. *)
Definition resolve_step (rstack : list jsstring) (seg : jsstring) : list jsstring :=
  if decide (seg = [] ∨ seg = js ".") then rstack
  else if decide (seg = js "..") then tail rstack
  else seg :: rstack.

Definition resolve (cwd : list jsstring) (p : jsstring)
    : option (list jsstring * bool) :=
  match p with
  | [] => None
  | _ =>
      if has_nul p then None
      else
        let start := if is_absolute p then [] else reverse cwd in
        Some (reverse (foldl resolve_step start (split_slash p)),
              has_trailing_slash p)
  end.

Definition parent (p : list jsstring) : list jsstring := reverse (tail (reverse p)).

(** Why the system does not find [segs]: a regular file on the way is not a
    directory (ENOTDIR), otherwise something is missing (ENOENT). *)
Definition below_a_file (fs : filesystem) (segs : list jsstring) : bool :=
  existsb (λ k, match stat fs (take k segs) with Some (File _) => true | _ => false end)
          (seq 1 (length segs - 1)).

Definition not_found (fs : filesystem) (segs : list jsstring) : errno :=
  if below_a_file fs segs then ENOTDIR else ENOENT.

(** [fs.readFileSync(p, "utf8")] *)
Definition readFileSync (cwd : list jsstring) (fs : filesystem) (p : jsstring)
    : errno + jsstring :=
  if has_nul p then inl ERR_INVALID_ARG_VALUE
  else
    match resolve cwd p with
    | None => inl ENOENT
    | Some (segs, trailing) =>
        match stat fs segs with
        | None => inl (not_found fs segs)
        | Some Dir => inl EISDIR
        | Some (File bytes) =>
            if trailing then inl ENOTDIR else inr (utf8_decode bytes)
        end
    end.

(** [fs.existsSync(p)]: never throws; a path that is refused does not exist. *)
Definition existsSync (cwd : list jsstring) (fs : filesystem) (p : jsstring) : bool :=
  match resolve cwd p with
  | None => false
  | Some (segs, trailing) =>
      match stat fs segs with
      | None => false
      | Some Dir => true
      | Some (File _) => negb trailing
      end
  end.

(** The entries of the directory [dir]: name and whether it is a directory. *)
Definition child_entry (dir : list jsstring) (kv : list jsstring * node)
    : option (jsstring * bool) :=
  match reverse kv.1 with
  | name :: rdir =>
      if decide (reverse rdir = dir)
      then Some (name, match kv.2 with Dir => true | File _ => false end)
      else None
  | [] => None
  end.

(** The order in which a directory is listed: by name, code unit by code
    unit. *)
Fixpoint name_le (a b : jsstring) : bool :=
  match a, b with
  | [], _ => true
  | _ :: _, [] => false
  | x :: a', y :: b' => (x <? y) || ((x =? y) && name_le a' b')
  end.

Fixpoint insert_by_name (d : jsstring * bool) (l : list (jsstring * bool))
    : list (jsstring * bool) :=
  match l with
  | [] => [d]
  | d' :: l' => if name_le d.1 d'.1 then d :: l else d' :: insert_by_name d l'
  end.

Definition sort_by_name (l : list (jsstring * bool)) : list (jsstring * bool) :=
  foldr insert_by_name [] l.

(** [fs.readdirSync(p, { withFileTypes: true })] *)
Definition readdirSync (cwd : list jsstring) (fs : filesystem) (p : jsstring)
    : errno + list (jsstring * bool) :=
  if has_nul p then inl ERR_INVALID_ARG_VALUE
  else
    match resolve cwd p with
    | None => inl ENOENT
    | Some (segs, _) =>
        match stat fs segs with
        | None => inl (not_found fs segs)
        | Some (File _) => inl ENOTDIR
        | Some Dir => inr (sort_by_name (omap (child_entry segs) (map_to_list fs)))
        end
    end.

(** [mkdir -p] on a resolved path given last segment first: a directory
    that exists is left alone, a missing one is created after its parent; a
    file in the way is an error. *)
Fixpoint mkdirp (fs : filesystem) (rsegs : list jsstring) : errno + filesystem :=
  match stat fs (reverse rsegs) with
  | Some Dir => inr fs
  | Some (File _) => inl EEXIST
  | None =>
      match rsegs with
      | [] => inr fs
      | _ :: rparent =>
          match mkdirp fs rparent with
          | inl _ => inl ENOTDIR
          | inr fs' => inr (<[reverse rsegs := Dir]> fs')
          end
      end
  end.

(** [fs.mkdirSync(p, { recursive: true })].  When [p] itself names a regular
    file Node raises EEXIST, while Bun 1.1.38 returns without an error and
    without creating anything; [over_file] tells which of the two the
    runtime does. *)
Definition mkdirSync (over_file : bool) (cwd : list jsstring) (fs : filesystem)
    (p : jsstring) : errno + filesystem :=
  if has_nul p then inl ERR_INVALID_ARG_VALUE
  else
    match resolve cwd p with
    | None => inl ENOENT
    | Some (segs, _) =>
        match stat fs segs with
        | Some (File _) => if over_file then inl EEXIST else inr fs
        | _ => mkdirp fs (reverse segs)
        end
    end.

(** [fs.writeFileSync(p, content, "utf8")]: creates or truncates the file;
    the directory that holds it must exist. *)
Definition writeFileSync (cwd : list jsstring) (fs : filesystem)
    (p content : jsstring) : errno + filesystem :=
  if has_nul p then inl ERR_INVALID_ARG_VALUE
  else
    match resolve cwd p with
    | None => inl ENOENT
    | Some (segs, trailing) =>
        match stat fs segs with
        | Some Dir => inl EISDIR
        | Some (File _) =>
            if trailing then inl ENOTDIR
            else inr (<[segs := File (utf8_encode content)]> fs)
        | None =>
            match stat fs (parent segs) with
            | None => inl (not_found fs segs)
            | Some (File _) => inl ENOTDIR
            | Some Dir =>
                if trailing then inl EISDIR
                else inr (<[segs := File (utf8_encode content)]> fs)
            end
        end
    end.

(** What is left when the node that [p] names and all below it disappear. *)
Definition remove_tree (cwd : list jsstring) (fs : filesystem) (p : jsstring)
    : filesystem :=
  match resolve cwd p with
  | None => fs
  | Some (segs, _) =>
      filter (λ kv : list jsstring * node, ¬ segs `prefix_of` kv.1) fs
  end.

(** [fs.rmSync(p, { recursive: true, force: true })]: a missing path is not
    an error. *)
Definition rmSync (cwd : list jsstring) (fs : filesystem) (p : jsstring)
    : errno + filesystem :=
  if has_nul p then inl ERR_INVALID_ARG_VALUE else inr (remove_tree cwd fs p).

(** ** The Node runtime: [child_process] *)

(** What [spawnSync(cmd, { cwd, ... })] refuses with a [TypeError]
    ([ERR_INVALID_ARG_VALUE]) before it starts anything: an empty command,
    and a command or a working directory that holds a NUL character. *)
Definition invalid_spawn_args (cmd cwd : jsstring) : bool :=
  match cmd with
  | [] => true
  | _ => has_nul cmd || has_nul cwd
  end.

(** ** The JavaScript runtime: numbers, loose values, JSON *)

Fixpoint uint_digits (u : Decimal.uint) : jsstring :=
  match u with
  | Decimal.Nil => []
  | Decimal.D0 u => 48 :: uint_digits u
  | Decimal.D1 u => 49 :: uint_digits u
  | Decimal.D2 u => 50 :: uint_digits u
  | Decimal.D3 u => 51 :: uint_digits u
  | Decimal.D4 u => 52 :: uint_digits u
  | Decimal.D5 u => 53 :: uint_digits u
  | Decimal.D6 u => 54 :: uint_digits u
  | Decimal.D7 u => 55 :: uint_digits u
  | Decimal.D8 u => 56 :: uint_digits u
  | Decimal.D9 u => 57 :: uint_digits u
  end.

(** [String(n)] for an integer [n]. *)
Definition Number_toString (n : Z) : jsstring :=
  match Z.to_int n with
  | Decimal.Pos u => uint_digits u
  | Decimal.Neg u => 45 :: uint_digits u
  end.

Definition Boolean_toString (b : bool) : jsstring :=
  if b then js "true" else js "false".

(** The values a tool argument can hold.  The tool schema declares every
    parameter as a string; a caller may still leave one out or send
    [null] or a boolean. *)
Inductive jsval :=
  | VUndefined
  | VNull
  | VBool (b : bool)
  | VString (s : jsstring).

(** [String(v)] *)
Definition String_of (v : jsval) : jsstring :=
  match v with
  | VUndefined => js "undefined"
  | VNull => js "null"
  | VBool b => Boolean_toString b
  | VString s => s
  end.

(** [v ?? d] *)
Definition nullish (v d : jsval) : jsval :=
  match v with
  | VUndefined | VNull => d
  | _ => v
  end.

Inductive json :=
  | JNull
  | JBool (b : bool)
  | JNumber (n : Z)
  | JString (s : jsstring)
  | JArray (items : list json)
  | JObject (fields : list (jsstring * json)).

Definition hex_digit (d : Z) : Z := if d <? 10 then 48 + d else 87 + d.

Definition unicode_escape (c : Z) : jsstring :=
  [92; 117; hex_digit (c / 4096 mod 16); hex_digit (c / 256 mod 16);
   hex_digit (c / 16 mod 16); hex_digit (c mod 16)].

Definition quote_unit (c : Z) : jsstring :=
  if c =? 8 then [92; 98]
  else if c =? 9 then [92; 116]
  else if c =? 10 then [92; 110]
  else if c =? 12 then [92; 102]
  else if c =? 13 then [92; 114]
  else if c =? 34 then [92; 34]
  else if c =? 92 then [92; 92]
  else if c <? 32 then unicode_escape c
  else [c].

(** The body of [QuoteJSONString]: a surrogate outside a pair is escaped. *)
Fixpoint quote_units (s : jsstring) : jsstring :=
  match s with
  | [] => []
  | c :: t =>
      if is_high_surrogate c then
        match t with
        | d :: t' =>
            if is_low_surrogate d then c :: d :: quote_units t'
            else unicode_escape c ++ quote_units t
        | [] => unicode_escape c
        end
      else if is_low_surrogate c then unicode_escape c ++ quote_units t
      else quote_unit c ++ quote_units t
  end.

Definition quote (s : jsstring) : jsstring := [34] ++ quote_units s ++ [34].

(** [JSON.stringify(v)] without indentation. *)
Fixpoint JSON_stringify (v : json) : jsstring :=
  match v with
  | JNull => js "null"
  | JBool b => Boolean_toString b
  | JNumber n => Number_toString n
  | JString s => quote s
  | JArray items =>
      js "[" ++ join (js ",") (map JSON_stringify items) ++ js "]"
  | JObject fields =>
      js "{" ++
      join (js ",")
        (map (λ kv, quote (fst kv) ++ js ":" ++ JSON_stringify (snd kv)) fields)
      ++ js "}"
  end.

(** ** What the program exchanges with the outside *)

(** One turn of the conversation sent to the reasoning service. *)
Record message := {
  role : jsstring;
  name : option jsstring;
  content : jsstring;
}.

(** The [arguments] of a function call as the dispatch code reads them:
    an object with properties, something without properties of interest
    (a string, a number), or [undefined]/[null], on which a property read
    raises a [TypeError]. *)
Inductive jsargs :=
  | ArgsObject (props : gmap jsstring jsval)
  | ArgsPrimitive
  | ArgsNullish.

(** An element of [toolCalls]: [{ name: o.name, args: o.arguments }]. *)
Record tool_call := {
  tc_name : jsstring;
  tc_args : jsargs;
}.

(** The parts of a message item: those of type "output_text" carry text. *)
Inductive content_part :=
  | OutputText (text : jsstring)
  | OtherPart.

(** The items of [data.output], by their [type]: "function_call",
    "message", anything else. *)
Inductive output_item :=
  | FunctionCall (name : jsstring) (arguments : jsargs)
  | OutputMessage (content : list content_part)
  | OtherItem.

(** What comes back from the request: [fetch] or [resp.json()] rejects, the
    status is not a success ([!resp.ok], with [resp.status] and
    [resp.text()]), or [data.output] is there ([data.output ?? []]). *)
Inductive http_response :=
  | FetchFailed
  | HttpError (status : Z) (body : jsstring)
  | HttpOk (output : list output_item).

(** The object returned by [spawnSync]: [status] is [null] when the process
    did not exit by itself, the streams are [null] when it could not be
    started. *)
Record spawn_result := {
  p_status : option Z;
  p_stdout : option jsstring;
  p_stderr : option jsstring;
}.

(** An entry of [issues.data]; [i_pull_request] tells that the entry has a
    [pull_request] field. *)
Record issue_data := {
  i_number : Z;
  i_title : option jsstring;
  i_body : option jsstring;
  i_pull_request : bool;
}.

(** What a [throw] carries: a system error of an [fs] call, a [TypeError]
    (a property read on [undefined] or [null], or an argument that [fs] or
    [spawnSync] refuses before doing anything), a failed request to the
    reasoning service (no answer, or an answer that is not a success), the
    step budget, a failed tracker call. *)
Inductive error :=
  | FsError (code : errno) (path : jsstring)
  | TypeError
  | TransportError
  | OpenAIError (status : Z) (body : jsstring)
  | MaxStepsExceeded
  | TrackerError.

(** Every interaction with the outside, in the order it happens.
    [Uncaught e] is the [console.error(e)] of the handler at the bottom of
    the file. *)
Inductive event :=
  | Spawn (cmd cwd : jsstring)
  | Fetch (model : jsstring) (input : list message)
  | ListIssues
  | CreateComment (issue_number : Z) (body : jsstring)
  | CreatePull (title head base body : jsstring)
  | Sleep (ms : Z)
  | ConsoleLog (msg : jsstring)
  | ConsoleError (msg : jsstring)
  | Uncaught (e : error).

(** The outside world is deterministic but otherwise arbitrary: each
    answer may depend on everything that happened before.  [w_cwd] is the
    working directory of the process (segments); a spawned command answers
    with its result and leaves the files as it likes; the tracker calls can
    fail.  Two fields stand for the runtime that executes the program:
    [w_mkdir_over_file] tells whether [mkdirSync] reports a regular file at
    its path, and [w_byteLength_ill_formed] is what [Buffer.byteLength]
    answers for a string that is not well formed. *)
Record world := {
  w_cwd : list jsstring;
  w_mkdir_over_file : bool;
  w_byteLength_ill_formed : jsstring → Z;
  w_spawn : list event → jsstring → jsstring → filesystem → spawn_result * filesystem;
  w_fetch : list event → jsstring → list message → http_response;
  w_list_issues : list event → option (list issue_data);
  w_create_comment : list event → Z → jsstring → bool;
  w_create_pull :
    list event → jsstring → jsstring → jsstring → jsstring → option jsstring;
}.

(** The parsed environment ([Env]). *)
Record env := {
  OPENAI_MODEL : jsstring;
  GITHUB_OWNER : jsstring;
  GITHUB_REPO : jsstring;
  ISSUE_LABEL : jsstring;
  POLL_INTERVAL_SECONDS : Z;
  DEFAULT_BASE_BRANCH : jsstring;
  WORKDIR : jsstring;
  REPO_CLONE_URL : option jsstring;
}.

(** ** The monad of the program: state, exceptions, process exit *)

(** A computation returns a value, throws, or ends the process. *)
Inductive outcome (A : Type) :=
  | Return (a : A)
  | Throw (e : error)
  | Exit (code : Z).
Arguments Return {A} a.
Arguments Throw {A} e.
Arguments Exit {A} code.

(** The files on disk and what has happened so far. *)
Record state := {
  st_fs : filesystem;
  st_trace : list event;
}.

Definition M (A : Type) : Type := state → outcome A * state.

#[export] Instance M_ret : MRet M := λ A a st, (Return a, st).

#[export] Instance M_bind : MBind M := λ A B f m st,
  match m st with
  | (Return a, st') => f a st'
  | (Throw e, st') => (Throw e, st')
  | (Exit c, st') => (Exit c, st')
  end.

Definition throw {A} (e : error) : M A := λ st, (Throw e, st).

Definition process_exit {A} (c : Z) : M A := λ st, (Exit c, st).

Definition emit (e : event) : M unit := λ st,
  (Return tt, {| st_fs := st_fs st; st_trace := st_trace st ++ [e] |}).

Definition get_fs : M filesystem := λ st, (Return (st_fs st), st).

Definition put_fs (fs : filesystem) : M unit := λ st,
  (Return tt, {| st_fs := fs; st_trace := st_trace st |}).

(** The exception of a failed [fs] call on the path [p]: the system error,
    or the [TypeError] of a path that was refused. *)
Definition fs_exception (code : errno) (p : jsstring) : error :=
  match code with
  | ERR_INVALID_ARG_VALUE => TypeError
  | _ => FsError code p
  end.

(** A call into [fs] that raises the error it gets. *)
Definition lift_fs {A} (p : jsstring) (r : errno + A) : M A :=
  match r with
  | inl code => throw (fs_exception code p)
  | inr a => mret a
  end.

(** ** The program *)

Section Program.

Context (w : world).

(** [spawnSync(cmd, { cwd, shell: true, ... })]: arguments that are refused
    throw before anything is started; otherwise whatever the command does to
    the files is up to the world. *)
Definition spawnSync (cmd cwd : jsstring) : M spawn_result := λ st,
  if invalid_spawn_args cmd cwd then (Throw TypeError, st)
  else
    let '(r, fs') := w_spawn w (st_trace st) cmd cwd (st_fs st) in
    (Return r, {| st_fs := fs'; st_trace := st_trace st ++ [Spawn cmd cwd] |}).

(** [fetch("https://api.openai.com/v1/responses", ...)] with the body
    [{ model, input, tools, reasoning }], up to [resp.json()]. *)
Definition fetch_responses (model : jsstring) (input : list message)
    : M http_response := λ st,
  (Return (w_fetch w (st_trace st) model input),
   {| st_fs := st_fs st; st_trace := st_trace st ++ [Fetch model input] |}).

Definition octokit_issues_listForRepo : M (list issue_data) := λ st,
  let st' := {| st_fs := st_fs st; st_trace := st_trace st ++ [ListIssues] |} in
  match w_list_issues w (st_trace st) with
  | Some l => (Return l, st')
  | None => (Throw TrackerError, st')
  end.

Definition octokit_issues_createComment (issue_number : Z) (body : jsstring)
    : M unit := λ st,
  let st' := {| st_fs := st_fs st;
                st_trace := st_trace st ++ [CreateComment issue_number body] |} in
  if w_create_comment w (st_trace st) issue_number body
  then (Return tt, st') else (Throw TrackerError, st').

(** [octokit.pulls.create]; the answer is [pr.data.html_url]. *)
Definition octokit_pulls_create (title head base body : jsstring)
    : M jsstring := λ st,
  let st' := {| st_fs := st_fs st;
                st_trace := st_trace st ++ [CreatePull title head base body] |} in
  match w_create_pull w (st_trace st) title head base body with
  | Some url => (Return url, st')
  | None => (Throw TrackerError, st')
  end.

(** *** [die] (line 45) *)
Definition die {A} (msg : jsstring) : M A :=
  emit (ConsoleError msg) ≫= λ _, process_exit 1.

(** *** [safeRun] (line 81) *)

(** The object [safeRun] returns. *)
Record run_result := {
  ok : bool;
  stdout : jsstring;
  stderr : jsstring;
  code : Z;
}.

Definition forbidden : list jsstring :=
  [js "rm -rf /"; js "mkfs"; js "dd if="; js ":(){"; js "shutdown";
   js "reboot"; js "chmod -R 777 /"].

(** [forbidden.some(f => cmd.includes(f))] *)
Definition is_forbidden (cmd : jsstring) : bool :=
  existsb (λ f, includes cmd f) forbidden.

Definition safeRun (cmd cwd : jsstring) : M run_result :=
  if is_forbidden cmd then
    mret {| ok := false; stdout := [];
            stderr := js "Forbidden command pattern: " ++ cmd; code := 126 |}
  else
    p ← spawnSync cmd cwd;
    mret {| ok := bool_decide (p_status p = Some 0);
            stdout := default [] (p_stdout p);
            stderr := default [] (p_stderr p);
            code := default 1 (p_status p) |}.

(** *** [detectStack] (line 93) *)

(** The object [detectStack] returns. *)
Record stack := {
  isBun : bool;
  isNode : bool;
  isPython : bool;
  isDotnet : bool;
  commands : list jsstring;
}.

(** [String.prototype.endsWith] *)
Definition endsWith (s suffix : jsstring) : bool :=
  startsWith (reverse s) (reverse suffix).

Definition detectStack (repoDir : jsstring) : M stack :=
  fs ← get_fs;
  let has p := existsSync (w_cwd w) fs (path_join repoDir p) in
  let isBun := has (js "bun.lockb") in
  let isNode := has (js "package.json") in
  let isPython := has (js "pyproject.toml") || has (js "requirements.txt") in
  names ← lift_fs repoDir (readdirSync (w_cwd w) fs repoDir);
  let isDotnet :=
    existsb (λ f, endsWith f.1 (js ".sln")) names ||
    existsb (λ f, endsWith f.1 (js ".csproj")) names in
  let commands :=
    (if isBun then [js "bun install"; js "bun test || true"; js "bun run build || true"]
     else if isNode then [js "npm ci || npm install"; js "npm test || true";
                          js "npm run build || true"]
     else []) ++
    (if isPython then [js "python3 -m pip install -r requirements.txt || true";
                       js "pytest -q || true"] else []) ++
    (if isDotnet then [js "dotnet test || true"; js "dotnet build || true"] else []) in
  mret {| isBun := isBun; isNode := isNode; isPython := isPython;
          isDotnet := isDotnet; commands := commands |}.

(** *** [openaiLoop] (line 110) *)

Definition nl : jsstring := [10].

Definition system_prompt : jsstring := trim (js "
You are a senior software engineering agent.
Goal: implement the GitHub Issue in the checked-out repository.

Rules:
- Prefer minimal, correct changes.
- Before changing code, inspect the repo structure.
- Use the provided tools to read/write files and run tests.
- Always run relevant tests/build commands (best effort).
- Produce a concise PR description at the end (title + bullet summary + test evidence).
- If requirements are unclear, make a reasonable assumption and document it in PR notes.
").

Definition user_prompt (number : Z) (title body : jsstring) (s : stack) : jsstring :=
  trim (nl ++ js "Issue #" ++ Number_toString number ++ js ": " ++ title ++ nl ++
        nl ++ body ++ nl ++
        nl ++ js "Repo stack hints:" ++ nl ++
        js "- bun: " ++ Boolean_toString (isBun s) ++ nl ++
        js "- node: " ++ Boolean_toString (isNode s) ++ nl ++
        js "- python: " ++ Boolean_toString (isPython s) ++ nl ++
        js "- dotnet: " ++ Boolean_toString (isDotnet s) ++ nl ++
        nl ++ js "Suggested commands (best-effort):" ++ nl ++
        join nl (map (λ c, js "- " ++ c) (commands s)) ++ nl).

(** [output.filter(o => o.type === "function_call").map(...)] *)
Definition toolCalls_of (output : list output_item) : list tool_call :=
  omap (λ o, match o with
             | FunctionCall n a => Some {| tc_name := n; tc_args := a |}
             | _ => None
             end) output.

(** The text parts of the message items, joined by newlines. *)
Definition finalText_of (output : list output_item) : jsstring :=
  join nl
    (omap (λ c, match c with OutputText t => Some t | OtherPart => None end)
       (output ≫= λ o, match o with OutputMessage c => c | _ => [] end)).

(** [tc.args.k]: reading a property of [undefined] or [null] throws. *)
Definition prop (args : jsargs) (k : string) : M jsval :=
  match args with
  | ArgsObject props => mret (default VUndefined (props !! js k))
  | ArgsPrimitive => mret VUndefined
  | ArgsNullish => throw TypeError
  end.

(** The bodies of the four [if] blocks of the dispatch (lines 241 to 270);
    each computes the new value of [result]. *)
Definition list_files_block (repoDir : jsstring) (args : jsargs) : M json :=
  d ← prop args "dir";
  let dir := String_of (nullish d (VString (js "."))) in
  let abs := path_join repoDir dir in
  fs ← get_fs;
  entries ← lift_fs abs (readdirSync (w_cwd w) fs abs);
  let items :=
    map (λ d : jsstring * bool,
           JObject [(js "name", JString d.1);
                    (js "type", JString (if d.2 then js "dir" else js "file"))])
        entries in
  mret (JObject [(js "dir", JString dir); (js "items", JArray items)]).

Definition read_file_block (repoDir : jsstring) (args : jsargs) : M json :=
  f ← prop args "file";
  let file := String_of f in
  let abs := path_join repoDir file in
  fs ← get_fs;
  text ← lift_fs abs (readFileSync (w_cwd w) fs abs);
  mret (JObject [(js "file", JString file); (js "content", JString text)]).

(** [Buffer.byteLength(s, "utf8")]: the count for a well-formed string; for
    the others the runtimes differ, and the answer is the world's. *)
Definition byteLength (s : jsstring) : Z :=
  if isWellFormed s then utf8_length s else w_byteLength_ill_formed w s.

Definition write_file_block (repoDir : jsstring) (args : jsargs) : M json :=
  f ← prop args "file";
  let file := String_of f in
  c ← prop args "content";
  let content := String_of (nullish c (VString [])) in
  let abs := path_join repoDir file in
  fs ← get_fs;
  fs ← lift_fs (path_dirname abs)
         (mkdirSync (w_mkdir_over_file w) (w_cwd w) fs (path_dirname abs));
  put_fs fs;;
  fs ← lift_fs abs (writeFileSync (w_cwd w) fs abs content);
  put_fs fs;;
  mret (JObject [(js "file", JString file);
                 (js "bytes", JNumber (byteLength content))]).

Definition run_block (repoDir : jsstring) (args : jsargs) : M json :=
  c ← prop args "cmd";
  let cmd := String_of c in
  r ← safeRun cmd repoDir;
  mret (JObject [(js "cmd", JString cmd); (js "ok", JBool (ok r));
                 (js "code", JNumber (code r));
                 (js "stdout", JString (slice0 12000 (stdout r)));
                 (js "stderr", JString (slice0 12000 (stderr r)))]).

(** [let result = null] followed by the four [if]s, in the order of the
    source; an [if] whose name does not match leaves [result] alone. *)
Definition tool_result (repoDir : jsstring) (tc : tool_call) : M json :=
  let result := JNull in
  result ←
    (if decide (tc_name tc = js "list_files")
     then list_files_block repoDir (tc_args tc) else mret result);
  result ←
    (if decide (tc_name tc = js "read_file")
     then read_file_block repoDir (tc_args tc) else mret result);
  result ←
    (if decide (tc_name tc = js "write_file")
     then write_file_block repoDir (tc_args tc) else mret result);
  result ←
    (if decide (tc_name tc = js "run")
     then run_block repoDir (tc_args tc) else mret result);
  mret result.

(** One iteration of [for (const tc of toolCalls)]: the result is pushed
    onto [messages]. *)
Definition apply_tool_call (repoDir : jsstring) (messages : list message)
    (tc : tool_call) : M (list message) :=
  result ← tool_result repoDir tc;
  mret (messages ++ [{| role := js "tool"; name := Some (tc_name tc);
                        content := JSON_stringify result |}]).

Fixpoint apply_tool_calls (repoDir : jsstring) (messages : list message)
    (tcs : list tool_call) : M (list message) :=
  match tcs with
  | [] => mret messages
  | tc :: rest =>
      messages ← apply_tool_call repoDir messages tc;
      apply_tool_calls repoDir messages rest
  end.

Definition max_steps : nat := 30.

(** The [for (let step = 0; step < 30; step++)] loop, by the number of
    iterations left; falling out of it throws. *)
Fixpoint conversation (e : env) (repoDir : jsstring) (steps_left : nat)
    (messages : list message) : M jsstring :=
  match steps_left with
  | O => throw MaxStepsExceeded
  | S n =>
      resp ← fetch_responses (OPENAI_MODEL e) messages;
      match resp with
      | FetchFailed => throw TransportError
      | HttpError status txt => throw (OpenAIError status txt)
      | HttpOk output =>
          let toolCalls := toolCalls_of output in
          let finalText := finalText_of output in
          match toolCalls with
          | [] => mret finalText
          | _ =>
              messages ← apply_tool_calls repoDir messages toolCalls;
              let messages :=
                match trim finalText with
                | [] => messages
                | _ => messages ++ [{| role := js "assistant"; name := None;
                                       content := finalText |}]
                end in
              conversation e repoDir n messages
          end
      end
  end.

Definition openaiLoop (e : env) (repoDir : jsstring)
    (number : Z) (title body : jsstring) : M jsstring :=
  s ← detectStack repoDir;
  conversation e repoDir max_steps
    [{| role := js "system"; name := None; content := system_prompt |};
     {| role := js "user"; name := None; content := user_prompt number title body s |}].

(** *** [main] (line 292)

    [Env.parse] and [getInstallationOctokit] have run; [e] is the parsed
    environment and the tracker calls below go through the authenticated
    client. *)

(** [issueTitle.replace(...)]: every double quote gets a backslash in front. *)
Definition escape_quotes (s : jsstring) : jsstring :=
  s ≫= λ c, if c =? 34 then [92; 34] else [c].

Definition git_clone (cloneUrl repoDir : jsstring) : jsstring :=
  js "git clone " ++ cloneUrl ++ js " " ++ repoDir.

Definition git_checkout (branch : jsstring) : jsstring :=
  js "git checkout " ++ branch.

Definition git_checkout_b (branch : jsstring) : jsstring :=
  js "git checkout -b " ++ branch.

Definition git_commit (number : Z) (title : jsstring) : jsstring :=
  js "git commit -m " ++ [34] ++ js "Fix: #" ++ Number_toString number ++
  js " " ++ escape_quotes title ++ [34].

Definition git_push (branch : jsstring) : jsstring :=
  js "git push -u origin " ++ branch.

Definition branch_name (number : Z) (title : jsstring) : jsstring :=
  js "agent/issue-" ++ Number_toString number ++ js "-" ++ slug title.

(** The part of the loop body that follows [openaiLoop]. *)
Definition publish (e : env) (repoDir branch : jsstring)
    (issueNumber : Z) (issueTitle finalText : jsstring) : M unit :=
  st ← safeRun (js "git status --porcelain") repoDir;
  match trim (stdout st) with
  | [] =>
      emit (ConsoleLog (js "No changes produced. Commenting on issue and skipping."));;
      octokit_issues_createComment issueNumber
        (slice0 65000
           (js "I couldn't produce any changes for this issue." ++ nl ++ nl ++
            js "Model notes:" ++ nl ++ finalText));;
      emit (Sleep 2000)
  | _ =>
      safeRun (js "git add -A") repoDir;;
      safeRun (git_commit issueNumber issueTitle) repoDir;;
      push ← safeRun (git_push branch) repoDir;
      (if ok push then mret tt else die (js "git push failed: " ++ stderr push));;
      url ← octokit_pulls_create
               (js "#" ++ Number_toString issueNumber ++ js " " ++ issueTitle)
               branch (DEFAULT_BASE_BRANCH e)
               (slice0 65000
                  (finalText ++ nl ++ nl ++ js "Closes #" ++ Number_toString issueNumber));
      octokit_issues_createComment issueNumber
        (slice0 65000 (js "Opened PR: " ++ url ++ nl ++ nl ++ finalText));;
      emit (ConsoleLog (js "PR opened: " ++ url));;
      emit (Sleep 2000)
  end.

(** From the removal of the old directory to the new branch: the part of
    the loop body that precedes [openaiLoop]. *)
Definition provision (e : env) (cloneUrl workRoot repoDir branch : jsstring)
    (issueNumber : Z) (issueTitle : jsstring) : M unit :=
  fs ← get_fs;
  fs ← lift_fs repoDir (rmSync (w_cwd w) fs repoDir);
  put_fs fs;;
  emit (ConsoleLog (js "Working on issue #" ++ Number_toString issueNumber ++
                    js ": " ++ issueTitle));;
  r1 ← safeRun (git_clone cloneUrl repoDir) workRoot;
  (if ok r1 then mret tt else die (js "git clone failed: " ++ stderr r1));;
  safeRun (git_checkout (DEFAULT_BASE_BRANCH e)) repoDir;;
  safeRun (git_checkout_b branch) repoDir;;
  mret tt.

(** [issue.title ?? `issue-${issueNumber}`] *)
Definition issueTitle_of (issue : issue_data) : jsstring :=
  default (js "issue-" ++ Number_toString (i_number issue)) (i_title issue).

(** [path.join(workRoot, `${env.GITHUB_REPO}-${issueNumber}`)] *)
Definition repoDir_of (e : env) (workRoot : jsstring) (issue : issue_data) : jsstring :=
  path_join workRoot (GITHUB_REPO e ++ js "-" ++ Number_toString (i_number issue)).

Definition branch_of (issue : issue_data) : jsstring :=
  branch_name (i_number issue) (issueTitle_of issue).

(** The work on one selected issue. *)
Definition work_on (e : env) (cloneUrl workRoot : jsstring) (issue : issue_data)
    : M unit :=
  let issueNumber := i_number issue in
  let issueTitle := issueTitle_of issue in
  let issueBody := default [] (i_body issue) in
  let repoDir := repoDir_of e workRoot issue in
  let branch := branch_of issue in
  provision e cloneUrl workRoot repoDir branch issueNumber issueTitle;;
  finalText ← openaiLoop e repoDir issueNumber issueTitle issueBody;
  publish e repoDir branch issueNumber issueTitle finalText.

(** One pass through the body of [while (true)]. *)
Definition poll_cycle (e : env) (cloneUrl workRoot : jsstring) : M unit :=
  issues ← octokit_issues_listForRepo;
  match find (λ i, negb (i_pull_request i)) issues with
  | None =>
      emit (ConsoleLog (js "No matching issues. Sleeping..."));;
      emit (Sleep (POLL_INTERVAL_SECONDS e * 1000))
  | Some issue => work_on e cloneUrl workRoot issue
  end.

(** [while (true)] unfolded [cycles] times; a normal return means that the
    process is still polling. *)
Fixpoint poll_loop (e : env) (cloneUrl workRoot : jsstring) (cycles : nat) : M unit :=
  match cycles with
  | O => mret tt
  | S n => poll_cycle e cloneUrl workRoot;; poll_loop e cloneUrl workRoot n
  end.

(** [env.REPO_CLONE_URL ?? `https://github.com/${owner}/${repo}.git`] *)
Definition cloneUrl_of (e : env) : jsstring :=
  default (js "https://github.com/" ++ GITHUB_OWNER e ++ js "/" ++
           GITHUB_REPO e ++ js ".git") (REPO_CLONE_URL e).

Definition main (e : env) (cycles : nat) : M unit :=
  let cloneUrl := cloneUrl_of e in
  let workRoot := WORKDIR e in
  fs ← get_fs;
  fs ← lift_fs workRoot (mkdirSync (w_mkdir_over_file w) (w_cwd w) fs workRoot);
  put_fs fs;;
  emit (ConsoleLog (js "Agent started. Watching " ++ GITHUB_OWNER e ++ js "/" ++
                    GITHUB_REPO e ++ js " label=" ++ ISSUE_LABEL e));;
  poll_loop e cloneUrl workRoot cycles.

(** [.catch(e => { console.error(e); process.exit(1); })] *)
Definition catch_and_exit (m : M unit) : M unit := λ st,
  match m st with
  | (Throw err, st') =>
      (Exit 1, {| st_fs := st_fs st'; st_trace := st_trace st' ++ [Uncaught err] |})
  | r => r
  end.

(** The last statement of the file: [main().catch(...)]. *)
Definition run_main (e : env) (cycles : nat) : M unit :=
  catch_and_exit (main e cycles).

End Program.

(** ** [getPrivateKeyPem] (main.ts, line 50) *)

(** The two optional settings of [Env] that name the private key. *)
Record key_settings := {
  GITHUB_PRIVATE_KEY_BASE64 : option jsstring;
  GITHUB_PRIVATE_KEY_PATH : option jsstring;
}.

(** [if (s)] for an optional string: [undefined] and the empty string are
    falsy. *)
Definition truthy (s : option jsstring) : bool :=
  match s with
  | Some (_ :: _) => true
  | _ => false
  end.

Definition missing_key_message : jsstring :=
  js "Missing GitHub App private key. Provide GITHUB_PRIVATE_KEY_PATH or GITHUB_PRIVATE_KEY_BASE64.".

Section PrivateKey.

Context (w : world).

(** [Buffer.from(s, "base64")]: the bytes that a Base64 text stands for.
    What a runtime makes of a text that is not Base64 is its own business,
    so the decoder stays abstract. *)
Context (Buffer_from_base64 : jsstring → list Z).

Definition getPrivateKeyPem (k : key_settings) : M jsstring :=
  match GITHUB_PRIVATE_KEY_PATH k with
  | Some ((_ :: _) as p) =>
      fs ← get_fs;
      lift_fs p (readFileSync (w_cwd w) fs p)
  | _ =>
      match GITHUB_PRIVATE_KEY_BASE64 k with
      | Some ((_ :: _) as b) => mret (utf8_decode (Buffer_from_base64 b))
      | _ => die missing_key_message
      end
  end.

End PrivateKey.

(** * Vocabulary of the properties *)

(** ** Observing a computation *)

(** The state in which [m] leaves the world when started in [st]. *)
Definition state_after {A} (m : M A) (st : state) : state := (m st).2.

(** [m], started in [st], returns: it neither throws nor exits. *)
Definition returns {A} (m : M A) (st : state) : bool :=
  match (m st).1 with Return _ => true | _ => false end.

(** The events [m] adds when started in [st]. *)
Definition new_events {A} (m : M A) (st : state) : list event :=
  drop (length (st_trace st)) (st_trace (m st).2).

Definition add_events (st : state) (Δ : list event) : state :=
  {| st_fs := st_fs st; st_trace := st_trace st ++ Δ |}.

(** The state once the request that carries [messages] has been sent. *)
Definition after_fetch (e : env) (messages : list message) (st : state) : state :=
  {| st_fs := st_fs st; st_trace := st_trace st ++ [Fetch (OPENAI_MODEL e) messages] |}.

(** Kinds of events, and how many of a kind a trace holds. *)
Definition is_spawn (ev : event) : bool :=
  match ev with Spawn _ _ => true | _ => false end.

Definition is_fetch (ev : event) : bool :=
  match ev with Fetch _ _ => true | _ => false end.

Definition is_poll (ev : event) : bool :=
  match ev with ListIssues => true | _ => false end.

Definition is_pull (ev : event) : bool :=
  match ev with CreatePull _ _ _ _ => true | _ => false end.

Definition is_tracker_write (ev : event) : bool :=
  match ev with CreateComment _ _ | CreatePull _ _ _ _ => true | _ => false end.

Definition count (f : event → bool) (t : list event) : nat := length (List.filter f t).

Definition any_event (ev : event) : Prop := True.

Definition no_tracker_write (ev : event) : Prop := is_tracker_write ev = false.

(** Neither a process nor a pull request. *)
Definition quiet_event (ev : event) : Prop := is_spawn ev = false ∧ is_pull ev = false.

(** ** How a computation ends when it does not return *)

Inductive abrupt :=
  | Thrown (e : error)
  | Exited (c : Z).

Definition abrupt_of {A} (o : outcome A) : option abrupt :=
  match o with
  | Return _ => None
  | Throw e => Some (Thrown e)
  | Exit c => Some (Exited c)
  end.

(** [m] only adds events that satisfy [P], and when it does not return it
    ends in a way that satisfies [E]. *)
Definition behaves {A} (P : event → Prop) (E : abrupt → Prop) (m : M A) : Prop :=
  ∀ st, ∃ Δ, st_trace (m st).2 = st_trace st ++ Δ ∧ Forall P Δ ∧
             ∀ x, abrupt_of (m st).1 = Some x → E x.

(** What a tool call can throw: a system error of [fs] or a [TypeError]. *)
Definition tool_failure (x : abrupt) : Prop :=
  match x with
  | Thrown (FsError _ _) | Thrown TypeError => True
  | _ => False
  end.

Definition never_exits (x : abrupt) : Prop :=
  match x with Thrown _ => True | Exited _ => False end.

Definition exits_with_1 (x : abrupt) : Prop :=
  match x with Thrown _ => True | Exited c => c = 1 end.

(** A run ends fatally when the process exits or an exception other than a
    failed tracker call escapes. *)
Definition fatal {A} (o : outcome A) : Prop :=
  match o with
  | Return _ => False
  | Throw e => e ≠ TrackerError
  | Exit _ => True
  end.

(** Whenever [m] ends fatally it has not written to the tracker. *)
Definition quiet_until_fatal {A} (m : M A) : Prop :=
  ∀ st, ∃ Δ, st_trace (m st).2 = st_trace st ++ Δ ∧
             (fatal (m st).1 → Forall no_tracker_write Δ).

Definition never_fatal {A} (m : M A) : Prop :=
  ∀ st, (∃ Δ, st_trace (m st).2 = st_trace st ++ Δ) ∧ ¬ fatal (m st).1.

(** ** [slug] *)

(** The characters of a slug: [[a-z0-9]] and the hyphen. *)
Definition slug_char (c : Z) : Prop := is_lower_alnum c = true ∨ c = hyphen.

(** No two hyphens in a row. *)
Definition single_hyphens (s : jsstring) : Prop :=
  ∀ a b, s ≠ a ++ [hyphen; hyphen] ++ b.

(** ** Tool calls and turns *)

(** [write_file(file, content)] and [read_file(file)] as the service sends
    them. *)
Definition write_file_call (file content : jsstring) : tool_call :=
  {| tc_name := js "write_file";
     tc_args := ArgsObject {[ js "file" := VString file; js "content" := VString content ]} |}.

Definition read_file_call (file : jsstring) : tool_call :=
  {| tc_name := js "read_file"; tc_args := ArgsObject {[ js "file" := VString file ]} |}.

(** [n] is none of the four tools. *)
Definition no_tool_name (n : jsstring) : Prop :=
  n ≠ js "list_files" ∧ n ≠ js "read_file" ∧ n ≠ js "write_file" ∧ n ≠ js "run".

(** [String(tc.args.cmd)] for arguments that can be read. *)
Definition cmd_of (args : jsargs) : jsstring :=
  String_of (match args with
             | ArgsObject props => default VUndefined (props !! js "cmd")
             | _ => VUndefined
             end).

(** [safeRun(cmd, cwd)] gets to [spawnSync] and is refused there. *)
Definition refused_by_spawnSync (cmd cwd : jsstring) : bool :=
  negb (is_forbidden cmd) && invalid_spawn_args cmd cwd.

(** A call that cannot throw in [repoDir]: it does not touch the files and,
    if it is a [run], it has arguments to read and its command is not one
    that [spawnSync] refuses. *)
Definition harmless_call (repoDir : jsstring) (tc : tool_call) : Prop :=
  tc_name tc ≠ js "list_files" ∧ tc_name tc ≠ js "read_file" ∧
  tc_name tc ≠ js "write_file" ∧
  (tc_name tc = js "run" →
   tc_args tc ≠ ArgsNullish ∧
   refused_by_spawnSync (cmd_of (tc_args tc)) repoDir = false).

(** The turn pushed for a call of [n] that produced [result]. *)
Definition tool_turn (n : jsstring) (result : json) : message :=
  {| role := js "tool"; name := Some n; content := JSON_stringify result |}.

(** The turn pushed for a call whose [result] stayed [null]. *)
Definition null_turn (tc : tool_call) : message :=
  {| role := js "tool"; name := Some (tc_name tc); content := js "null" |}.

(** The turn pushed after the tool turns when the response carried text. *)
Definition assistant_turn (finalText : jsstring) : list message :=
  match trim finalText with
  | [] => []
  | _ => [{| role := js "assistant"; name := None; content := finalText |}]
  end.

(** ** Reasoning services *)

(** The service answers every request with at least one tool call. *)
Definition always_calls (w : world) (e : env) : Prop :=
  ∀ t messages, ∃ output,
    w_fetch w t (OPENAI_MODEL e) messages = HttpOk output ∧ toolCalls_of output ≠ [].

Definition only_harmless_calls (w : world) (e : env) (repoDir : jsstring) : Prop :=
  ∀ t messages output,
    w_fetch w t (OPENAI_MODEL e) messages = HttpOk output →
    Forall (harmless_call repoDir) (toolCalls_of output).

(** ** Stations of the work on an issue *)

(** The body of the polling loop for one issue, cut after [openaiLoop]. *)
Definition work_until_loop_ends (w : world) (e : env) (cloneUrl workRoot : jsstring)
    (issue : issue_data) : M unit :=
  let issueNumber := i_number issue in
  let issueTitle := issueTitle_of issue in
  let issueBody := default [] (i_body issue) in
  let repoDir := repoDir_of e workRoot issue in
  provision w e cloneUrl workRoot repoDir (branch_of issue) issueNumber issueTitle;;
  openaiLoop w e repoDir issueNumber issueTitle issueBody;;
  mret tt.

(** [r.ok] of [safeRun(cmd, cwd)] in state [st]. *)
Definition run_ok (w : world) (cmd cwd : jsstring) (st : state) : bool :=
  match (safeRun w cmd cwd st).1 with
  | Return r => ok r
  | _ => false
  end.

(** [st.stdout.trim()] of the status query in state [st]. *)
Definition status_text (w : world) (repoDir : jsstring) (st : state) : jsstring :=
  match (safeRun w (js "git status --porcelain") repoDir st).1 with
  | Return r => trim (stdout r)
  | _ => []
  end.

(** The state in which the clone is attempted. *)
Definition before_clone (w : world) (e : env) (workRoot : jsstring)
    (issue : issue_data) (st : state) : state :=
  {| st_fs := remove_tree (w_cwd w) (st_fs st) (repoDir_of e workRoot issue);
     st_trace := st_trace st ++
       [ConsoleLog (js "Working on issue #" ++ Number_toString (i_number issue) ++
                    js ": " ++ issueTitle_of issue)] |}.

(** The state in which the push is attempted, [st] being the state in
    which the loop has returned. *)
Definition before_push (w : world) (repoDir : jsstring) (number : Z)
    (title : jsstring) (st : state) : state :=
  state_after (safeRun w (git_commit number title) repoDir)
    (state_after (safeRun w (js "git add -A") repoDir)
       (state_after (safeRun w (js "git status --porcelain") repoDir) st)).

(** ** Sample worlds *)

Definition sample_env : env := {|
  OPENAI_MODEL := js "gpt-5-codex"; GITHUB_OWNER := js "octo"; GITHUB_REPO := js "repo";
  ISSUE_LABEL := js "agent"; POLL_INTERVAL_SECONDS := 60;
  DEFAULT_BASE_BRANCH := js "main"; WORKDIR := js "/work"; REPO_CLONE_URL := None |}.

Definition issue_7 : issue_data :=
  {| i_number := 7; i_title := Some (js "Fix: login bug!!");
     i_body := Some (js "Login fails."); i_pull_request := false |}.

Definition empty_state : state := {| st_fs := ∅; st_trace := [] |}.

(** A checkout of issue 7 is in place. *)
Definition checkout_state : state :=
  {| st_fs := {[ [js "work"] := Dir; [js "work"; js "repo-7"] := Dir ]}; st_trace := [] |}.

Definition exit_0 : spawn_result :=
  {| p_status := Some 0; p_stdout := Some []; p_stderr := Some [] |}.

(** Every command succeeds in silence and changes no file, the service has
    nothing to ask for, no issue is open, the tracker accepts everything;
    the runtime is the one of the container as far as [mkdirSync] goes. *)
Definition quiet_world : world := {|
  w_cwd := [];
  w_mkdir_over_file := false;
  w_byteLength_ill_formed := λ s, Z.of_nat (length (utf8_encode s));
  w_spawn := λ _ _ _ fs, (exit_0, fs);
  w_fetch := λ _ _ _, HttpOk [];
  w_list_issues := λ _, Some [];
  w_create_comment := λ _ _ _, true;
  w_create_pull := λ _ _ _ _ _, Some (js "https://github.com/o/r/pull/1");
|}.

Definition with_fetch (f : list event → jsstring → list message → http_response)
    (w : world) : world :=
  {| w_cwd := w_cwd w; w_mkdir_over_file := w_mkdir_over_file w;
     w_byteLength_ill_formed := w_byteLength_ill_formed w; w_spawn := w_spawn w; w_fetch := f;
     w_list_issues := w_list_issues w; w_create_comment := w_create_comment w;
     w_create_pull := w_create_pull w |}.

Definition with_spawn
    (f : list event → jsstring → jsstring → filesystem → spawn_result * filesystem)
    (w : world) : world :=
  {| w_cwd := w_cwd w; w_mkdir_over_file := w_mkdir_over_file w;
     w_byteLength_ill_formed := w_byteLength_ill_formed w; w_spawn := f; w_fetch := w_fetch w;
     w_list_issues := w_list_issues w; w_create_comment := w_create_comment w;
     w_create_pull := w_create_pull w |}.

Definition with_issues (issues : list issue_data) (w : world) : world :=
  {| w_cwd := w_cwd w; w_mkdir_over_file := w_mkdir_over_file w;
     w_byteLength_ill_formed := w_byteLength_ill_formed w; w_spawn := w_spawn w; w_fetch := w_fetch w;
     w_list_issues := λ _, Some issues; w_create_comment := w_create_comment w;
     w_create_pull := w_create_pull w |}.

(** The service keeps asking for a file that is not there. *)
Definition missing_file_world : world :=
  with_fetch (λ _ _ _,
    HttpOk [FunctionCall (js "read_file")
              (ArgsObject {[ js "file" := VString (js "missing.txt") ]})]) quiet_world.

(** The service keeps asking for the listing of a directory that is not there. *)
Definition missing_dir_world : world :=
  with_fetch (λ _ _ _,
    HttpOk [FunctionCall (js "list_files")
              (ArgsObject {[ js "dir" := VString (js "no-such-dir") ]})]) quiet_world.

(** The service keeps asking for the test suite to run. *)
Definition test_runner_world : world :=
  with_fetch (λ _ _ _,
    HttpOk [FunctionCall (js "run")
              (ArgsObject {[ js "cmd" := VString (js "npm test") ]})]) quiet_world.

(** The service keeps asking for the empty command to run. *)
Definition empty_command_world : world :=
  with_fetch (λ _ _ _,
    HttpOk [FunctionCall (js "run") (ArgsObject {[ js "cmd" := VString [] ]})]) quiet_world.

(** Issue 7 is open and the remote cannot be reached. *)
Definition clone_fails_world : world :=
  with_spawn (λ _ cmd _ fs,
    if startsWith cmd (js "git clone ")
    then ({| p_status := Some 128; p_stdout := Some [];
             p_stderr := Some (js "fatal: unable to access the remote") |}, fs)
    else (exit_0, fs))
    (with_issues [issue_7] quiet_world).

(** The checkout has a modified file. *)
Definition changes_world : world :=
  with_spawn (λ _ cmd _ fs,
    if startsWith cmd (js "git status ")
    then ({| p_status := Some 0; p_stdout := Some (js " M a.txt" ++ nl);
             p_stderr := Some [] |}, fs)
    else (exit_0, fs))
    quiet_world.

(** The checkout has a modified file and the remote rejects the push. *)
Definition push_rejected_world : world :=
  with_spawn (λ _ cmd _ fs,
    if startsWith cmd (js "git status ")
    then ({| p_status := Some 0; p_stdout := Some (js " M a.txt" ++ nl);
             p_stderr := Some [] |}, fs)
    else if startsWith cmd (js "git push ")
    then ({| p_status := Some 1; p_stdout := Some [];
             p_stderr := Some (js "remote: Permission denied") |}, fs)
    else (exit_0, fs))
    quiet_world.

(** * Vocabulary of the further properties *)

(** ** Slugs and branch names *)

(** The letters and digits of a string, in order. *)
Definition alnum_part (s : jsstring) : jsstring := List.filter is_lower_alnum s.

(** The characters of a branch name. *)
Definition branch_char (c : Z) : Prop :=
  is_lower_alnum c = true ∨ c = hyphen ∨ c = slash.

(** ** Kinds of events *)

(** A process whose command the deny list lets through, or no process at all. *)
Definition allowed_spawn (ev : event) : Prop :=
  match ev with Spawn cmd _ => is_forbidden cmd = false | _ => True end.

(** A process that the deny list lets through and that runs in [repoDir],
    or that is [cloneCmd] run in [workRoot]; or no process at all. *)
Definition spawn_within (workRoot repoDir cloneCmd : jsstring) (ev : event) : Prop :=
  match ev with
  | Spawn cmd cwd =>
      is_forbidden cmd = false ∧ (cwd = repoDir ∨ (cwd = workRoot ∧ cmd = cloneCmd))
  | _ => True
  end.

(** Any way of not returning. *)
Definition any_abrupt (x : abrupt) : Prop := True.

(** The texts sent to the tracker are at most [limit] code units long. *)
Definition body_within (limit : Z) (ev : event) : Prop :=
  match ev with
  | CreateComment _ body | CreatePull _ _ _ body => Z.of_nat (length body) <= limit
  | _ => True
  end.

(** A request for [model] whose input starts with [history]; or no request. *)
Definition carries (model : jsstring) (history : list message) (ev : event) : Prop :=
  match ev with
  | Fetch m input => m = model ∧ history `prefix_of` input
  | _ => True
  end.

(** The first two turns of every conversation. *)
Definition opens_with_prompts (ev : event) : Prop :=
  match ev with
  | Fetch _ input =>
      ∃ user rest,
        input = {| role := js "system"; name := None; content := system_prompt |} ::
                {| role := js "user"; name := None; content := user |} :: rest
  | _ => True
  end.

(** ** Polling *)

(** What a polling cycle that finds nothing to do leaves in the trace. *)
Definition idle_cycle (e : env) : list event :=
  [ListIssues; ConsoleLog (js "No matching issues. Sleeping...");
   Sleep (POLL_INTERVAL_SECONDS e * 1000)].

(** The tracker answers every query, and only with pull requests. *)
Definition only_pull_requests (w : world) : Prop :=
  ∀ t, ∃ issues, w_list_issues w t = Some issues ∧
                 Forall (λ i, i_pull_request i = true) issues.

(** The first line the process prints. *)
Definition started_line (e : env) : event :=
  ConsoleLog (js "Agent started. Watching " ++ GITHUB_OWNER e ++ js "/" ++
              GITHUB_REPO e ++ js " label=" ++ ISSUE_LABEL e).

(** [m] leaves the files and the trace as they are. *)
Definition stateless {A} (m : M A) : Prop := ∀ st, (m st).2 = st.

(** ** A checkout with lock files *)

(** A checkout of issue 7 that holds both a Bun lock file and a package
    description. *)
Definition bun_checkout_state : state :=
  {| st_fs := {[ [js "work"] := Dir; [js "work"; js "repo-7"] := Dir;
                 [js "work"; js "repo-7"; js "bun.lockb"] := File [];
                 [js "work"; js "repo-7"; js "package.json"] := File [123; 125] ]};
     st_trace := [] |}.

(** ** Tool calls *)

(** A call of the tool [n] with the properties [props]. *)
Definition call (n : string) (props : gmap jsstring jsval) : tool_call :=
  {| tc_name := js n; tc_args := ArgsObject props |}.

(** ** The life of an issue *)

(** The line printed when the work on an issue starts. *)
Definition working_line (issue : issue_data) : event :=
  ConsoleLog (js "Working on issue #" ++ Number_toString (i_number issue) ++
              js ": " ++ issueTitle_of issue).

(** The tracker answers every query with the same list. *)
Definition always_lists (w : world) (issues : list issue_data) : Prop :=
  ∀ t, w_list_issues w t = Some issues.

(** Issue 7 stays open, the clone creates the checkout, every other command
    succeeds in silence, the service has nothing to ask for. *)
Definition same_issue_world : world :=
  with_spawn (λ _ cmd _ fs,
    if startsWith cmd (js "git clone ")
    then (exit_0, <[ [js "work"; js "repo-7"] := Dir ]> fs)
    else (exit_0, fs))
    (with_issues [issue_7] quiet_world).

(** [ev] is the line printed when the work on [issue] starts. *)
Definition is_working_line (issue : issue_data) (ev : event) : bool :=
  match ev with
  | ConsoleLog msg =>
      bool_decide (msg = js "Working on issue #" ++ Number_toString (i_number issue) ++
                         js ": " ++ issueTitle_of issue)
  | _ => false
  end.

(** ** Quoting *)

Definition backslash : Z := 92.

Definition double_quote : Z := 34.

(** ** Bytes *)

(** A byte. *)
Definition is_byte (b : Z) : Prop := 0 <= b <= 255.

(** * Properties *)

(** ** The runtime on examples *)

Lemma trim_example : trim (js "  git status  " ++ nl) = js "git status".
Proof. by vm_compute. Qed.

Lemma utf8_encode_example :
  utf8_encode [0x48; 0xE9; 0x20AC; 0xD83D; 0xDE00]
  = [0x48; 0xC3; 0xA9; 0xE2; 0x82; 0xAC; 0xF0; 0x9F; 0x98; 0x80].
Proof. by vm_compute. Qed.

Lemma utf8_decode_ill_formed :
  utf8_decode [0xE2; 0x82; 0x41; 0xC0; 0x80]
  = [replacement_char; 0x41; replacement_char; replacement_char].
Proof. by vm_compute. Qed.

Lemma path_join_examples :
  path_join (js "/work/repo-7") (js "src//./app.ts") = js "/work/repo-7/src/app.ts" ∧
  path_join (js "/work/repo-7") (js "a/../b/") = js "/work/repo-7/b/" ∧
  path_join (js "/work/repo-7") (js "") = js "/work/repo-7" ∧
  path_join (js "work") (js "../../x") = js "../x".
Proof. by vm_compute. Qed.

(** Nothing confines a path to the checkout. *)
Lemma path_join_leaves_the_checkout :
  path_join (js "/work/repo-7") (js "../../etc/passwd") = js "/etc/passwd".
Proof. by vm_compute. Qed.

Lemma path_dirname_examples :
  path_dirname (js "/work/repo-7/src/app.ts") = js "/work/repo-7/src" ∧
  path_dirname (js "/work/repo-7/src/") = js "/work/repo-7" ∧
  path_dirname (js "/a") = js "/" ∧
  path_dirname (js "a") = js ".".
Proof. by vm_compute. Qed.

Lemma JSON_stringify_example :
  JSON_stringify
    (JObject [(js "cmd", JString (js "echo " ++ [34] ++ js "hi" ++ [34] ++ nl));
              (js "ok", JBool false); (js "code", JNumber 126);
              (js "items", JArray [JNull; JNumber (-1)])])
  = [123] ++ quote (js "cmd") ++ js ":" ++
    [34] ++ js "echo " ++ [92; 34] ++ js "hi" ++ [92; 34; 92; 110; 34] ++ js "," ++
    quote (js "ok") ++ js ":false," ++ quote (js "code") ++ js ":126," ++
    quote (js "items") ++ js ":[null,-1]}".
Proof. by vm_compute. Qed.

Lemma mkdir_then_readdir :
  match mkdirSync true [] ∅ (js "/work/repo-7/src") with
  | inr fs => readdirSync [] fs (js "/work/repo-7") = inr [(js "src", true)]
  | inl _ => False
  end.
Proof. by vm_compute. Qed.

(** A directory is listed by name. *)
Lemma readdir_example :
  readdirSync []
    {[ [js "work"] := Dir; [js "work"; js "src"] := Dir;
       [js "work"; js "b.txt"] := File []; [js "work"; js "README.md"] := File [];
       [js "work"; js "a.txt"] := File []; [js "work"; js "src"; js "x.ts"] := File [] ]}
    (js "/work")
  = inr [(js "README.md", false); (js "a.txt", false); (js "b.txt", false);
         (js "src", true)].
Proof. by vm_compute. Qed.

(** A file in the way of [mkdirSync]: an error for Node, nothing for Bun. *)
Lemma mkdir_over_file_example :
  let fs : filesystem := {[ [js "work"] := File [] ]} in
  mkdirSync true [] fs (js "/work") = inl EEXIST ∧
  mkdirSync false [] fs (js "/work") = inr fs ∧
  mkdirSync true [] fs (js "/work/repo-7") = inl ENOTDIR ∧
  mkdirSync false [] fs (js "/work/repo-7") = inl ENOTDIR.
Proof. by vm_compute. Qed.

(** Below a regular file there is nothing to find. *)
Lemma below_a_file_example :
  let fs : filesystem := {[ [js "work"] := Dir; [js "work"; js "README.md"] := File [] ]} in
  readFileSync [] fs (js "/work/README.md/x") = inl ENOTDIR ∧
  readFileSync [] fs (js "/work/docs/x") = inl ENOENT ∧
  readdirSync [] fs (js "/work/README.md/docs") = inl ENOTDIR ∧
  writeFileSync [] fs (js "/work/README.md/x/y") [] = inl ENOTDIR ∧
  writeFileSync [] fs (js "/work/docs/x") [] = inl ENOENT ∧
  existsSync [] fs (js "/work/README.md/x") = false.
Proof. by vm_compute. Qed.

(** A path with a NUL character is refused by every call. *)
Lemma nul_path_example :
  let p := js "/work/a" ++ [0] ++ js "b.txt" in
  readFileSync [] ∅ p = inl ERR_INVALID_ARG_VALUE ∧
  readdirSync [] ∅ p = inl ERR_INVALID_ARG_VALUE ∧
  mkdirSync true [] ∅ p = inl ERR_INVALID_ARG_VALUE ∧
  writeFileSync [] ∅ p [] = inl ERR_INVALID_ARG_VALUE ∧
  rmSync [] ∅ p = inl ERR_INVALID_ARG_VALUE ∧
  existsSync [] ∅ p = false ∧
  fs_exception ERR_INVALID_ARG_VALUE p = TypeError.
Proof. by vm_compute. Qed.

(** ** Strings *)

Lemma startsWith_spec (s f : jsstring) :
  startsWith s f = true ↔ ∃ b, s = f ++ b.
Proof.
  revert s. induction f as [|a f IH]; intros s; simpl.
  - split; [eauto | by destruct s].
  - destruct s as [|c s]; simpl.
    + split; [done | by intros [b Hb]].
    + rewrite andb_true_iff, Z.eqb_eq, IH. split.
      * intros [-> [b ->]]. eauto.
      * intros [b [= -> ->]]. eauto.
Qed.

Lemma includes_spec (s f : jsstring) :
  includes s f = true ↔ ∃ a b, s = a ++ f ++ b.
Proof.
  induction s as [|c s IH]; cbn [includes].
  - rewrite orb_false_r, startsWith_spec. split.
    + intros [b Hb]. by exists [], b.
    + intros [a [b Hab]]. symmetry in Hab.
      apply app_eq_nil in Hab as [-> Hab]. apply app_eq_nil in Hab as [-> ->].
      by exists [].
  - rewrite orb_true_iff, startsWith_spec, IH. split.
    + intros [[b Hb] | [a [b ->]]]; [by exists [], b | by exists (c :: a), b].
    + intros [[|x a] [b Hab]]; simpl in Hab.
      * left; eauto.
      * right. injection Hab as -> ->. eauto.
Qed.

(** ** [slug] *)

Lemma alnum_not_hyphen c : is_lower_alnum c = true → c ≠ hyphen.
Proof.
  unfold is_lower_alnum, in_range, hyphen. intros H ->. by vm_compute in H.
Qed.

(** After the first replacement only slug characters are left, and no two
    hyphens stand side by side. *)
Lemma replace_runs_chars b s : Forall slug_char (replace_runs b s).
Proof.
  revert b. induction s as [|c t IH]; intros b; simpl; [constructor|].
  destruct (is_lower_alnum c) eqn:Hc.
  - constructor; [by left | apply IH].
  - destruct b; [apply IH | constructor; [by right | apply IH]].
Qed.

Lemma replace_runs_in_run_head s : head (replace_runs true s) ≠ Some hyphen.
Proof.
  induction s as [|c t IH]; simpl; [done|].
  destruct (is_lower_alnum c) eqn:Hc; [|done].
  simpl. intros [= ->]. by apply alnum_not_hyphen in Hc.
Qed.

Lemma single_hyphens_cons c s :
  single_hyphens s → (c = hyphen → head s ≠ Some hyphen) → single_hyphens (c :: s).
Proof.
  intros Hs Hc [|x a] b; simpl.
  - intros [= -> ->]. by apply Hc.
  - intros [= -> ->]. by eapply Hs.
Qed.

Lemma replace_runs_single b s : single_hyphens (replace_runs b s).
Proof.
  revert b. induction s as [|c t IH]; intros b; simpl.
  - intros [|??] ?; done.
  - destruct (is_lower_alnum c) eqn:Hc.
    + apply single_hyphens_cons; [apply IH|]. intros ->. by apply alnum_not_hyphen in Hc.
    + destruct b; [apply IH|].
      apply single_hyphens_cons; [apply IH|]. intros _. apply replace_runs_in_run_head.
Qed.

Lemma single_hyphens_suffix s1 s2 : single_hyphens (s1 ++ s2) → single_hyphens s2.
Proof. intros H a b ->. apply (H (s1 ++ a) b). by rewrite <- (assoc_L (++)). Qed.

Lemma single_hyphens_prefix s1 s2 : single_hyphens (s1 ++ s2) → single_hyphens s1.
Proof. intros H a b ->. apply (H a (b ++ s2)). by rewrite <- !(assoc_L (++)). Qed.

Lemma single_hyphens_reverse s : single_hyphens s → single_hyphens (reverse s).
Proof.
  intros H a b Hr. apply (H (reverse b) (reverse a)).
  rewrite <- (reverse_involutive s), Hr, !reverse_app. simpl.
  by rewrite <- (assoc_L (++)).
Qed.

(** Removing a hyphen at an end keeps a contiguous part of the string. *)
Lemma strip_first_hyphen_suffix s : ∃ p, s = p ++ strip_first_hyphen s.
Proof.
  destruct s as [|c t]; simpl; [by exists []|].
  destruct (c =? hyphen); [by exists [c] | by exists []].
Qed.

Lemma strip_last_hyphen_prefix s : ∃ q, s = strip_last_hyphen s ++ q.
Proof.
  unfold strip_last_hyphen.
  destruct (strip_first_hyphen_suffix (reverse s)) as [p Hp].
  exists (reverse p). rewrite <- reverse_app, <- Hp. by rewrite reverse_involutive.
Qed.

Lemma strip_first_hyphen_head s :
  single_hyphens s → head (strip_first_hyphen s) ≠ Some hyphen.
Proof.
  destruct s as [|c t]; simpl; [done|]. intros Hs.
  destruct (c =? hyphen) eqn:Hc.
  - apply Z.eqb_eq in Hc as ->. destruct t as [|d t]; simpl; [done|].
    intros [= ->]. by apply (Hs [] t).
  - simpl. intros [= ->]. by rewrite Z.eqb_refl in Hc.
Qed.

Lemma head_prefix (s q : jsstring) c : head s = Some c → head (s ++ q) = Some c.
Proof. by destruct s. Qed.

Lemma slug_example : slug (js "Fix: login bug!!") = js "fix-login-bug".
Proof. by vm_compute. Qed.

(** What holds of [slug] on every input. *)
Lemma slug_shape (s : jsstring) :
  Forall slug_char (slug s) ∧ single_hyphens (slug s) ∧
  head (slug s) ≠ Some hyphen ∧ (length (slug s) ≤ 40)%nat.
Proof.
  unfold slug, slice0, strip_edge_hyphens.
  set (r := replace_runs false (toLowerCase s)).
  destruct (strip_first_hyphen_suffix r) as [p Hp].
  destruct (strip_last_hyphen_prefix (strip_first_hyphen r)) as [q Hq].
  set (u := strip_last_hyphen (strip_first_hyphen r)) in *.
  assert (Hr1 : Forall slug_char r) by apply replace_runs_chars.
  assert (Hr2 : single_hyphens r) by apply replace_runs_single.
  assert (Hu1 : Forall slug_char u).
  { rewrite Hp, Hq in Hr1. apply Forall_app in Hr1 as [_ Hr1].
    by apply Forall_app in Hr1 as [Hr1 _]. }
  assert (Hu2 : single_hyphens u).
  { rewrite Hp, Hq in Hr2. apply single_hyphens_suffix in Hr2.
    by apply single_hyphens_prefix in Hr2. }
  assert (Hu3 : head u ≠ Some hyphen).
  { intros Hh. apply (strip_first_hyphen_head r Hr2).
    rewrite Hq. by apply head_prefix. }
  split_and!.
  - by apply Forall_take.
  - rewrite <- (take_drop (Z.to_nat slug_cap) u) in Hu2.
    by apply single_hyphens_prefix in Hu2.
  - intros Hh. apply Hu3. rewrite <- (take_drop (Z.to_nat slug_cap) u).
    by apply head_prefix.
  - rewrite length_take. unfold slug_cap. lia.
Qed.

(** C8. On a long title the slug can end in a hyphen: the cut at 40 code
    units comes after the hyphens at the ends have been removed.  Here the
    40th unit of the trimmed string is the hyphen that follows "when". *)
Lemma slug_trailing_hyphen :
  slug (js "Add retry with exponential backoff when pushing")
  = js "add-retry-with-exponential-backoff-when-".
Proof. by vm_compute. Qed.

(** ** UTF-8 *)

Lemma in_range_true lo hi c : lo <= c <= hi → in_range lo hi c = true.
Proof. unfold in_range. intros. apply andb_true_iff. split; apply Z.leb_le; lia. Qed.

Lemma in_range_false lo hi c : c < lo ∨ hi < c → in_range lo hi c = false.
Proof.
  unfold in_range. intros [?|?]; apply andb_false_iff;
    [left | right]; apply Z.leb_gt; lia.
Qed.

Lemma in_range_iff lo hi c : in_range lo hi c = true ↔ lo <= c <= hi.
Proof. unfold in_range. rewrite andb_true_iff, !Z.leb_le. tauto. Qed.

Ltac ztest :=
  repeat match goal with
  | |- context [?a <? ?b] =>
      first [ rewrite (proj2 (Z.ltb_lt a b)) by (Z.div_mod_to_equations; lia)
            | rewrite (proj2 (Z.ltb_ge a b)) by (Z.div_mod_to_equations; lia) ]
  | |- context [?a =? ?b] =>
      first [ rewrite (proj2 (Z.eqb_eq a b)) by (Z.div_mod_to_equations; lia)
            | rewrite (proj2 (Z.eqb_neq a b)) by (Z.div_mod_to_equations; lia) ]
  | |- context [in_range ?lo ?hi ?c] =>
      first [ rewrite (in_range_true lo hi c) by (Z.div_mod_to_equations; lia)
            | rewrite (in_range_false lo hi c) by (Z.div_mod_to_equations; lia) ]
  end.

(** The decoder reads back the encoding of one scalar value, whatever follows. *)
Lemma utf8_decode_code_point cp rest :
  0 <= cp < 0x110000 → ¬ (0xD800 <= cp <= 0xDFFF) →
  utf8_decode (utf8_of_code_point cp ++ rest)
  = utf16_of_code_point cp ++ utf8_decode rest.
Proof.
  intros Hcp Hsur. unfold utf8_of_code_point, utf16_of_code_point.
  destruct (Z.ltb_spec cp 0x80); [|destruct (Z.ltb_spec cp 0x800);
    [|destruct (Z.ltb_spec cp 0x10000)]].
  - cbn [app utf8_decode]. ztest. done.
  - cbn [app utf8_decode]. unfold is_continuation. ztest. cbn [app].
    f_equal. Z.div_mod_to_equations; lia.
  - cbn [app utf8_decode]. unfold is_continuation, second_byte_ok.
    ztest. cbn [app].
    destruct (Z.eqb_spec (224 + cp / 4096) 224);
      destruct (Z.eqb_spec (224 + cp / 4096) 237);
      try destruct (Z.eqb_spec (224 + cp / 4096) 240);
      try destruct (Z.eqb_spec (224 + cp / 4096) 244);
      ztest; try (f_equal; Z.div_mod_to_equations; lia);
      exfalso; Z.div_mod_to_equations; lia.
  - cbn [app utf8_decode]. unfold is_continuation, second_byte_ok.
    ztest.
    destruct (Z.eqb_spec (240 + cp / 262144) 224);
      destruct (Z.eqb_spec (240 + cp / 262144) 237);
      destruct (Z.eqb_spec (240 + cp / 262144) 240);
      destruct (Z.eqb_spec (240 + cp / 262144) 244);
      ztest; try (exfalso; Z.div_mod_to_equations; lia);
      (replace ((240 + cp / 262144 - 240) * 262144 +
                (128 + cp / 4096 mod 64 - 128) * 4096 +
                (128 + cp / 64 mod 64 - 128) * 64 + (128 + cp mod 64 - 128))
         with cp by (Z.div_mod_to_equations; lia));
      unfold utf16_of_code_point; ztest; done.
Qed.

Lemma utf16_of_pair c d :
  is_high_surrogate c = true → is_low_surrogate d = true →
  utf16_of_code_point (code_point_of_pair c d) = [c; d].
Proof.
  unfold is_high_surrogate, is_low_surrogate. rewrite !in_range_iff.
  intros Hc Hd. unfold utf16_of_code_point, code_point_of_pair.
  ztest. f_equal; [|f_equal]; Z.div_mod_to_equations; lia.
Qed.

Lemma code_point_of_pair_range c d :
  is_high_surrogate c = true → is_low_surrogate d = true →
  0x10000 <= code_point_of_pair c d < 0x110000.
Proof.
  unfold is_high_surrogate, is_low_surrogate. rewrite !in_range_iff.
  unfold code_point_of_pair. lia.
Qed.

Lemma utf8_roundtrip_bounded (n : nat) (s : jsstring) :
  (length s ≤ n)%nat → isWellFormed s = true → utf8_decode (utf8_encode s) = s.
Proof.
  revert s. induction n as [|n IH]; intros s Hlen Hwf.
  { destruct s; [done | simpl in Hlen; lia]. }
  destruct s as [|c t]; [done|].
  cbn [isWellFormed utf8_encode] in *.
  apply andb_true_iff in Hwf as [Hc Hwf]. apply in_range_iff in Hc.
  destruct (is_high_surrogate c) eqn:Hhi.
  - destruct t as [|d t']; [done|]. apply andb_true_iff in Hwf as [Hd Hwf].
    rewrite Hd. pose proof (code_point_of_pair_range c d Hhi Hd).
    rewrite utf8_decode_code_point by lia.
    rewrite utf16_of_pair by done. simpl. do 2 f_equal.
    apply IH; [simpl in Hlen; lia | done].
  - apply andb_true_iff in Hwf as [Hlo Hwf]. apply negb_true_iff in Hlo.
    rewrite Hlo. unfold is_high_surrogate, is_low_surrogate in *.
    rewrite utf8_decode_code_point.
    + unfold utf16_of_code_point. ztest. simpl. f_equal.
      apply IH; [simpl in Hlen; lia | done].
    + lia.
    + unfold in_range in *. lia.
Qed.

(** Reading back what was written: the decoder undoes the encoder on every
    well-formed string. *)
Lemma utf8_roundtrip (s : jsstring) :
  isWellFormed s = true → utf8_decode (utf8_encode s) = s.
Proof. by apply (utf8_roundtrip_bounded (length s)). Qed.

(** A lone surrogate does not survive. *)
Lemma utf8_lone_surrogate :
  utf8_decode (utf8_encode [0xD800]) = [replacement_char].
Proof. by vm_compute. Qed.

(** ** The monad *)

Lemma bind_Return {A B} (m : M A) (f : A → M B) st a st' :
  m st = (Return a, st') → (m ≫= f) st = f a st'.
Proof. unfold mbind, M_bind. by intros ->. Qed.

Lemma bind_Throw {A B} (m : M A) (f : A → M B) st e st' :
  m st = (Throw e, st') → (m ≫= f) st = (Throw e, st').
Proof. unfold mbind, M_bind. by intros ->. Qed.

Lemma bind_Exit {A B} (m : M A) (f : A → M B) st c st' :
  m st = (Exit c, st') → (m ≫= f) st = (Exit c, st').
Proof. unfold mbind, M_bind. by intros ->. Qed.

(** The primitive operations in front of a bind. *)
Lemma bind_mret {A B} (a : A) (f : A → M B) st : (mret a ≫= f) st = f a st.
Proof. done. Qed.

Lemma bind_throw {A B} (e : error) (f : A → M B) st :
  (throw e ≫= f) st = (Throw e, st).
Proof. done. Qed.

Lemma bind_get_fs {B} (f : filesystem → M B) st :
  (get_fs ≫= f) st = f (st_fs st) st.
Proof. done. Qed.

Lemma bind_put_fs {B} fs (f : unit → M B) st :
  (put_fs fs ≫= f) st = f tt {| st_fs := fs; st_trace := st_trace st |}.
Proof. done. Qed.

Lemma bind_emit {B} ev (f : unit → M B) st :
  (emit ev ≫= f) st = f tt {| st_fs := st_fs st; st_trace := st_trace st ++ [ev] |}.
Proof. done. Qed.

Lemma bind_lift_fs_inr {A B} p (a : A) (f : A → M B) st :
  (lift_fs p (inr a) ≫= f) st = f a st.
Proof. done. Qed.

Lemma bind_lift_fs_inl {A B} p c (f : A → M B) st :
  (lift_fs p (inl c) ≫= f) st = (Throw (fs_exception c p), st).
Proof. done. Qed.

Lemma bind_assoc {A B C} (m : M A) (f : A → M B) (g : B → M C) st :
  ((m ≫= f) ≫= g) st = (m ≫= λ a, f a ≫= g) st.
Proof. unfold mbind, M_bind. by destruct (m st) as [[a|e|c] st']. Qed.

Ltac msimpl :=
  repeat first
    [ rewrite bind_mret | rewrite bind_throw | rewrite bind_get_fs
    | rewrite bind_put_fs | rewrite bind_emit | rewrite bind_lift_fs_inr
    | rewrite bind_lift_fs_inl | rewrite bind_assoc ].

Lemma bind_tail_id {A} (m : M A) (f : A → M A) st :
  (∀ a s, f a s = (Return a, s)) → (m ≫= f) st = m st.
Proof.
  intros Hf. unfold mbind, M_bind. destruct (m st) as [[a|e|c] st']; auto.
Qed.

Lemma returns_inv {A} (m : M A) st :
  returns m st = true → ∃ a, m st = (Return a, state_after m st).
Proof.
  unfold returns, state_after. destruct (m st) as [[a|?|?] st']; [|done..].
  intros _. by exists a.
Qed.

(** ** The file system *)

Lemma stat_insert_eq (fs : filesystem) segs n :
  segs ≠ [] → stat (<[segs := n]> fs) segs = Some n.
Proof. destruct segs; [done|]. intros _. simpl. apply lookup_insert_eq. Qed.

Lemma stat_insert_ne (fs : filesystem) segs d n :
  d ≠ segs → stat (<[segs := n]> fs) d = stat fs d.
Proof. destruct d; [done|]. intros ?. simpl. by apply lookup_insert_ne. Qed.

(** Only a path without NUL characters names something. *)
Lemma resolve_no_nul cwd p x : resolve cwd p = Some x → has_nul p = false.
Proof. unfold resolve. destruct p; [done|]. by destruct (has_nul _). Qed.

(** A write that succeeds has put the encoded content at a path that is not
    the root and did not hold a directory. *)
Lemma writeFileSync_inv cwd fs p content fs' :
  writeFileSync cwd fs p content = inr fs' →
  ∃ segs, has_nul p = false ∧ resolve cwd p = Some (segs, false) ∧ segs ≠ [] ∧
          stat fs segs ≠ Some Dir ∧
          fs' = <[segs := File (utf8_encode content)]> fs.
Proof.
  unfold writeFileSync. destruct (has_nul p); [done|].
  destruct (resolve cwd p) as [[segs trailing]|]; [|done].
  intros H. exists segs. split; [done|].
  assert (segs ≠ []) by (intros ->; done).
  destruct (stat fs segs) as [[bytes|]|] eqn:Hs; [| done |].
  - destruct trailing; [done|]. by injection H as <-.
  - destruct (stat fs (parent segs)) as [[?|]|]; [done| |done].
    destruct trailing; [done|]. by injection H as <-.
Qed.

Lemma readFileSync_after_write cwd fs p content fs' :
  writeFileSync cwd fs p content = inr fs' →
  readFileSync cwd fs' p = inr (utf8_decode (utf8_encode content)).
Proof.
  intros (segs & Hnul & Hres & Hne & _ & ->)%writeFileSync_inv.
  unfold readFileSync. rewrite Hnul, Hres. by rewrite stat_insert_eq.
Qed.

Lemma writeFileSync_again cwd fs p c1 c2 fs' :
  writeFileSync cwd fs p c1 = inr fs' →
  ∃ fs'', writeFileSync cwd fs' p c2 = inr fs''.
Proof.
  intros (segs & Hnul & Hres & Hne & _ & ->)%writeFileSync_inv.
  unfold writeFileSync. rewrite Hnul, Hres. rewrite stat_insert_eq by done. eauto.
Qed.

(** After [mkdir -p] the directory is there; when it was there already,
    nothing changes. *)
Lemma mkdirp_is_dir fs rsegs fs' :
  mkdirp fs rsegs = inr fs' → stat fs' (reverse rsegs) = Some Dir.
Proof.
  revert fs'. induction rsegs as [|seg rparent IH]; intros fs'; cbn [mkdirp].
  - done.
  - destruct (stat fs (reverse (seg :: rparent))) as [[?|]|] eqn:Hs; [done| |].
    + by intros [= <-].
    + destruct (mkdirp fs rparent) as [|fs1]; [done|]. intros [= <-].
      apply stat_insert_eq. rewrite reverse_cons. by destruct (reverse rparent).
Qed.

Lemma mkdirp_noop fs rsegs :
  stat fs (reverse rsegs) = Some Dir → mkdirp fs rsegs = inr fs.
Proof. intros H. destruct rsegs; cbn [mkdirp]; by rewrite H. Qed.

(** Once a file has been written, its directory can be made again and the
    file written again. *)
Lemma mkdirSync_then_write_again over_file cwd fs d p c1 c2 fs1 fs2 :
  mkdirSync over_file cwd fs d = inr fs1 →
  writeFileSync cwd fs1 p c1 = inr fs2 →
  mkdirSync over_file cwd fs2 d = inr fs2 ∧
  writeFileSync cwd fs2 p c2 =
    inr (<[default [] (fst <$> resolve cwd p) := File (utf8_encode c2)]> fs2).
Proof.
  unfold mkdirSync. destruct (has_nul d); [done|].
  destruct (resolve cwd d) as [[dsegs ?]|] eqn:Hd; [|done].
  intros Hmk Hw.
  pose proof Hw as (segs & Hnul & Hres & Hne & Hnd & ->)%writeFileSync_inv.
  split.
  - assert (Hmade : (∃ bytes, stat fs dsegs = Some (File bytes) ∧ fs1 = fs) ∨
                    stat fs1 dsegs = Some Dir).
    { destruct (stat fs dsegs) as [[bytes|]|] eqn:Hs.
      - left. destruct over_file; [done|]. injection Hmk as <-. eauto.
      - right. apply mkdirp_is_dir in Hmk. by rewrite reverse_involutive in Hmk.
      - right. apply mkdirp_is_dir in Hmk. by rewrite reverse_involutive in Hmk. }
    destruct Hmade as [(bytes & Hs & ->) | Hdir].
    + destruct over_file; [by rewrite Hs in Hmk|].
      destruct (decide (dsegs = segs)) as [->|Hother].
      * by rewrite stat_insert_eq.
      * by rewrite stat_insert_ne, Hs.
    + rewrite stat_insert_ne by (intros ->; by rewrite Hdir in Hnd). rewrite Hdir.
      apply mkdirp_noop. rewrite reverse_involutive.
      rewrite stat_insert_ne; [done|]. intros ->. by rewrite Hdir in Hnd.
  - unfold writeFileSync. rewrite Hnul, Hres. simpl. by rewrite stat_insert_eq.
Qed.

(** ** [safeRun] *)

(** The deny list matches exactly the commands that contain one of its
    strings. *)
Lemma is_forbidden_spec cmd :
  is_forbidden cmd = true ↔ ∃ f a b, f ∈ forbidden ∧ cmd = a ++ f ++ b.
Proof.
  unfold is_forbidden. rewrite existsb_exists. split.
  - intros (f & Hf & (a & b & ->)%includes_spec). exists f, a, b.
    by rewrite list_elem_of_In.
  - intros (f & a & b & Hf & ->). exists f. rewrite <- list_elem_of_In.
    split; [done|]. apply includes_spec. eauto.
Qed.

(** The three ways through [safeRun]: refused by the deny list without a
    process, refused by [spawnSync] with a [TypeError], or spawned. *)
Lemma safeRun_cases w cmd cwd st :
  (is_forbidden cmd = true ∧
   safeRun w cmd cwd st =
     (Return {| ok := false; stdout := [];
                stderr := js "Forbidden command pattern: " ++ cmd; code := 126 |}, st)) ∨
  (is_forbidden cmd = false ∧ invalid_spawn_args cmd cwd = true ∧
   safeRun w cmd cwd st = (Throw TypeError, st)) ∨
  (is_forbidden cmd = false ∧ invalid_spawn_args cmd cwd = false ∧
   ∃ p fs',
     w_spawn w (st_trace st) cmd cwd (st_fs st) = (p, fs') ∧
     safeRun w cmd cwd st =
       (Return {| ok := bool_decide (p_status p = Some 0);
                  stdout := default [] (p_stdout p);
                  stderr := default [] (p_stderr p);
                  code := default 1 (p_status p) |},
        {| st_fs := fs'; st_trace := st_trace st ++ [Spawn cmd cwd] |})).
Proof.
  unfold safeRun. destruct (is_forbidden cmd); [by left | right].
  unfold mbind, M_bind, spawnSync.
  destruct (invalid_spawn_args cmd cwd); [by left | right].
  split_and!; [done..|].
  destruct (w_spawn w (st_trace st) cmd cwd (st_fs st)) as [p fs'] eqn:Hs.
  by exists p, fs'.
Qed.

Lemma safeRun_allowed w cmd cwd st :
  is_forbidden cmd = false → invalid_spawn_args cmd cwd = false →
  ∃ r fs', safeRun w cmd cwd st
           = (Return r, {| st_fs := fs'; st_trace := st_trace st ++ [Spawn cmd cwd] |}).
Proof.
  intros Hcmd Hargs.
  destruct (safeRun_cases w cmd cwd st)
    as [[? _] | [(_ & ? & _) | (_ & _ & p & fs' & _ & Hr)]]; [congruence.. | eauto].
Qed.

(** [safeRun] returns unless [spawnSync] refuses its arguments. *)
Lemma safeRun_returns w cmd cwd st :
  refused_by_spawnSync cmd cwd = false →
  ∃ r, safeRun w cmd cwd st = (Return r, state_after (safeRun w cmd cwd) st).
Proof.
  unfold state_after, refused_by_spawnSync. intros Href.
  destruct (safeRun_cases w cmd cwd st)
    as [[_ ->] | [(Hf & Hi & _) | (_ & _ & p & fs' & _ & ->)]]; [eauto | | eauto].
  by rewrite Hf, Hi in Href.
Qed.

Lemma safeRun_refused w cmd cwd st :
  refused_by_spawnSync cmd cwd = true → safeRun w cmd cwd st = (Throw TypeError, st).
Proof.
  unfold refused_by_spawnSync. intros [Hf Hi]%andb_true_iff. apply negb_true_iff in Hf.
  destruct (safeRun_cases w cmd cwd st)
    as [[? _] | [(_ & _ & Hr) | (_ & ? & _)]]; [congruence | done | congruence].
Qed.

(** NUL characters in the parts of a string. *)
Lemma has_nul_app s1 s2 : has_nul (s1 ++ s2) = has_nul s1 || has_nul s2.
Proof. apply existsb_app. Qed.

(** What [spawnSync] accepts: a command that is not empty, and no NUL
    character in the command or the directory. *)
Lemma invalid_spawn_args_false cmd cwd :
  invalid_spawn_args cmd cwd = false ↔
  cmd ≠ [] ∧ has_nul cmd = false ∧ has_nul cwd = false.
Proof.
  unfold invalid_spawn_args. destruct cmd as [|c cmd].
  - split; [done | by intros [? _]].
  - rewrite orb_false_iff. split; [by intros [] | by intros (_ & ? & ?)].
Qed.

Lemma is_forbidden_status : is_forbidden (js "git status --porcelain") = false.
Proof. by vm_compute. Qed.

Lemma is_forbidden_add : is_forbidden (js "git add -A") = false.
Proof. by vm_compute. Qed.

(** C3. A command that contains one of the strings of the deny list is
    answered by [safeRun] with [ok = false], the exit code 126 and an empty
    [stdout]; the state is the one before the call, so no process has been
    spawned. *)
Theorem deny_listed_command_is_not_spawned w cmd cwd st f a b :
  f ∈ forbidden → cmd = a ++ f ++ b →
  ∃ r, safeRun w cmd cwd st = (Return r, st) ∧
       ok r = false ∧ code r = 126 ∧ code r ≠ 0 ∧ stdout r = [].
Proof.
  intros Hf Hcmd.
  assert (is_forbidden cmd = true) by (apply is_forbidden_spec; eauto 10).
  destruct (safeRun_cases w cmd cwd st) as [[_ ->] | [(? & _) | (? & _)]];
    [|congruence..].
  eexists. split; [done|]. by cbn.
Qed.

Lemma deny_listed_command_is_not_spawned_witness :
  ∃ r, safeRun quiet_world (js "sudo rm -rf / --no-preserve-root") (js "/work/repo-7")
         empty_state = (Return r, empty_state) ∧
       ok r = false ∧ code r = 126 ∧ code r ≠ 0 ∧ stdout r = [].
Proof.
  apply (deny_listed_command_is_not_spawned quiet_world
           (js "sudo rm -rf / --no-preserve-root") (js "/work/repo-7") empty_state
           (js "rm -rf /") (js "sudo ") (js " --no-preserve-root")).
  - vm_compute. left.
  - vm_compute. reflexivity.
Defined.

(** ** The tools *)

(** Settles the comparisons between the names of the tools. *)
Ltac tool_names :=
  repeat match goal with
  | |- context [decide (js ?a = js ?b)] =>
      destruct (decide (js a = js b)) as [Hname|Hname];
      [try (by vm_compute in Hname) | try (by exfalso; apply Hname)];
      clear Hname
  end.

(** What [tool_result] is for each name. *)
Lemma tool_result_unknown w repoDir tc st :
  no_tool_name (tc_name tc) → tool_result w repoDir tc st = (Return JNull, st).
Proof.
  intros (H1 & H2 & H3 & H4). unfold tool_result.
  repeat (case_decide; [done|]). reflexivity.
Qed.

Lemma tool_result_list_files w repoDir args st :
  tool_result w repoDir {| tc_name := js "list_files"; tc_args := args |} st
  = list_files_block w repoDir args st.
Proof.
  unfold tool_result. cbn [tc_name tc_args]. tool_names.
  by rewrite bind_tail_id.
Qed.

Lemma tool_result_list_files_eq w repoDir props dir st :
  props !! js "dir" = Some (VString dir) →
  tool_result w repoDir {| tc_name := js "list_files"; tc_args := ArgsObject props |} st
  = match readdirSync (w_cwd w) (st_fs st) (path_join repoDir dir) with
    | inl c => (Throw (fs_exception c (path_join repoDir dir)), st)
    | inr entries =>
        (Return (JObject [(js "dir", JString dir);
                          (js "items",
                           JArray (map (λ d : jsstring * bool,
                                          JObject [(js "name", JString d.1);
                                                   (js "type", JString (if d.2 then js "dir" else js "file"))])
                                       entries))]), st)
    end.
Proof.
  intros Hd. rewrite tool_result_list_files. unfold list_files_block, prop.
  rewrite Hd. simpl default. msimpl. simpl nullish. simpl String_of.
  by destruct (readdirSync _ _ _); msimpl.
Qed.

Lemma tool_result_read_file w repoDir args st :
  tool_result w repoDir {| tc_name := js "read_file"; tc_args := args |} st
  = read_file_block w repoDir args st.
Proof.
  unfold tool_result. cbn [tc_name tc_args]. tool_names.
  rewrite bind_mret. by apply bind_tail_id.
Qed.

Lemma tool_result_read_file_eq w repoDir props file st :
  props !! js "file" = Some (VString file) →
  tool_result w repoDir {| tc_name := js "read_file"; tc_args := ArgsObject props |} st
  = match readFileSync (w_cwd w) (st_fs st) (path_join repoDir file) with
    | inl c => (Throw (fs_exception c (path_join repoDir file)), st)
    | inr text =>
        (Return (JObject [(js "file", JString file); (js "content", JString text)]), st)
    end.
Proof.
  intros Hf. rewrite tool_result_read_file. unfold read_file_block, prop.
  rewrite Hf. simpl default. msimpl. simpl String_of.
  by destruct (readFileSync _ _ _); msimpl.
Qed.

Lemma tool_result_write_file w repoDir args st :
  tool_result w repoDir {| tc_name := js "write_file"; tc_args := args |} st
  = write_file_block w repoDir args st.
Proof.
  unfold tool_result. cbn [tc_name tc_args]. tool_names.
  rewrite !bind_mret. by apply bind_tail_id.
Qed.

Lemma tool_result_write_file_eq w repoDir props file content st :
  props !! js "file" = Some (VString file) →
  props !! js "content" = Some (VString content) →
  tool_result w repoDir {| tc_name := js "write_file"; tc_args := ArgsObject props |} st
  = let abs := path_join repoDir file in
    match mkdirSync (w_mkdir_over_file w) (w_cwd w) (st_fs st) (path_dirname abs) with
    | inl c => (Throw (fs_exception c (path_dirname abs)), st)
    | inr fs1 =>
        match writeFileSync (w_cwd w) fs1 abs content with
        | inl c => (Throw (fs_exception c abs), {| st_fs := fs1; st_trace := st_trace st |})
        | inr fs2 =>
            (Return (JObject [(js "file", JString file);
                              (js "bytes", JNumber (byteLength w content))]),
             {| st_fs := fs2; st_trace := st_trace st |})
        end
    end.
Proof.
  intros Hf Hc. rewrite tool_result_write_file. unfold write_file_block, prop.
  rewrite Hf, Hc. simpl default. msimpl. simpl String_of. simpl nullish.
  destruct (mkdirSync _ _ _ _) as [c|fs1]; msimpl; [done|]. simpl st_fs.
  by destruct (writeFileSync _ _ _ _) as [c|fs2]; msimpl.
Qed.

Lemma tool_result_run w repoDir args st :
  tool_result w repoDir {| tc_name := js "run"; tc_args := args |} st
  = run_block w repoDir args st.
Proof.
  unfold tool_result. cbn [tc_name tc_args]. tool_names.
  rewrite !bind_mret. by apply bind_tail_id.
Qed.

Lemma lookup_write_file file content :
  ({[ js "file" := VString file; js "content" := VString content ]} : gmap jsstring jsval)
    !! js "file" = Some (VString file) ∧
  ({[ js "file" := VString file; js "content" := VString content ]} : gmap jsstring jsval)
    !! js "content" = Some (VString content).
Proof.
  split.
  - apply lookup_insert_eq.
  - rewrite lookup_insert_ne by (by vm_compute). apply lookup_singleton_eq.
Qed.

(** C6. Round trip.  When a [write_file] call for [file] with a well-formed
    string [content] succeeds, a [read_file] call for the same [file] in the
    state it leaves returns exactly [content]. *)
Theorem write_then_read_roundtrip w repoDir file content st :
  isWellFormed content = true →
  returns (tool_result w repoDir (write_file_call file content)) st = true →
  let st' := state_after (tool_result w repoDir (write_file_call file content)) st in
  tool_result w repoDir (read_file_call file) st'
  = (Return (JObject [(js "file", JString file); (js "content", JString content)]), st').
Proof.
  intros Hwf Hret st'. apply returns_inv in Hret as [r Hw]. fold st' in Hw.
  destruct (lookup_write_file file content) as [Hf Hc].
  unfold write_file_call in Hw.
  rewrite (tool_result_write_file_eq _ _ _ file content) in Hw by done.
  cbn zeta in Hw.
  destruct (mkdirSync _ _ _ _) as [|fs1]; [done|].
  destruct (writeFileSync _ _ _ _) as [|fs2] eqn:Hwr; [done|].
  injection Hw as _ <-.
  unfold read_file_call.
  rewrite (tool_result_read_file_eq _ _ _ file) by apply lookup_singleton_eq.
  cbn [st_fs]. rewrite (readFileSync_after_write _ _ _ _ _ Hwr).
  by rewrite utf8_roundtrip.
Qed.

Lemma write_then_read_roundtrip_witness :
  let st' := state_after (tool_result quiet_world (js "/work/repo-7")
                            (write_file_call (js "src/app.ts") (js "export {};"))) empty_state in
  tool_result quiet_world (js "/work/repo-7") (read_file_call (js "src/app.ts")) st'
  = (Return (JObject [(js "file", JString (js "src/app.ts"));
                      (js "content", JString (js "export {};"))]), st').
Proof.
  apply (write_then_read_roundtrip quiet_world (js "/work/repo-7") (js "src/app.ts")
           (js "export {};") empty_state); vm_compute; reflexivity.
Defined.

(** A [run] call whose arguments can be read is [safeRun] on its command in
    [repoDir], and the object built from the answer. *)
Lemma tool_result_run_eq w repoDir args st :
  args ≠ ArgsNullish →
  tool_result w repoDir {| tc_name := js "run"; tc_args := args |} st
  = (r ← safeRun w (cmd_of args) repoDir;
     mret (JObject [(js "cmd", JString (cmd_of args)); (js "ok", JBool (ok r));
                    (js "code", JNumber (code r));
                    (js "stdout", JString (slice0 12000 (stdout r)));
                    (js "stderr", JString (slice0 12000 (stderr r)))])) st.
Proof.
  intros Hargs. rewrite tool_result_run. unfold run_block, cmd_of, prop.
  by destruct args.
Qed.

(** Whatever the arguments of a [run] call hold besides [cmd], the only
    process it can start runs in [repoDir]. *)
Lemma run_spawns_in_repoDir w repoDir args st :
  let r := tool_result w repoDir {| tc_name := js "run"; tc_args := args |} st in
  st_trace r.2 = st_trace st ∨ ∃ cmd, st_trace r.2 = st_trace st ++ [Spawn cmd repoDir].
Proof.
  cbv zeta.
  assert (args = ArgsNullish ∨ args ≠ ArgsNullish) as [->|Hargs]
    by (destruct args; auto).
  { left. by rewrite tool_result_run. }
  rewrite tool_result_run_eq by done.
  destruct (safeRun_cases w (cmd_of args) repoDir st)
    as [[_ Hr] | [(_ & _ & Hr) | (_ & _ & p & fs' & _ & Hr)]].
  - left. by rewrite (bind_Return _ _ _ _ _ Hr).
  - left. by rewrite (bind_Throw _ _ _ _ _ Hr).
  - right. rewrite (bind_Return _ _ _ _ _ Hr). by eexists.
Qed.

(** C9. A [run] call that names the subdirectory "packages/api" in its
    [cwd] argument is executed in the root of the checkout, not in the
    subdirectory: the dispatch never reads [cwd]. *)
Theorem run_cwd_argument_is_ignored :
  st_trace
    (state_after
       (tool_result quiet_world (js "/work/repo-7")
          {| tc_name := js "run";
             tc_args := ArgsObject {[ js "cmd" := VString (js "npm test");
                                      js "cwd" := VString (js "packages/api") ]} |})
       empty_state)
  = [Spawn (js "npm test") (js "/work/repo-7")].
Proof. vm_compute. reflexivity. Qed.

(** ** The tool calls of one response *)

(** Applying a list of calls is applying its first part, then the rest. *)
Lemma apply_tool_calls_app w repoDir messages tcs1 tcs2 st :
  apply_tool_calls w repoDir messages (tcs1 ++ tcs2) st
  = (apply_tool_calls w repoDir messages tcs1 ≫= λ m, apply_tool_calls w repoDir m tcs2) st.
Proof.
  revert messages st. induction tcs1 as [|tc tcs1 IH]; intros messages st.
  - done.
  - cbn [app apply_tool_calls]. rewrite bind_assoc.
    destruct (apply_tool_call w repoDir messages tc st) as [[m|?|?] st1] eqn:H1.
    + rewrite !(bind_Return _ _ _ _ _ H1). apply IH.
    + by rewrite !(bind_Throw _ _ _ _ _ H1).
    + by rewrite !(bind_Exit _ _ _ _ _ H1).
Qed.

Lemma apply_tool_call_inv w repoDir messages tc st msgs' st' :
  apply_tool_call w repoDir messages tc st = (Return msgs', st') →
  ∃ r, tool_result w repoDir tc st = (Return r, st') ∧
       msgs' = messages ++ [tool_turn (tc_name tc) r].
Proof.
  unfold apply_tool_call, mbind, M_bind.
  destruct (tool_result w repoDir tc st) as [[r|?|?] st1]; [|done..].
  intros [= <- <-]. eauto.
Qed.

Lemma apply_tool_calls_turns w repoDir messages tcs st msgs' st' :
  apply_tool_calls w repoDir messages tcs st = (Return msgs', st') →
  ∃ turns, msgs' = messages ++ turns ∧
           Forall2 (λ tc m, role m = js "tool" ∧ name m = Some (tc_name tc)) tcs turns.
Proof.
  revert messages st. induction tcs as [|tc tcs IH]; intros messages st.
  - intros [= <- <-]. exists []. by rewrite (right_id_L [] (++)).
  - cbn [apply_tool_calls]. unfold mbind, M_bind.
    destruct (apply_tool_call w repoDir messages tc st) as [[m|?|?] st1] eqn:H1; [|done..].
    apply apply_tool_call_inv in H1 as (r & _ & ->).
    intros (turns & -> & Hturns)%IH.
    exists (tool_turn (tc_name tc) r :: turns). split.
    + by rewrite <- (assoc_L (++)).
    + by constructor.
Qed.



(** ** Traces *)

Section Behaves.
Context (P : event → Prop) (E : abrupt → Prop).

Lemma behaves_mret {A} (a : A) : behaves P E (mret a).
Proof. intros st. exists []. by rewrite (right_id_L [] (++)). Qed.

Lemma behaves_throw {A} e : E (Thrown e) → behaves P E (throw (A := A) e).
Proof.
  intros He st. exists []. rewrite (right_id_L [] (++)).
  split_and!; [done..|]. by intros x [= <-].
Qed.

Lemma behaves_exit {A} c : E (Exited c) → behaves P E (process_exit (A := A) c).
Proof.
  intros He st. exists []. rewrite (right_id_L [] (++)).
  split_and!; [done..|]. by intros x [= <-].
Qed.

Lemma behaves_emit ev : P ev → behaves P E (emit ev).
Proof. intros Hev st. exists [ev]. split_and!; [done| by constructor | done]. Qed.

Lemma behaves_get_fs : behaves P E get_fs.
Proof. intros st. exists []. by rewrite (right_id_L [] (++)). Qed.

Lemma behaves_put_fs fs : behaves P E (put_fs fs).
Proof. intros st. exists []. by rewrite (right_id_L [] (++)). Qed.

Lemma behaves_lift_fs {A} p (r : errno + A) :
  (∀ c, E (Thrown (FsError c p))) → E (Thrown TypeError) → behaves P E (lift_fs p r).
Proof.
  intros He Ht. destruct r as [c|a]; [|apply behaves_mret].
  apply behaves_throw. destruct c; cbn [fs_exception]; auto.
Qed.

Lemma behaves_bind {A B} (m : M A) (f : A → M B) :
  behaves P E m → (∀ a, behaves P E (f a)) → behaves P E (m ≫= f).
Proof.
  intros Hm Hf st. destruct (Hm st) as (Δ1 & Ht1 & HP1 & HE1).
  unfold mbind, M_bind. destruct (m st) as [[a|e|c] st1]; cbn in *.
  - destruct (Hf a st1) as (Δ2 & Ht2 & HP2 & HE2).
    exists (Δ1 ++ Δ2). rewrite Ht2, Ht1, (assoc_L (++)).
    split_and!; [done | by apply Forall_app | done].
  - exists Δ1. split_and!; [done..|]. intros x Hx. by apply HE1.
  - exists Δ1. split_and!; [done..|]. intros x Hx. by apply HE1.
Qed.

Lemma behaves_spawnSync w cmd cwd :
  P (Spawn cmd cwd) → E (Thrown TypeError) → behaves P E (spawnSync w cmd cwd).
Proof.
  intros Hev Ht st. unfold spawnSync. destruct (invalid_spawn_args cmd cwd).
  - exists []. rewrite (right_id_L [] (++)). split_and!; [done..|]. by intros x [= <-].
  - exists [Spawn cmd cwd].
    destruct (w_spawn w _ _ _ _). split_and!; [done| by constructor | done].
Qed.

Lemma behaves_safeRun w cmd cwd :
  P (Spawn cmd cwd) → E (Thrown TypeError) → behaves P E (safeRun w cmd cwd).
Proof.
  intros Hev Ht. unfold safeRun. destruct (is_forbidden cmd); [apply behaves_mret|].
  apply behaves_bind; [by apply behaves_spawnSync | intros; apply behaves_mret].
Qed.

Lemma behaves_fetch w model input :
  P (Fetch model input) → behaves P E (fetch_responses w model input).
Proof. intros Hev st. exists [Fetch model input]. split_and!; [done| by constructor | done]. Qed.

Lemma behaves_prop args k : E (Thrown TypeError) → behaves P E (prop args k).
Proof. intros He. destruct args; [apply behaves_mret.. | by apply behaves_throw]. Qed.
End Behaves.

Lemma behaves_weaken {A} (P Q : event → Prop) (E F : abrupt → Prop) (m : M A) :
  (∀ ev, P ev → Q ev) → (∀ x, E x → F x) → behaves P E m → behaves Q F m.
Proof.
  intros HPQ HEF Hm st. destruct (Hm st) as (Δ & Ht & HP & HE).
  exists Δ. split_and!; [done | by eapply Forall_impl | auto].
Qed.

Ltac behaves_step :=
  first
    [ apply behaves_mret
    | apply behaves_get_fs
    | apply behaves_put_fs
    | apply behaves_emit; done
    | apply behaves_safeRun; done
    | apply behaves_lift_fs; done
    | apply behaves_prop; done
    | apply behaves_throw; done
    | apply behaves_exit; done
    | apply behaves_bind; [|intros ?]
    | case_decide
    | case_match ].

Lemma behaves_die {A} (P : event → Prop) msg :
  P (ConsoleError msg) → behaves P exits_with_1 (die (A := A) msg).
Proof.
  intros HP. unfold die. apply behaves_bind; [by apply behaves_emit|].
  intros. by apply behaves_exit.
Qed.

Lemma behaves_tool_result w repoDir tc :
  behaves (λ ev, is_spawn ev = true) tool_failure (tool_result w repoDir tc).
Proof. unfold tool_result. repeat behaves_step. Qed.

Lemma behaves_apply_tool_calls w repoDir messages tcs :
  behaves (λ ev, is_spawn ev = true) tool_failure (apply_tool_calls w repoDir messages tcs).
Proof.
  revert messages. induction tcs as [|tc tcs IH]; intros messages; cbn [apply_tool_calls].
  - apply behaves_mret.
  - apply behaves_bind; [|done]. unfold apply_tool_call.
    apply behaves_bind; [apply behaves_tool_result | intros; apply behaves_mret].
Qed.

(** Counting events. *)
Lemma count_app f t1 t2 : count f (t1 ++ t2) = (count f t1 + count f t2)%nat.
Proof. unfold count. by rewrite List.filter_app, length_app. Qed.

Lemma count_none f t : Forall (λ ev, f ev = false) t → count f t = 0%nat.
Proof.
  unfold count. induction 1 as [|ev t Hev _ IH]; [done|]. cbn. by rewrite Hev.
Qed.

Lemma spawn_not_fetch t :
  Forall (λ ev, is_spawn ev = true) t → Forall (λ ev, is_fetch ev = false) t.
Proof. intros H. eapply Forall_impl; [exact H|]. by intros []. Qed.

Lemma new_events_eq {A} (m : M A) st Δ :
  st_trace (m st).2 = st_trace st ++ Δ → new_events m st = Δ.
Proof. unfold new_events. intros ->. by rewrite drop_app_length. Qed.

(** ** The conversation loop *)

(** One iteration of the loop whose response carries tool calls. *)
Lemma conversation_step w e repoDir n messages st output :
  w_fetch w (st_trace st) (OPENAI_MODEL e) messages = HttpOk output →
  toolCalls_of output ≠ [] →
  conversation w e repoDir (S n) messages st
  = (apply_tool_calls w repoDir messages (toolCalls_of output) ≫= λ messages',
       conversation w e repoDir n (messages' ++ assistant_turn (finalText_of output)))
      (after_fetch e messages st).
Proof.
  intros Hf Hne. cbn [conversation]. unfold fetch_responses.
  unfold mbind at 1, M_bind at 1. rewrite Hf.
  destruct (toolCalls_of output) as [|tc tcs] eqn:Htc; [done|].
  unfold assistant_turn. unfold mbind, M_bind.
  destruct (apply_tool_calls _ _ _ _ _) as [[m|?|?] st1]; [|done..].
  by destruct (trim (finalText_of output)); rewrite ?(right_id_L [] (++)).
Qed.



Lemma tool_failure_propagates w e repoDir n messages st output
    before tc rest msgs1 st1 err st2 :
  w_fetch w (st_trace st) (OPENAI_MODEL e) messages = HttpOk output →
  toolCalls_of output = before ++ tc :: rest →
  apply_tool_calls w repoDir messages before (after_fetch e messages st)
    = (Return msgs1, st1) →
  tool_result w repoDir tc st1 = (Throw err, st2) →
  conversation w e repoDir (S n) messages st = (Throw err, st2).
Proof.
  intros Hf Htcs Hbefore Hthrow.
  rewrite (conversation_step _ _ _ _ _ _ _ Hf) by (rewrite Htcs; by destruct before).
  rewrite Htcs. apply bind_Throw. rewrite apply_tool_calls_app.
  rewrite (bind_Return _ _ _ _ _ Hbefore). cbn [apply_tool_calls].
  apply bind_Throw. unfold apply_tool_call. by apply bind_Throw.
Qed.

(** C1, counterexample.  The service asks for a file that does not exist:
    the loop ends with the exception of [fs.readFileSync] after its first
    request, nothing is fed back to the service. *)
Lemma read_of_missing_file_ends_the_loop :
  let r := openaiLoop missing_file_world sample_env (js "/work/repo-7") 7
             (js "Fix: login bug!!") [] checkout_state in
  r.1 = Throw (FsError ENOENT (js "/work/repo-7/missing.txt")) ∧
  count is_fetch (st_trace r.2) = 1%nat ∧
  length (st_trace r.2) = 1%nat.
Proof. vm_compute. done. Qed.

(** The commands that [safeRun] passes on and [spawnSync] refuses. *)
Lemma refused_by_spawnSync_spec cmd cwd :
  refused_by_spawnSync cmd cwd = true ↔
  is_forbidden cmd = false ∧ (cmd = [] ∨ has_nul cmd = true ∨ has_nul cwd = true).
Proof.
  unfold refused_by_spawnSync, invalid_spawn_args.
  rewrite andb_true_iff, negb_true_iff. destruct cmd as [|c cmd].
  - split; [intros [? _]; auto | by intros [? _]].
  - rewrite orb_true_iff. split.
    + intros [? [?|?]]; auto.
    + intros [? [?|[?|?]]]; auto; done.
Qed.

(** The service asks for the empty command: [spawnSync] refuses it, and the
    loop ends with the [TypeError] after its first request, without having
    started a process. *)
Lemma empty_command_ends_the_loop :
  let r := conversation empty_command_world sample_env (js "/work/repo-7") max_steps []
             checkout_state in
  r.1 = Throw TypeError ∧ count is_fetch (st_trace r.2) = 1%nat ∧
  length (st_trace r.2) = 1%nat.
Proof. vm_compute. done. Qed.

(** C1, as amended.  A [read_file], [list_files] or [write_file] call whose
    file-system operation fails throws: the system error, or a [TypeError]
    when the path was refused (with a NUL character in it [read_file] and
    [list_files] throw a [TypeError]).  A [run] call whose command gets past
    the deny list and is empty or holds a NUL character throws the
    [TypeError] of [spawnSync] without starting a process.  An exception
    thrown by a tool call is not caught: it ends [conversation] in the state
    of the throw, so no turn is appended for the call, the calls after it
    are not executed and no further request is sent.  A [run] call with an
    arguments object whose command is deny-listed or accepted by [spawnSync]
    returns the object built from what [safeRun] answers: there a failure
    is data. *)
Theorem tool_failure_ends_the_loop w e repoDir :
  (∀ props file st c,
     props !! js "file" = Some (VString file) →
     readFileSync (w_cwd w) (st_fs st) (path_join repoDir file) = inl c →
     tool_result w repoDir {| tc_name := js "read_file"; tc_args := ArgsObject props |} st
     = (Throw (fs_exception c (path_join repoDir file)), st)) ∧
  (∀ props dir st c,
     props !! js "dir" = Some (VString dir) →
     readdirSync (w_cwd w) (st_fs st) (path_join repoDir dir) = inl c →
     tool_result w repoDir {| tc_name := js "list_files"; tc_args := ArgsObject props |} st
     = (Throw (fs_exception c (path_join repoDir dir)), st)) ∧
  (∀ props file content st,
     props !! js "file" = Some (VString file) →
     props !! js "content" = Some (VString content) →
     let abs := path_join repoDir file in
     let call := {| tc_name := js "write_file"; tc_args := ArgsObject props |} in
     (∀ c, mkdirSync (w_mkdir_over_file w) (w_cwd w) (st_fs st) (path_dirname abs) = inl c →
           tool_result w repoDir call st
           = (Throw (fs_exception c (path_dirname abs)), st)) ∧
     (∀ fs1 c, mkdirSync (w_mkdir_over_file w) (w_cwd w) (st_fs st) (path_dirname abs)
               = inr fs1 →
               writeFileSync (w_cwd w) fs1 abs content = inl c →
               tool_result w repoDir call st
               = (Throw (fs_exception c abs), {| st_fs := fs1; st_trace := st_trace st |}))) ∧
  (∀ props file st,
     props !! js "file" = Some (VString file) →
     has_nul (path_join repoDir file) = true →
     tool_result w repoDir {| tc_name := js "read_file"; tc_args := ArgsObject props |} st
     = (Throw TypeError, st)) ∧
  (∀ props dir st,
     props !! js "dir" = Some (VString dir) →
     has_nul (path_join repoDir dir) = true →
     tool_result w repoDir {| tc_name := js "list_files"; tc_args := ArgsObject props |} st
     = (Throw TypeError, st)) ∧
  (∀ props st,
     let cmd := String_of (default VUndefined (props !! js "cmd")) in
     is_forbidden cmd = false → cmd = [] ∨ has_nul cmd = true →
     tool_result w repoDir {| tc_name := js "run"; tc_args := ArgsObject props |} st
     = (Throw TypeError, st)) ∧
  (∀ n messages st output before tc rest msgs1 st1 err st2,
     w_fetch w (st_trace st) (OPENAI_MODEL e) messages = HttpOk output →
     toolCalls_of output = before ++ tc :: rest →
     apply_tool_calls w repoDir messages before (after_fetch e messages st)
       = (Return msgs1, st1) →
     tool_result w repoDir tc st1 = (Throw err, st2) →
     conversation w e repoDir (S n) messages st = (Throw err, st2)) ∧
  (∀ props st,
     refused_by_spawnSync (String_of (default VUndefined (props !! js "cmd"))) repoDir = false →
     ∃ r st',
       safeRun w (String_of (default VUndefined (props !! js "cmd"))) repoDir st
         = (Return r, st') ∧
       tool_result w repoDir {| tc_name := js "run"; tc_args := ArgsObject props |} st
       = (Return (JObject
            [(js "cmd", JString (String_of (default VUndefined (props !! js "cmd"))));
             (js "ok", JBool (ok r)); (js "code", JNumber (code r));
             (js "stdout", JString (slice0 12000 (stdout r)));
             (js "stderr", JString (slice0 12000 (stderr r)))]), st')).
Proof.
  split_and!.
  - intros props file st c Hf Hr.
    by rewrite (tool_result_read_file_eq _ _ _ file), Hr.
  - intros props dir st c Hd Hr.
    by rewrite (tool_result_list_files_eq _ _ _ dir), Hr.
  - intros props file content st Hf Hc abs call. unfold call, abs.
    rewrite (tool_result_write_file_eq _ _ _ file content) by done. cbn zeta.
    split.
    + intros c ->. done.
    + intros fs1 c -> ->. done.
  - intros props file st Hf Hnul.
    rewrite (tool_result_read_file_eq _ _ _ file) by done.
    unfold readFileSync. by rewrite Hnul.
  - intros props dir st Hd Hnul.
    rewrite (tool_result_list_files_eq _ _ _ dir) by done.
    unfold readdirSync. by rewrite Hnul.
  - intros props st cmd Hf Hcmd. rewrite tool_result_run_eq by done.
    apply bind_Throw, safeRun_refused, refused_by_spawnSync_spec. tauto.
  - apply tool_failure_propagates.
  - intros props st Href. rewrite tool_result_run_eq by done.
    destruct (safeRun_returns w (cmd_of (ArgsObject props)) repoDir st Href) as [r Hr].
    do 2 eexists. split; [exact Hr|]. by rewrite (bind_Return _ _ _ _ _ Hr).
Qed.

Lemma tool_failure_ends_the_loop_witness :
  tool_result missing_file_world (js "/work/repo-7")
    {| tc_name := js "read_file";
       tc_args := ArgsObject {[ js "file" := VString (js "missing.txt") ]} |} checkout_state
  = (Throw (FsError ENOENT (path_join (js "/work/repo-7") (js "missing.txt"))),
     checkout_state) ∧
  tool_result missing_file_world (js "/work/repo-7")
    {| tc_name := js "run"; tc_args := ArgsObject {[ js "cmd" := VString [] ]} |}
    checkout_state
  = (Throw TypeError, checkout_state).
Proof.
  pose proof (tool_failure_ends_the_loop missing_file_world sample_env (js "/work/repo-7"))
    as (Hread & _ & _ & _ & _ & Hrun & _).
  split.
  - apply (Hread {[ js "file" := VString (js "missing.txt") ]} (js "missing.txt")
             checkout_state ENOENT); vm_compute; reflexivity.
  - apply (Hrun {[ js "cmd" := VString [] ]} checkout_state).
    + vm_compute. reflexivity.
    + left. vm_compute. reflexivity.
Defined.

(** Calls that cannot throw do not throw. *)
Lemma harmless_call_returns w repoDir tc st :
  harmless_call repoDir tc → ∃ r st', tool_result w repoDir tc st = (Return r, st').
Proof.
  intros (H1 & H2 & H3 & H4).
  destruct (decide (tc_name tc = js "run")) as [Hrun|Hrun].
  - destruct tc as [n args]. cbn in *. subst n.
    destruct (H4 eq_refl) as [Hargs Href].
    rewrite tool_result_run_eq by done.
    destruct (safeRun_returns w (cmd_of args) repoDir st Href) as [r Hr].
    rewrite (bind_Return _ _ _ _ _ Hr). by do 2 eexists.
  - do 2 eexists. by apply tool_result_unknown.
Qed.

Lemma harmless_calls_return w repoDir messages tcs st :
  Forall (harmless_call repoDir) tcs →
  ∃ msgs' st', apply_tool_calls w repoDir messages tcs st = (Return msgs', st').
Proof.
  intros Htcs. revert messages st.
  induction Htcs as [|tc tcs Htc _ IH]; intros messages st; cbn [apply_tool_calls].
  - by do 2 eexists.
  - destruct (harmless_call_returns w repoDir tc st Htc) as (r & st1 & Hr).
    unfold apply_tool_call. rewrite bind_assoc, (bind_Return _ _ _ _ _ Hr), bind_mret.
    apply IH.
Qed.

(** Whatever the service answers, [n] iterations send at most [n] requests,
    and at least one when the loop returns. *)
Lemma conversation_requests w e repoDir n messages st :
  ∃ Δ, st_trace (conversation w e repoDir n messages st).2 = st_trace st ++ Δ ∧
       (count is_fetch Δ ≤ n)%nat ∧
       (returns (conversation w e repoDir n messages) st = true →
        (1 ≤ count is_fetch Δ)%nat).
Proof.
  revert messages st. induction n as [|n IH]; intros messages st.
  - exists []. cbn. by rewrite (right_id_L [] (++)).
  - cbn [conversation]. unfold returns, fetch_responses.
    unfold mbind at 1 3, M_bind at 1 3.
    destruct (w_fetch w (st_trace st) (OPENAI_MODEL e) messages) as [| |output].
    + exists [Fetch (OPENAI_MODEL e) messages]. cbn. split_and!; [done|lia|done].
    + exists [Fetch (OPENAI_MODEL e) messages]. cbn. split_and!; [done|lia|done].
    + destruct (toolCalls_of output) as [|tc tcs].
      { exists [Fetch (OPENAI_MODEL e) messages]. cbn. split_and!; [done|lia|lia]. }
      set (st0 := {| st_fs := st_fs st; st_trace := st_trace st ++ _ |}).
      destruct (behaves_apply_tool_calls w repoDir messages (tc :: tcs) st0)
        as (Δ1 & Ht1 & HP1 & _).
      pose proof (count_none _ _ (spawn_not_fetch _ HP1)) as Hc1.
      unfold mbind, M_bind.
      destruct (apply_tool_calls _ _ _ _ _) as [[msgs'|err|c] st1]; cbn in Ht1.
      * match goal with |- context [conversation w e repoDir n ?m st1] =>
          destruct (IH m st1) as (Δ2 & Ht2 & Hle & Hret) end.
        exists ([Fetch (OPENAI_MODEL e) messages] ++ Δ1 ++ Δ2). split_and!.
        -- rewrite Ht2, Ht1. cbn. by rewrite <- !(assoc_L (++)).
        -- rewrite !count_app, Hc1. cbn. lia.
        -- intros _. rewrite count_app. cbn. lia.
      * exists ([Fetch (OPENAI_MODEL e) messages] ++ Δ1). split_and!; [|..|done].
        -- cbn [snd]. rewrite Ht1. cbn. by rewrite <- !(assoc_L (++)).
        -- rewrite !count_app, Hc1. cbn. lia.
      * exists ([Fetch (OPENAI_MODEL e) messages] ++ Δ1). split_and!; [|..|done].
        -- cbn [snd]. rewrite Ht1. cbn. by rewrite <- !(assoc_L (++)).
        -- rewrite !count_app, Hc1. cbn. lia.
Qed.

(** The loop with [n] iterations left, facing a service that always asks for
    a tool: it ends by an exception after at most [n] requests. *)
Lemma conversation_budget w e repoDir n :
  always_calls w e →
  ∀ messages st, ∃ err Δ,
    (conversation w e repoDir n messages st).1 = Throw err ∧
    st_trace (state_after (conversation w e repoDir n messages) st) = st_trace st ++ Δ ∧
    (count is_fetch Δ ≤ n)%nat ∧
    (err = MaxStepsExceeded → count is_fetch Δ = n) ∧
    (err ≠ MaxStepsExceeded → tool_failure (Thrown err)) ∧
    (only_harmless_calls w e repoDir → err = MaxStepsExceeded).
Proof.
  intros Hcalls. unfold state_after.
  induction n as [|n IH]; intros messages st.
  - exists MaxStepsExceeded, []. cbn. rewrite (right_id_L [] (++)). by split_and!.
  - destruct (Hcalls (st_trace st) messages) as (output & Hf & Hne).
    rewrite (conversation_step _ _ _ _ _ _ _ Hf Hne).
    destruct (behaves_apply_tool_calls w repoDir messages (toolCalls_of output)
                (after_fetch e messages st)) as (Δ1 & Ht1 & HP1 & HE1).
    pose proof (count_none _ _ (spawn_not_fetch _ HP1)) as Hc1.
    unfold mbind, M_bind.
    destruct (apply_tool_calls _ _ _ _ _) as [[msgs'|err|c] st1] eqn:Happ; cbn in Ht1, HE1.
    + destruct (IH (msgs' ++ assistant_turn (finalText_of output)) st1)
        as (err & Δ2 & Ho & Ht2 & Hle & Hmax & Htool & Hharm).
      exists err, ([Fetch (OPENAI_MODEL e) messages] ++ Δ1 ++ Δ2).
      split_and!; [done| | | |done|done].
      * rewrite Ht2, Ht1. cbn [after_fetch st_trace]. by rewrite <- !(assoc_L (++)).
      * rewrite !count_app, Hc1. cbn. lia.
      * intros Herr. rewrite !count_app, Hc1, (Hmax Herr). by cbn.
    + specialize (HE1 _ eq_refl).
      exists err, ([Fetch (OPENAI_MODEL e) messages] ++ Δ1).
      split_and!; [done| | | | |].
      * cbn [snd]. rewrite Ht1. cbn [after_fetch st_trace]. by rewrite <- !(assoc_L (++)).
      * rewrite !count_app, Hc1. cbn. lia.
      * intros ->. done.
      * done.
      * intros Hharm.
        destruct (harmless_calls_return w repoDir messages (toolCalls_of output)
                    (after_fetch e messages st) (Hharm _ _ _ Hf)) as (? & ? & Hret).
        congruence.
    + by specialize (HE1 _ eq_refl).
Qed.

(** The loop and what precedes it never write to the tracker; the loop never
    ends the process by itself. *)
Lemma behaves_conversation w e repoDir n messages :
  behaves no_tracker_write never_exits (conversation w e repoDir n messages).
Proof.
  revert messages. induction n as [|n IH]; intros messages; cbn [conversation].
  - by apply behaves_throw.
  - apply behaves_bind; [by apply behaves_fetch|]. intros [| |output].
    + by apply behaves_throw.
    + by apply behaves_throw.
    + destruct (toolCalls_of output) as [|tc tcs]; [apply behaves_mret|].
      apply behaves_bind; [|intros; apply IH].
      eapply behaves_weaken; [| |apply behaves_apply_tool_calls].
      * by intros [].
      * by intros [[]|].
Qed.

Lemma behaves_detectStack w repoDir :
  behaves no_tracker_write never_exits (detectStack w repoDir).
Proof. unfold detectStack. repeat behaves_step. Qed.

Lemma behaves_openaiLoop w e repoDir number title body :
  behaves no_tracker_write never_exits (openaiLoop w e repoDir number title body).
Proof.
  unfold openaiLoop. apply behaves_bind; [apply behaves_detectStack|].
  intros. apply behaves_conversation.
Qed.

Lemma behaves_provision w e cloneUrl workRoot repoDir branch number title :
  behaves no_tracker_write exits_with_1
    (provision w e cloneUrl workRoot repoDir branch number title).
Proof.
  unfold provision.
  repeat first [ apply behaves_die; done | behaves_step ].
Qed.

(** C2, counterexample.  A service that answers every request with a
    [list_files] call for a directory that does not exist: the loop stops
    after one request, with the exception of [fs.readdirSync] and not with
    the error of the step budget. *)
Lemma failing_tool_call_stops_before_the_budget :
  always_calls missing_dir_world sample_env ∧
  let r := conversation missing_dir_world sample_env (js "/work/repo-7") max_steps []
             checkout_state in
  r.1 = Throw (FsError ENOENT (js "/work/repo-7/no-such-dir")) ∧
  count is_fetch (st_trace r.2) = 1%nat.
Proof.
  split.
  - intros t messages. eexists. split; [reflexivity | discriminate].
  - vm_compute. done.
Qed.

(** C2, as amended.  Whatever the service answers, the loop sends at most
    30 requests.  With a service that answers every request with at least
    one tool call, the loop ends by an exception; the exception is the one
    of the step budget only after exactly 30 requests, and otherwise it is
    the failure of a tool call (a system error of [fs] or a [TypeError]);
    when no call can fail (only calls to unknown tools and [run] calls with
    arguments whose command is deny-listed or accepted by [spawnSync]) it is
    the one of the step budget.  The run of [main] on an issue then stops
    where the loop stops: it equals the run cut after [openaiLoop], it does
    not return, and it sends neither a comment nor a pull request. *)
Theorem step_budget_is_thirty w e repoDir :
  (∀ messages st, ∃ Δ,
     st_trace (state_after (conversation w e repoDir max_steps messages) st)
       = st_trace st ++ Δ ∧
     (count is_fetch Δ ≤ 30)%nat) ∧
  (always_calls w e →
   (∀ messages st, ∃ err Δ,
      (conversation w e repoDir max_steps messages st).1 = Throw err ∧
      st_trace (state_after (conversation w e repoDir max_steps messages) st)
        = st_trace st ++ Δ ∧
      (count is_fetch Δ ≤ 30)%nat ∧
      (err = MaxStepsExceeded → count is_fetch Δ = 30%nat) ∧
      (err ≠ MaxStepsExceeded → tool_failure (Thrown err)) ∧
      (only_harmless_calls w e repoDir → err = MaxStepsExceeded)) ∧
   (∀ cloneUrl workRoot issue st,
      work_on w e cloneUrl workRoot issue st
        = work_until_loop_ends w e cloneUrl workRoot issue st ∧
      (work_on w e cloneUrl workRoot issue st).1 ≠ Return tt ∧
      ∃ Δ, st_trace (state_after (work_on w e cloneUrl workRoot issue) st)
             = st_trace st ++ Δ ∧
           Forall no_tracker_write Δ)).
Proof.
  split.
  { intros messages st.
    destruct (conversation_requests w e repoDir max_steps messages st) as (Δ & Ht & Hle & _).
    by exists Δ. }
  intros Hcalls. split; [apply (conversation_budget w e repoDir max_steps Hcalls)|].
  intros cloneUrl workRoot issue st.
  assert (Hloop : ∀ dir number title body s,
            ∃ err s', openaiLoop w e dir number title body s = (Throw err, s')).
  { intros dir number title body s. unfold openaiLoop.
    destruct (detectStack w dir s) as [[stk|err|c] s1] eqn:Hd.
    - rewrite (bind_Return _ _ _ _ _ Hd).
      destruct (conversation_budget w e dir max_steps Hcalls
                  [{| role := js "system"; name := None; content := system_prompt |};
                   {| role := js "user"; name := None;
                      content := user_prompt number title body stk |}] s1)
        as (err & Δ & Ho & _).
      destruct (conversation _ _ _ _ _ _) as [o s2]. cbn in Ho. subst o. eauto.
    - rewrite (bind_Throw _ _ _ _ _ Hd). eauto.
    - destruct (behaves_detectStack w dir s) as (? & _ & _ & HE).
      rewrite Hd in HE. by specialize (HE _ eq_refl). }
  assert (Heq : work_on w e cloneUrl workRoot issue st
                = work_until_loop_ends w e cloneUrl workRoot issue st).
  { unfold work_on, work_until_loop_ends. cbv zeta.
    match goal with |- context [provision ?x1 ?x2 ?x3 ?x4 ?x5 ?x6 ?x7 ?x8] =>
      destruct (provision x1 x2 x3 x4 x5 x6 x7 x8 st) as [[[]|err|c] s1] eqn:Hp end.
    - rewrite !(bind_Return _ _ _ _ _ Hp).
      destruct (Hloop (repoDir_of e workRoot issue) (i_number issue)
                  (issueTitle_of issue) (default [] (i_body issue)) s1)
        as (err & s2 & Hl).
      by rewrite !(bind_Throw _ _ _ _ _ Hl).
    - by rewrite !(bind_Throw _ _ _ _ _ Hp).
    - by rewrite !(bind_Exit _ _ _ _ _ Hp). }
  unfold state_after. rewrite Heq. split; [done|]. split.
  - unfold work_until_loop_ends. cbv zeta.
    match goal with |- context [provision ?x1 ?x2 ?x3 ?x4 ?x5 ?x6 ?x7 ?x8] =>
      destruct (provision x1 x2 x3 x4 x5 x6 x7 x8 st) as [[[]|err|c] s1] eqn:Hp end.
    + rewrite (bind_Return _ _ _ _ _ Hp).
      destruct (Hloop (repoDir_of e workRoot issue) (i_number issue)
                  (issueTitle_of issue) (default [] (i_body issue)) s1)
        as (err & s2 & Hl).
      by rewrite (bind_Throw _ _ _ _ _ Hl).
    + by rewrite (bind_Throw _ _ _ _ _ Hp).
    + by rewrite (bind_Exit _ _ _ _ _ Hp).
  - assert (Hb : behaves no_tracker_write exits_with_1
                   (work_until_loop_ends w e cloneUrl workRoot issue)).
    { unfold work_until_loop_ends. cbv zeta. apply behaves_bind; [apply behaves_provision|]. intros _.
      apply behaves_bind; [|intros; apply behaves_mret].
      eapply behaves_weaken; [| |apply behaves_openaiLoop]; [done | by intros []]. }
    destruct (Hb st) as (Δ & Ht & HP & _). by exists Δ.
Qed.

Lemma test_runner_always_calls : always_calls test_runner_world sample_env.
Proof. intros t messages. eexists. split; [reflexivity | discriminate]. Qed.

Lemma step_budget_is_thirty_witness :
  ∃ err Δ,
    (conversation test_runner_world sample_env (js "/work/repo-7") max_steps []
       checkout_state).1 = Throw err ∧
    st_trace (state_after (conversation test_runner_world sample_env (js "/work/repo-7")
                             max_steps []) checkout_state)
      = st_trace checkout_state ++ Δ ∧
    (count is_fetch Δ ≤ 30)%nat ∧
    (err = MaxStepsExceeded → count is_fetch Δ = 30%nat) ∧
    (err ≠ MaxStepsExceeded → tool_failure (Thrown err)) ∧
    (only_harmless_calls test_runner_world sample_env (js "/work/repo-7") →
     err = MaxStepsExceeded).
Proof.
  assert (H : always_calls test_runner_world sample_env).
  { intros t messages. eexists. split; [reflexivity | discriminate]. }
  exact (proj1 (proj2 (step_budget_is_thirty test_runner_world sample_env
                         (js "/work/repo-7")) H)
           [] checkout_state).
Defined.

(** With a service that only asks for commands to run, the loop makes its
    thirty requests and gives up. *)
Lemma test_runner_exhausts_the_budget :
  let r := conversation test_runner_world sample_env (js "/work/repo-7") max_steps []
             checkout_state in
  r.1 = Throw MaxStepsExceeded ∧ count is_fetch (st_trace r.2) = 30%nat ∧
  count is_spawn (st_trace r.2) = 30%nat.
Proof. vm_compute. done. Qed.

(** ** Publishing *)

(** A tracker call records its event, then returns or throws. *)
Lemma createComment_cases w n body st :
  let st' := {| st_fs := st_fs st; st_trace := st_trace st ++ [CreateComment n body] |} in
  octokit_issues_createComment w n body st = (Return tt, st') ∨
  octokit_issues_createComment w n body st = (Throw TrackerError, st').
Proof.
  unfold octokit_issues_createComment. destruct (w_create_comment w _ _ _); auto.
Qed.

Lemma pulls_create_cases w t h b body st :
  let st' := {| st_fs := st_fs st; st_trace := st_trace st ++ [CreatePull t h b body] |} in
  (∃ url, octokit_pulls_create w t h b body st = (Return url, st')) ∨
  octokit_pulls_create w t h b body st = (Throw TrackerError, st').
Proof.
  unfold octokit_pulls_create. destruct (w_create_pull w _ _ _ _ _); eauto.
Qed.

(** The end of [publish] after a pull request has been opened. *)
Lemma publish_tail w n body url st :
  ∃ out rest,
    (octokit_issues_createComment w n body;;
     emit (ConsoleLog (js "PR opened: " ++ url));; emit (Sleep 2000)) st
    = (out, {| st_fs := st_fs st; st_trace := st_trace st ++ rest |}) ∧
    Forall quiet_event rest ∧ (∀ c, out ≠ Exit c).
Proof.
  destruct (createComment_cases w n body st) as [H|H].
  - rewrite (bind_Return _ _ _ _ _ H). msimpl. unfold emit. cbn.
    exists (Return tt), [CreateComment n body; ConsoleLog (js "PR opened: " ++ url); Sleep 2000].
    rewrite <- !(assoc_L (++)). split_and!; [done| |done].
    repeat constructor.
  - rewrite (bind_Throw _ _ _ _ _ H).
    exists (Throw TrackerError), [CreateComment n body].
    split_and!; [done| |done]. repeat constructor.
Qed.

(** The two branches of [publish]. *)
Lemma publish_clean w e repoDir branch number title finalText st s st1 :
  safeRun w (js "git status --porcelain") repoDir st = (Return s, st1) →
  trim (stdout s) = [] →
  ∃ out body rest,
    publish w e repoDir branch number title finalText st
    = (out, add_events st1
              ([ConsoleLog (js "No changes produced. Commenting on issue and skipping.");
                CreateComment number body] ++ rest)) ∧
    Forall quiet_event rest ∧ (∀ c, out ≠ Exit c).
Proof.
  intros Hs Hclean. unfold publish. rewrite (bind_Return _ _ _ _ _ Hs), Hclean. msimpl.
  match goal with |- context [octokit_issues_createComment w number ?b] =>
    set (body := b) end.
  match goal with |- context [(?m ≫= ?f) ?s] =>
    destruct (createComment_cases w number body s) as [H|H] end.
  - exists (Return tt), body, [Sleep 2000]. split_and!; [|repeat constructor|done].
    rewrite (bind_Return _ _ _ _ _ H). unfold emit, add_events. cbn.
    by rewrite <- !(assoc_L (++)).
  - exists (Throw TrackerError), body, []. split_and!; [|constructor|done].
    rewrite (bind_Throw _ _ _ _ _ H). unfold add_events. cbn.
    by rewrite <- !(assoc_L (++)).
Qed.

Lemma publish_dirty w e repoDir branch number title finalText st s st1 a st2 c st3 p st4 :
  safeRun w (js "git status --porcelain") repoDir st = (Return s, st1) →
  trim (stdout s) ≠ [] →
  safeRun w (js "git add -A") repoDir st1 = (Return a, st2) →
  safeRun w (git_commit number title) repoDir st2 = (Return c, st3) →
  safeRun w (git_push branch) repoDir st3 = (Return p, st4) →
  if ok p then
    ∃ out t h b body rest,
      publish w e repoDir branch number title finalText st
      = (out, add_events st4 (CreatePull t h b body :: rest)) ∧
      Forall quiet_event rest ∧ (∀ c, out ≠ Exit c)
  else
    publish w e repoDir branch number title finalText st
    = (Exit 1, add_events st4 [ConsoleError (js "git push failed: " ++ stderr p)]).
Proof.
  intros Hs Hdirty Ha Hc Hp. unfold publish. rewrite (bind_Return _ _ _ _ _ Hs).
  destruct (trim (stdout s)) as [|x l]; [done|].
  rewrite (bind_Return _ _ _ _ _ Ha), (bind_Return _ _ _ _ _ Hc), (bind_Return _ _ _ _ _ Hp).
  destruct (ok p); [|done]. msimpl.
  match goal with |- context [octokit_pulls_create w ?t ?h ?b ?bd] =>
    destruct (pulls_create_cases w t h b bd st4) as [[url H]|H];
    [ rewrite (bind_Return _ _ _ _ _ H);
      match goal with |- context [octokit_issues_createComment w number ?cb] =>
        destruct (publish_tail w number cb url (add_events st4 [CreatePull t h b bd]))
          as (out & rest & Htail & Hquiet & Hexit)
      end;
      exists out, t, h, b, bd, rest
    | rewrite (bind_Throw _ _ _ _ _ H); exists (Throw TrackerError), t, h, b, bd, [] ]
  end.
  - split_and!; [|done..]. unfold add_events in *. cbn in *. rewrite Htail.
    by rewrite <- !(assoc_L (++)).
  - split_and!; [done|constructor|done].
Qed.

(** C5, counterexample.  The status is not empty and the remote rejects
    the push: one commit, one push, no pull request; the process exits. *)
Lemma rejected_push_creates_no_pull_request :
  let r := publish push_rejected_world sample_env (js "/work/repo-7")
             (js "agent/issue-7-fix-login-bug") 7 (js "Fix: login bug!!")
             (js "Fixed the login check.") checkout_state in
  status_text push_rejected_world (js "/work/repo-7") checkout_state ≠ [] ∧
  r.1 = Exit 1 ∧
  count is_pull (st_trace r.2) = 0%nat ∧
  st_trace r.2
  = [Spawn (js "git status --porcelain") (js "/work/repo-7");
     Spawn (js "git add -A") (js "/work/repo-7");
     Spawn (git_commit 7 (js "Fix: login bug!!")) (js "/work/repo-7");
     Spawn (js "git push -u origin agent/issue-7-fix-login-bug") (js "/work/repo-7");
     ConsoleError (js "git push failed: remote: Permission denied")].
Proof. vm_compute. done. Qed.

(** C5, as amended.  For a commit command and a push command that the deny
    list lets through and that [spawnSync] accepts (no NUL character in the
    title, the branch or the directory): when [git status --porcelain]
    prints nothing but white space, the only process is the status query
    and the tracker receives one comment, no pull request; otherwise the
    processes are the status query, [git add -A], one [git commit] and one
    [git push], in that order, followed, when the push is ok, by the
    creation of one pull request and no other process or pull request, and,
    when the push is not ok, by the message of [die] and the exit with
    status 1. *)
Theorem publish_follows_git_status w e repoDir branch number title finalText st :
  is_forbidden (git_commit number title) = false →
  is_forbidden (git_push branch) = false →
  invalid_spawn_args (git_commit number title) repoDir = false →
  invalid_spawn_args (git_push branch) repoDir = false →
  let publishing := publish w e repoDir branch number title finalText in
  let st1 := state_after (safeRun w (js "git status --porcelain") repoDir) st in
  let st2 := state_after (safeRun w (js "git add -A") repoDir) st1 in
  let st3 := state_after (safeRun w (git_commit number title) repoDir) st2 in
  (status_text w repoDir st = [] →
     ∃ body rest,
       new_events publishing st
       = [Spawn (js "git status --porcelain") repoDir;
          ConsoleLog (js "No changes produced. Commenting on issue and skipping.");
          CreateComment number body] ++ rest ∧
       Forall quiet_event rest) ∧
  (status_text w repoDir st ≠ [] →
     ∃ rest,
       new_events publishing st
       = [Spawn (js "git status --porcelain") repoDir;
          Spawn (js "git add -A") repoDir;
          Spawn (git_commit number title) repoDir;
          Spawn (git_push branch) repoDir] ++ rest ∧
       if run_ok w (git_push branch) repoDir st3
       then ∃ t h b body rest',
              rest = CreatePull t h b body :: rest' ∧ Forall quiet_event rest'
       else (∃ msg, rest = [ConsoleError msg]) ∧ (publishing st).1 = Exit 1).
Proof.
  intros Hcommit Hpush Hcommit' Hpush' publishing st1 st2 st3.
  pose proof Hpush' as (_ & _ & Hdir)%invalid_spawn_args_false.
  assert (Hstatus' : invalid_spawn_args (js "git status --porcelain") repoDir = false)
    by (by apply invalid_spawn_args_false).
  assert (Hadd' : invalid_spawn_args (js "git add -A") repoDir = false)
    by (by apply invalid_spawn_args_false).
  destruct (safeRun_allowed w _ repoDir st is_forbidden_status Hstatus') as (s & fs1 & Hs).
  assert (Hst1 : st1 = {| st_fs := fs1; st_trace := st_trace st ++
            [Spawn (js "git status --porcelain") repoDir] |})
    by (unfold st1, state_after; by rewrite Hs).
  assert (Htext : status_text w repoDir st = trim (stdout s))
    by (unfold status_text; by rewrite Hs).
  rewrite Htext. rewrite <- Hst1 in Hs. split.
  - intros Hclean.
    destruct (publish_clean w e repoDir branch number title finalText st s st1 Hs Hclean)
      as (out & body & rest & Hpub & Hquiet & _).
    exists body, rest. split; [|done]. apply new_events_eq.
    unfold publishing. rewrite Hpub, Hst1. cbn. by rewrite <- !(assoc_L (++)).
  - intros Hdirty.
    destruct (safeRun_allowed w _ repoDir st1 is_forbidden_add Hadd') as (a & fs2 & Ha).
    assert (Hst2 : st2 = {| st_fs := fs2; st_trace := st_trace st1 ++
              [Spawn (js "git add -A") repoDir] |})
      by (unfold st2, state_after; by rewrite Ha).
    rewrite <- Hst2 in Ha.
    destruct (safeRun_allowed w _ repoDir st2 Hcommit Hcommit') as (c & fs3 & Hc).
    assert (Hst3 : st3 = {| st_fs := fs3; st_trace := st_trace st2 ++
              [Spawn (git_commit number title) repoDir] |})
      by (unfold st3, state_after; by rewrite Hc).
    rewrite <- Hst3 in Hc.
    destruct (safeRun_allowed w _ repoDir st3 Hpush Hpush') as (p & fs4 & Hp).
    assert (Hok : run_ok w (git_push branch) repoDir st3 = ok p)
      by (unfold run_ok; by rewrite Hp).
    rewrite Hok.
    assert (Htr : st_trace st3 = st_trace st ++
              [Spawn (js "git status --porcelain") repoDir;
               Spawn (js "git add -A") repoDir;
               Spawn (git_commit number title) repoDir]).
    { rewrite Hst3, Hst2, Hst1. cbn. by rewrite <- !(assoc_L (++)). }
    pose proof (publish_dirty w e repoDir branch number title finalText
                  _ _ _ _ _ _ _ _ _ Hs Hdirty Ha Hc Hp) as Hpub.
    destruct (ok p).
    + destruct Hpub as (out & t & h & b & body & rest & Hpub & Hquiet & _).
      exists (CreatePull t h b body :: rest). split; [|eauto 10].
      apply new_events_eq. unfold publishing. rewrite Hpub. cbn.
      rewrite Htr. by rewrite <- !(assoc_L (++)).
    + eexists. split; [|split; [eexists; reflexivity|]].
      * apply new_events_eq. unfold publishing. rewrite Hpub. cbn.
        rewrite Htr. by rewrite <- !(assoc_L (++)).
      * unfold publishing. by rewrite Hpub.
Qed.

Lemma publish_follows_git_status_witness :
  let w := changes_world in
  let repoDir := js "/work/repo-7" in
  let branch := js "agent/issue-7-fix-login-bug" in
  let title := js "Fix: login bug!!" in
  let publishing := publish w sample_env repoDir branch 7 title (js "Fixed the login check.") in
  let st1 := state_after (safeRun w (js "git status --porcelain") repoDir) checkout_state in
  let st2 := state_after (safeRun w (js "git add -A") repoDir) st1 in
  let st3 := state_after (safeRun w (git_commit 7 title) repoDir) st2 in
  (status_text w repoDir checkout_state = [] →
     ∃ body rest,
       new_events publishing checkout_state
       = [Spawn (js "git status --porcelain") repoDir;
          ConsoleLog (js "No changes produced. Commenting on issue and skipping.");
          CreateComment 7 body] ++ rest ∧
       Forall quiet_event rest) ∧
  (status_text w repoDir checkout_state ≠ [] →
     ∃ rest,
       new_events publishing checkout_state
       = [Spawn (js "git status --porcelain") repoDir;
          Spawn (js "git add -A") repoDir;
          Spawn (git_commit 7 title) repoDir;
          Spawn (git_push branch) repoDir] ++ rest ∧
       if run_ok w (git_push branch) repoDir st3
       then ∃ t h b body rest',
              rest = CreatePull t h b body :: rest' ∧ Forall quiet_event rest'
       else (∃ msg, rest = [ConsoleError msg]) ∧ (publishing checkout_state).1 = Exit 1).
Proof.
  apply (publish_follows_git_status changes_world sample_env (js "/work/repo-7")
           (js "agent/issue-7-fix-login-bug") 7 (js "Fix: login bug!!")
           (js "Fixed the login check.") checkout_state); vm_compute; reflexivity.
Defined.

(** A title with a NUL character makes a commit command that [spawnSync]
    refuses: [publish] ends with the [TypeError] after [git add], and
    nothing is pushed or sent. *)
Lemma nul_title_stops_publish :
  let r := publish changes_world sample_env (js "/work/repo-7")
             (js "agent/issue-7-a-b") 7 (js "a" ++ [0] ++ js "b") (js "Done.")
             checkout_state in
  r.1 = Throw TypeError ∧
  st_trace r.2
  = [Spawn (js "git status --porcelain") (js "/work/repo-7");
     Spawn (js "git add -A") (js "/work/repo-7")].
Proof. vm_compute. done. Qed.

(** The two outcomes of the decision on concrete runs. *)
Lemma publish_with_changes :
  new_events (publish changes_world sample_env (js "/work/repo-7")
                (js "agent/issue-7-fix-login-bug") 7 (js "Fix: login bug!!") (js "Done."))
    checkout_state
  = [Spawn (js "git status --porcelain") (js "/work/repo-7");
     Spawn (js "git add -A") (js "/work/repo-7");
     Spawn (git_commit 7 (js "Fix: login bug!!")) (js "/work/repo-7");
     Spawn (js "git push -u origin agent/issue-7-fix-login-bug") (js "/work/repo-7");
     CreatePull (js "#7 Fix: login bug!!") (js "agent/issue-7-fix-login-bug") (js "main")
       (js "Done." ++ nl ++ nl ++ js "Closes #7");
     CreateComment 7 (js "Opened PR: https://github.com/o/r/pull/1" ++ nl ++ nl ++ js "Done.");
     ConsoleLog (js "PR opened: https://github.com/o/r/pull/1");
     Sleep 2000].
Proof. vm_compute. reflexivity. Qed.

Lemma publish_without_changes :
  new_events (publish quiet_world sample_env (js "/work/repo-7")
                (js "agent/issue-7-fix-login-bug") 7 (js "Fix: login bug!!") (js "Done."))
    checkout_state
  = [Spawn (js "git status --porcelain") (js "/work/repo-7");
     ConsoleLog (js "No changes produced. Commenting on issue and skipping.");
     CreateComment 7 (js "I couldn't produce any changes for this issue." ++ nl ++ nl ++
                      js "Model notes:" ++ nl ++ js "Done.");
     Sleep 2000].
Proof. vm_compute. reflexivity. Qed.

(** A title that contains a word of the deny list never reaches [git]. *)
Lemma deny_list_blocks_commit_and_push :
  let title := js "Fix crash on reboot" in
  is_forbidden (git_commit 8 title) = true ∧
  is_forbidden (git_checkout_b (branch_name 8 title)) = true ∧
  is_forbidden (git_push (branch_name 8 title)) = true.
Proof. vm_compute. done. Qed.

(** ** The process *)

(** Rules for [quiet_until_fatal] and [never_fatal]. *)
Lemma quiet_of_behaves {A} E (m : M A) :
  behaves no_tracker_write E m → quiet_until_fatal m.
Proof. intros Hm st. destruct (Hm st) as (Δ & Ht & HP & _). eauto. Qed.

Lemma quiet_of_never_fatal {A} (m : M A) : never_fatal m → quiet_until_fatal m.
Proof. intros Hm st. destruct (Hm st) as [[Δ Ht] Hf]. exists Δ. split; [done|]. tauto. Qed.

Lemma quiet_bind {A B} E (m : M A) (f : A → M B) :
  behaves no_tracker_write E m → (∀ a, quiet_until_fatal (f a)) →
  quiet_until_fatal (m ≫= f).
Proof.
  intros Hm Hf st. destruct (Hm st) as (Δ1 & Ht1 & HP1 & _).
  unfold mbind, M_bind. destruct (m st) as [[a|err|c] st1]; cbn in *.
  - destruct (Hf a st1) as (Δ2 & Ht2 & HP2).
    exists (Δ1 ++ Δ2). rewrite Ht2, Ht1, (assoc_L (++)). split; [done|].
    intros Hfat. apply Forall_app. auto.
  - eauto.
  - eauto.
Qed.

Lemma never_fatal_bind {A B} (m : M A) (f : A → M B) :
  never_fatal m → (∀ a, never_fatal (f a)) → never_fatal (m ≫= f).
Proof.
  intros Hm Hf st. destruct (Hm st) as [[Δ1 Ht1] Hf1].
  unfold mbind, M_bind. destruct (m st) as [[a|err|c] st1]; cbn in *.
  - destruct (Hf a st1) as [[Δ2 Ht2] Hf2]. split; [|done].
    exists (Δ1 ++ Δ2). by rewrite Ht2, Ht1, (assoc_L (++)).
  - eauto.
  - eauto.
Qed.

Lemma never_fatal_emit ev : never_fatal (emit ev).
Proof. intros st. split; [by exists [ev] | by intros []]. Qed.

Lemma never_fatal_createComment w n body : never_fatal (octokit_issues_createComment w n body).
Proof.
  intros st. destruct (createComment_cases w n body st) as [-> | ->]; cbn;
    (split; [by eexists | tauto]).
Qed.

Lemma never_fatal_pulls_create w t h b body : never_fatal (octokit_pulls_create w t h b body).
Proof.
  intros st. destruct (pulls_create_cases w t h b body st) as [[url ->] | ->]; cbn;
    (split; [by eexists | tauto]).
Qed.

Lemma quiet_publish w e repoDir branch number title finalText :
  quiet_until_fatal (publish w e repoDir branch number title finalText).
Proof.
  unfold publish. eapply (quiet_bind exits_with_1); [by apply behaves_safeRun|].
  intros s. destruct (trim (stdout s)).
  - eapply (quiet_bind exits_with_1); [by apply behaves_emit|]. intros _.
    apply quiet_of_never_fatal.
    apply never_fatal_bind; [apply never_fatal_createComment|].
    intros _. apply never_fatal_emit.
  - do 3 (eapply (quiet_bind exits_with_1); [by apply behaves_safeRun|]; intros ?).
    eapply (quiet_bind exits_with_1).
    { case_match; [apply behaves_mret | by apply behaves_die]. }
    intros _. apply quiet_of_never_fatal.
    apply never_fatal_bind; [apply never_fatal_pulls_create|]. intros url.
    apply never_fatal_bind; [apply never_fatal_createComment|]. intros _.
    apply never_fatal_bind; [apply never_fatal_emit|]. intros _.
    apply never_fatal_emit.
Qed.

Lemma quiet_work_on w e cloneUrl workRoot issue :
  quiet_until_fatal (work_on w e cloneUrl workRoot issue).
Proof.
  unfold work_on. cbv zeta.
  eapply quiet_bind; [apply behaves_provision|]. intros _.
  eapply quiet_bind; [apply behaves_openaiLoop|]. intros finalText.
  apply quiet_publish.
Qed.

Lemma behaves_createComment w n body :
  behaves any_event exits_with_1 (octokit_issues_createComment w n body).
Proof.
  intros st. exists [CreateComment n body].
  destruct (createComment_cases w n body st) as [-> | ->]; cbn;
    (split_and!; [done | by constructor |]); [done | by intros ? [= <-]].
Qed.

Lemma behaves_pulls_create w t h b body :
  behaves any_event exits_with_1 (octokit_pulls_create w t h b body).
Proof.
  intros st. exists [CreatePull t h b body].
  destruct (pulls_create_cases w t h b body st) as [[url ->] | ->]; cbn;
    (split_and!; [done | by constructor |]); [done | by intros ? [= <-]].
Qed.

Lemma behaves_listForRepo w :
  behaves any_event exits_with_1 (octokit_issues_listForRepo w).
Proof.
  intros st. exists [ListIssues]. unfold octokit_issues_listForRepo.
  destruct (w_list_issues w _); cbn;
    (split_and!; [done | by constructor |]); [done | by intros ? [= <-]].
Qed.

Lemma behaves_publish w e repoDir branch number title finalText :
  behaves any_event exits_with_1 (publish w e repoDir branch number title finalText).
Proof.
  unfold publish.
  repeat first [ apply behaves_die; done | apply behaves_createComment
               | apply behaves_pulls_create | behaves_step ].
Qed.

Lemma behaves_work_on w e cloneUrl workRoot issue :
  behaves any_event exits_with_1 (work_on w e cloneUrl workRoot issue).
Proof.
  unfold work_on. cbv zeta.
  apply behaves_bind; [eapply behaves_weaken; [| |apply behaves_provision]; done|].
  intros _. apply behaves_bind; [|intros; apply behaves_publish].
  eapply behaves_weaken; [| |apply behaves_openaiLoop]; [done | by intros []].
Qed.

Lemma behaves_poll_cycle w e cloneUrl workRoot :
  behaves any_event exits_with_1 (poll_cycle w e cloneUrl workRoot).
Proof.
  unfold poll_cycle. apply behaves_bind; [apply behaves_listForRepo|].
  intros issues. case_match; [apply behaves_work_on|].
  repeat behaves_step.
Qed.

(** More cycles run the first ones first. *)
Lemma poll_loop_add w e cloneUrl workRoot k m st :
  poll_loop w e cloneUrl workRoot (k + m) st
  = (poll_loop w e cloneUrl workRoot k;; poll_loop w e cloneUrl workRoot m) st.
Proof.
  revert st. induction k as [|k IH]; intros st; [done|].
  cbn [Nat.add poll_loop]. rewrite bind_assoc.
  destruct (poll_cycle w e cloneUrl workRoot st) as [[[]|err|c] st1] eqn:Hc.
  - rewrite !(bind_Return _ _ _ _ _ Hc). apply IH.
  - by rewrite !(bind_Throw _ _ _ _ _ Hc).
  - by rewrite !(bind_Exit _ _ _ _ _ Hc).
Qed.

Lemma main_add w e k m st :
  main w e (k + m) st
  = (main w e k;; poll_loop w e (cloneUrl_of e) (WORKDIR e) m) st.
Proof.
  unfold main. cbv zeta. msimpl.
  destruct (mkdirSync _ _ _) as [c|fs1]; msimpl; [done|].
  apply poll_loop_add.
Qed.

(** After a cycle that does not return there is no other cycle. *)
Lemma failing_cycle_is_the_last w e k n st st1 out st2 :
  main w e k st = (Return tt, st1) →
  poll_cycle w e (cloneUrl_of e) (WORKDIR e) st1 = (out, st2) →
  out ≠ Return tt →
  ∃ st3, run_main w e (k + S n) st = (Exit 1, st3) ∧ st_fs st3 = st_fs st2 ∧
         (st_trace st3 = st_trace st2 ∨ ∃ err, st_trace st3 = st_trace st2 ++ [Uncaught err]).
Proof.
  intros Hmain Hcycle Hout. unfold run_main, catch_and_exit.
  rewrite main_add, (bind_Return _ _ _ _ _ Hmain). cbn [poll_loop].
  destruct (behaves_poll_cycle w e (cloneUrl_of e) (WORKDIR e) st1) as (_ & _ & _ & HE).
  rewrite Hcycle in HE. cbn in HE.
  destruct out as [[]|err|c]; [done| |].
  - rewrite (bind_Throw _ _ _ _ _ Hcycle). eexists. split_and!; [done..|]. eauto.
  - rewrite (bind_Exit _ _ _ _ _ Hcycle). specialize (HE _ eq_refl). cbn in HE. subst c.
    eexists. split_and!; [done..|]. by left.
Qed.

Lemma poll_cycle_selects w e cloneUrl workRoot st issues issue :
  w_list_issues w (st_trace st) = Some issues →
  find (λ i, negb (i_pull_request i)) issues = Some issue →
  poll_cycle w e cloneUrl workRoot st
  = work_on w e cloneUrl workRoot issue (add_events st [ListIssues]).
Proof.
  intros Hl Hf. unfold poll_cycle, mbind, M_bind, octokit_issues_listForRepo.
  by rewrite Hl, Hf.
Qed.

(** The four failures, each at its place in the work on an issue. *)
Lemma bind_congr {A B} (m : M A) (f g : A → M B) st :
  (∀ a s, f a s = g a s) → (m ≫= f) st = (m ≫= g) st.
Proof. intros H. unfold mbind, M_bind. by destruct (m st) as [[a|?|?] s]. Qed.

(** Once the old directory is gone, [provision] is the clone and the two
    checkouts. *)
Lemma provision_step w e cloneUrl workRoot issue st (k : unit → M unit) :
  has_nul (repoDir_of e workRoot issue) = false →
  (provision w e cloneUrl workRoot (repoDir_of e workRoot issue) (branch_of issue)
     (i_number issue) (issueTitle_of issue) ≫= k) st
  = (r1 ← safeRun w (git_clone cloneUrl (repoDir_of e workRoot issue)) workRoot;
     (if ok r1 then mret tt else die (js "git clone failed: " ++ stderr r1));;
     safeRun w (git_checkout (DEFAULT_BASE_BRANCH e)) (repoDir_of e workRoot issue);;
     safeRun w (git_checkout_b (branch_of issue)) (repoDir_of e workRoot issue);;
     k tt) (before_clone w e workRoot issue st).
Proof.
  intros Hnul. unfold provision, rmSync. rewrite Hnul. msimpl. unfold before_clone.
  repeat (msimpl; first [reflexivity | apply bind_congr; intros ? ?]).
Qed.

(** A path that is refused stops [provision] before anything is printed. *)
Lemma provision_refused w e cloneUrl workRoot repoDir branch number title st :
  has_nul repoDir = true →
  provision w e cloneUrl workRoot repoDir branch number title st = (Throw TypeError, st).
Proof. intros Hnul. unfold provision, rmSync. rewrite Hnul. by msimpl. Qed.

(** The commands that [main] builds hold a NUL character only where their
    parts do. *)
Lemma uint_digits_no_nul u : has_nul (uint_digits u) = false.
Proof. induction u; cbn; done. Qed.

Lemma Number_toString_no_nul n : has_nul (Number_toString n) = false.
Proof. unfold Number_toString. destruct (Z.to_int n); cbn; apply uint_digits_no_nul. Qed.

Lemma git_clone_no_nul cloneUrl repoDir cwd :
  invalid_spawn_args (git_clone cloneUrl repoDir) cwd = false → has_nul repoDir = false.
Proof.
  intros (_ & Hcmd & _)%invalid_spawn_args_false. unfold git_clone in Hcmd.
  rewrite !has_nul_app, !orb_false_iff in Hcmd. tauto.
Qed.

Lemma has_nul_false s : has_nul s = false ↔ Forall (λ c, c ≠ 0) s.
Proof.
  unfold has_nul. induction s as [|c s IH]; cbn [existsb]; [done|].
  rewrite orb_false_iff, IH, Forall_cons, Z.eqb_neq.
  split; (intros [Hc Hs]; split; [congruence | done]).
Qed.

Lemma slug_no_nul s : has_nul (slug s) = false.
Proof.
  apply has_nul_false. eapply Forall_impl; [apply slug_shape|].
  intros c Hc Hz. subst c. by destruct Hc as [Hc|Hc]; vm_compute in Hc.
Qed.

Lemma branch_name_no_nul number title : has_nul (branch_name number title) = false.
Proof.
  unfold branch_name. by rewrite !has_nul_app, Number_toString_no_nul, slug_no_nul.
Qed.

(** In a directory without NUL character the fixed commands of [publish]
    and the push of a branch of [main] are accepted by [spawnSync]. *)
Lemma fixed_commands_accepted number title repoDir :
  has_nul repoDir = false →
  invalid_spawn_args (js "git status --porcelain") repoDir = false ∧
  invalid_spawn_args (js "git add -A") repoDir = false ∧
  invalid_spawn_args (git_push (branch_name number title)) repoDir = false.
Proof.
  intros Hdir. split_and!; apply invalid_spawn_args_false; split_and!; try done.
  unfold git_push. by rewrite has_nul_app, branch_name_no_nul.
Qed.

(** A status that is not empty has been read from a process. *)
Lemma status_text_dirty w repoDir st :
  status_text w repoDir st ≠ [] →
  has_nul repoDir = false ∧
  ∃ s, safeRun w (js "git status --porcelain") repoDir st
       = (Return s, state_after (safeRun w (js "git status --porcelain") repoDir) st) ∧
       trim (stdout s) ≠ [].
Proof.
  unfold status_text, state_after.
  destruct (safeRun_cases w (js "git status --porcelain") repoDir st)
    as [[Hf _] | [(_ & _ & ->) | (_ & Hargs & p & fs' & _ & ->)]].
  - by rewrite is_forbidden_status in Hf.
  - done.
  - apply invalid_spawn_args_false in Hargs as (_ & _ & Hdir). eauto.
Qed.

Lemma accepted_not_refused cmd cwd :
  invalid_spawn_args cmd cwd = false → refused_by_spawnSync cmd cwd = false.
Proof. unfold refused_by_spawnSync. intros ->. apply andb_false_r. Qed.

Lemma clone_failure_exits w e cloneUrl workRoot issue st :
  invalid_spawn_args (git_clone cloneUrl (repoDir_of e workRoot issue)) workRoot = false →
  run_ok w (git_clone cloneUrl (repoDir_of e workRoot issue)) workRoot
    (before_clone w e workRoot issue st) = false →
  ∃ r1 st1,
    safeRun w (git_clone cloneUrl (repoDir_of e workRoot issue)) workRoot
      (before_clone w e workRoot issue st) = (Return r1, st1) ∧
    work_on w e cloneUrl workRoot issue st
    = (Exit 1, add_events st1 [ConsoleError (js "git clone failed: " ++ stderr r1)]).
Proof.
  unfold run_ok. intros Hargs Hok. unfold work_on. cbv zeta.
  rewrite provision_step by (by eapply git_clone_no_nul).
  destruct (safeRun_returns w (git_clone cloneUrl (repoDir_of e workRoot issue)) workRoot
              (before_clone w e workRoot issue st) (accepted_not_refused _ _ Hargs))
    as [r1 H1].
  rewrite H1 in Hok. cbn in Hok. exists r1. eexists. split; [exact H1|].
  rewrite (bind_Return _ _ _ _ _ H1), Hok. unfold die. by msimpl.
Qed.

Lemma loop_failure_escapes w e cloneUrl workRoot issue st st0 err st1 :
  provision w e cloneUrl workRoot (repoDir_of e workRoot issue) (branch_of issue)
    (i_number issue) (issueTitle_of issue) st = (Return tt, st0) →
  openaiLoop w e (repoDir_of e workRoot issue) (i_number issue) (issueTitle_of issue)
    (default [] (i_body issue)) st0 = (Throw err, st1) →
  work_on w e cloneUrl workRoot issue st = (Throw err, st1).
Proof.
  intros Hp Hl. unfold work_on. cbv zeta.
  by rewrite (bind_Return _ _ _ _ _ Hp), (bind_Throw _ _ _ _ _ Hl).
Qed.

Lemma push_failure_exits w e cloneUrl workRoot issue st st0 finalText st1 :
  provision w e cloneUrl workRoot (repoDir_of e workRoot issue) (branch_of issue)
    (i_number issue) (issueTitle_of issue) st = (Return tt, st0) →
  openaiLoop w e (repoDir_of e workRoot issue) (i_number issue) (issueTitle_of issue)
    (default [] (i_body issue)) st0 = (Return finalText, st1) →
  status_text w (repoDir_of e workRoot issue) st1 ≠ [] →
  invalid_spawn_args (git_commit (i_number issue) (issueTitle_of issue))
    (repoDir_of e workRoot issue) = false →
  run_ok w (git_push (branch_of issue)) (repoDir_of e workRoot issue)
    (before_push w (repoDir_of e workRoot issue) (i_number issue) (issueTitle_of issue) st1)
    = false →
  ∃ p st4,
    safeRun w (git_push (branch_of issue)) (repoDir_of e workRoot issue)
      (before_push w (repoDir_of e workRoot issue) (i_number issue)
         (issueTitle_of issue) st1) = (Return p, st4) ∧
    work_on w e cloneUrl workRoot issue st
    = (Exit 1, add_events st4 [ConsoleError (js "git push failed: " ++ stderr p)]).
Proof.
  intros Hp Hl Hdirty Hcommit Hok. unfold work_on. cbv zeta.
  rewrite (bind_Return _ _ _ _ _ Hp), (bind_Return _ _ _ _ _ Hl).
  unfold run_ok, before_push in *.
  set (dir := repoDir_of e workRoot issue) in *.
  apply status_text_dirty in Hdirty as (Hdir & s & Hs & Hdirty).
  destruct (fixed_commands_accepted (i_number issue) (issueTitle_of issue) dir Hdir)
    as (_ & Hadd & Hpush').
  set (s1 := state_after _ st1) in *.
  destruct (safeRun_returns w (js "git add -A") dir s1 (accepted_not_refused _ _ Hadd))
    as [a Ha].
  set (s2 := state_after _ s1) in *.
  destruct (safeRun_returns w (git_commit (i_number issue) (issueTitle_of issue)) dir s2
              (accepted_not_refused _ _ Hcommit)) as [c Hc].
  set (s3 := state_after _ s2) in *.
  destruct (safeRun_returns w (git_push (branch_of issue)) dir s3
              (accepted_not_refused _ _ Hpush')) as [p Hpush].
  rewrite Hpush in Hok. cbn in Hok.
  pose proof (publish_dirty w e dir (branch_of issue) (i_number issue)
                (issueTitle_of issue) finalText _ _ _ _ _ _ _ _ _ Hs Hdirty Ha Hc Hpush)
    as Hpub.
  rewrite Hok in Hpub. exists p. eexists. split; [exact Hpush|]. by rewrite Hpub.
Qed.

Lemma transport_failure_throws w e repoDir n messages st :
  (w_fetch w (st_trace st) (OPENAI_MODEL e) messages = FetchFailed →
   conversation w e repoDir (S n) messages st
   = (Throw TransportError, after_fetch e messages st)) ∧
  (∀ status body,
     w_fetch w (st_trace st) (OPENAI_MODEL e) messages = HttpError status body →
     conversation w e repoDir (S n) messages st
     = (Throw (OpenAIError status body), after_fetch e messages st)).
Proof.
  split; [intros Hf | intros status body Hf];
    cbn [conversation]; unfold fetch_responses, mbind, M_bind; by rewrite Hf.
Qed.

(** C4, counterexample.  Issue 7 is open and the clone fails: of the three
    polling cycles the process could make it makes one, then it has exited
    with status 1; the last thing it did was to report the failed clone. *)
Lemma clone_failure_stops_polling :
  let r := run_main clone_fails_world sample_env 3 empty_state in
  r.1 = Exit 1 ∧ count is_poll (st_trace r.2) = 1%nat ∧
  last (st_trace r.2)
  = Some (ConsoleError (js "git clone failed: fatal: unable to access the remote")).
Proof. vm_compute. done. Qed.

(** C4, as amended.  A polling cycle that does not return is the last one:
    the process exits with status 1, at most after reporting the exception
    that escaped, and polls no more.  A cycle that finds an issue is the work
    on that issue, and whenever this work ends by an exit or by an exception
    other than a failed tracker call, no comment and no pull request has been
    sent.  The four failures end the work in that way: after a clone that is
    not ok and after a push that is not ok the failure is written to the
    error stream and the process exits with status 1 (for a clone command
    and a commit command that [spawnSync] accepts, that is without NUL
    character); an exception of the loop escapes; a request that fails or is
    answered with an error status throws; so does the exhausted step
    budget. *)
Theorem fatal_failure_exits_the_process w e :
  (∀ k n st st1 out st2,
     main w e k st = (Return tt, st1) →
     poll_cycle w e (cloneUrl_of e) (WORKDIR e) st1 = (out, st2) →
     out ≠ Return tt →
     ∃ st3, run_main w e (k + S n) st = (Exit 1, st3) ∧ st_fs st3 = st_fs st2 ∧
       (st_trace st3 = st_trace st2 ∨
        ∃ err, st_trace st3 = st_trace st2 ++ [Uncaught err])) ∧
  (∀ st issues issue,
     w_list_issues w (st_trace st) = Some issues →
     find (λ i, negb (i_pull_request i)) issues = Some issue →
     poll_cycle w e (cloneUrl_of e) (WORKDIR e) st
     = work_on w e (cloneUrl_of e) (WORKDIR e) issue (add_events st [ListIssues])) ∧
  (∀ issue st,
     fatal (work_on w e (cloneUrl_of e) (WORKDIR e) issue st).1 →
     Forall no_tracker_write (new_events (work_on w e (cloneUrl_of e) (WORKDIR e) issue) st)) ∧
  (∀ issue st,
     invalid_spawn_args (git_clone (cloneUrl_of e) (repoDir_of e (WORKDIR e) issue))
       (WORKDIR e) = false →
     run_ok w (git_clone (cloneUrl_of e) (repoDir_of e (WORKDIR e) issue)) (WORKDIR e)
       (before_clone w e (WORKDIR e) issue st) = false →
     ∃ r1 st1,
       safeRun w (git_clone (cloneUrl_of e) (repoDir_of e (WORKDIR e) issue)) (WORKDIR e)
         (before_clone w e (WORKDIR e) issue st) = (Return r1, st1) ∧
       work_on w e (cloneUrl_of e) (WORKDIR e) issue st
       = (Exit 1, add_events st1 [ConsoleError (js "git clone failed: " ++ stderr r1)])) ∧
  (∀ issue st st0 finalText st1,
     provision w e (cloneUrl_of e) (WORKDIR e) (repoDir_of e (WORKDIR e) issue)
       (branch_of issue) (i_number issue) (issueTitle_of issue) st = (Return tt, st0) →
     openaiLoop w e (repoDir_of e (WORKDIR e) issue) (i_number issue) (issueTitle_of issue)
       (default [] (i_body issue)) st0 = (Return finalText, st1) →
     status_text w (repoDir_of e (WORKDIR e) issue) st1 ≠ [] →
     invalid_spawn_args (git_commit (i_number issue) (issueTitle_of issue))
       (repoDir_of e (WORKDIR e) issue) = false →
     run_ok w (git_push (branch_of issue)) (repoDir_of e (WORKDIR e) issue)
       (before_push w (repoDir_of e (WORKDIR e) issue) (i_number issue)
          (issueTitle_of issue) st1) = false →
     ∃ p st4,
       safeRun w (git_push (branch_of issue)) (repoDir_of e (WORKDIR e) issue)
         (before_push w (repoDir_of e (WORKDIR e) issue) (i_number issue)
            (issueTitle_of issue) st1) = (Return p, st4) ∧
       work_on w e (cloneUrl_of e) (WORKDIR e) issue st
       = (Exit 1, add_events st4 [ConsoleError (js "git push failed: " ++ stderr p)])) ∧
  (∀ issue st st0 err st1,
     provision w e (cloneUrl_of e) (WORKDIR e) (repoDir_of e (WORKDIR e) issue)
       (branch_of issue) (i_number issue) (issueTitle_of issue) st = (Return tt, st0) →
     openaiLoop w e (repoDir_of e (WORKDIR e) issue) (i_number issue) (issueTitle_of issue)
       (default [] (i_body issue)) st0 = (Throw err, st1) →
     work_on w e (cloneUrl_of e) (WORKDIR e) issue st = (Throw err, st1)) ∧
  (∀ repoDir n messages st,
     (w_fetch w (st_trace st) (OPENAI_MODEL e) messages = FetchFailed →
      conversation w e repoDir (S n) messages st
      = (Throw TransportError, after_fetch e messages st)) ∧
     (∀ status body,
        w_fetch w (st_trace st) (OPENAI_MODEL e) messages = HttpError status body →
        conversation w e repoDir (S n) messages st
        = (Throw (OpenAIError status body), after_fetch e messages st))) ∧
  (∀ repoDir messages st,
     conversation w e repoDir 0 messages st = (Throw MaxStepsExceeded, st)).
Proof.
  split_and!.
  - apply failing_cycle_is_the_last.
  - intros. by eapply poll_cycle_selects.
  - intros issue st Hfatal.
    destruct (quiet_work_on w e (cloneUrl_of e) (WORKDIR e) issue st) as (Δ & Ht & HΔ).
    rewrite (new_events_eq _ _ _ Ht). auto.
  - intros. by apply clone_failure_exits.
  - intros. by eapply push_failure_exits.
  - intros. by eapply loop_failure_escapes.
  - intros. apply transport_failure_throws.
  - done.
Qed.

Lemma fatal_failure_exits_the_process_witness :
  ∃ r1 st1,
    safeRun clone_fails_world
      (git_clone (cloneUrl_of sample_env) (repoDir_of sample_env (WORKDIR sample_env) issue_7))
      (WORKDIR sample_env)
      (before_clone clone_fails_world sample_env (WORKDIR sample_env) issue_7 empty_state)
    = (Return r1, st1) ∧
    work_on clone_fails_world sample_env (cloneUrl_of sample_env) (WORKDIR sample_env)
      issue_7 empty_state
    = (Exit 1, add_events st1 [ConsoleError (js "git clone failed: " ++ stderr r1)]).
Proof.
  apply (proj1 (proj2 (proj2 (proj2
           (fatal_failure_exits_the_process clone_fails_world sample_env))))
           issue_7 empty_state); vm_compute; reflexivity.
Defined.

(** * Further properties *)

(** ** [slug] and the name of the branch *)

Lemma alnum_part_app s1 s2 : alnum_part (s1 ++ s2) = alnum_part s1 ++ alnum_part s2.
Proof. apply List.filter_app. Qed.

Lemma alnum_part_reverse s : alnum_part (reverse s) = reverse (alnum_part s).
Proof.
  induction s as [|c t IH]; [done|].
  rewrite reverse_cons, alnum_part_app, IH. unfold alnum_part. cbn [List.filter].
  destruct (is_lower_alnum c); [by rewrite reverse_cons | by rewrite (right_id_L [] (++))].
Qed.

Lemma alnum_part_replace_runs b s : alnum_part (replace_runs b s) = alnum_part s.
Proof.
  revert b. induction s as [|c t IH]; intros b; [done|]. cbn.
  destruct (is_lower_alnum c) eqn:Hc; cbn.
  - by rewrite Hc, IH.
  - destruct b; [apply IH|]. cbn. by rewrite IH.
Qed.

Lemma alnum_part_strip_first s : alnum_part (strip_first_hyphen s) = alnum_part s.
Proof.
  destruct s as [|c t]; [done|]. cbn.
  destruct (Z.eqb_spec c hyphen) as [->|]; [|done]. done.
Qed.

Lemma alnum_part_strip_edges s : alnum_part (strip_edge_hyphens s) = alnum_part s.
Proof.
  unfold strip_edge_hyphens, strip_last_hyphen.
  rewrite alnum_part_reverse, alnum_part_strip_first, alnum_part_reverse.
  by rewrite reverse_involutive, alnum_part_strip_first.
Qed.

Lemma alnum_part_nil s :
  alnum_part s = [] ↔ Forall (λ c, is_lower_alnum c = false) s.
Proof.
  induction s as [|c t IH]; cbn.
  - split; [constructor | done].
  - destruct (is_lower_alnum c) eqn:Hc.
    + split; [done | by inversion 1; congruence].
    + rewrite IH. split; [by constructor | by inversion 1].
Qed.

Lemma slug_chars_nil s :
  Forall slug_char s → alnum_part s = [] → Forall (λ c, c = hyphen) s.
Proof.
  intros Hs Ha. apply alnum_part_nil in Ha.
  induction Hs as [|c t [Hc|Hc] _ IH]; inversion Ha; subst; [done| |]; constructor; auto; congruence.
Qed.

(** What is left once the hyphens at the two ends are gone does not end in a
    hyphen. *)
Lemma strip_edge_hyphens_last s :
  single_hyphens s → last (strip_edge_hyphens s) ≠ Some hyphen.
Proof.
  intros Hs. unfold strip_edge_hyphens, strip_last_hyphen. rewrite last_reverse.
  apply strip_first_hyphen_head. apply single_hyphens_reverse.
  destruct (strip_first_hyphen_suffix s) as [p Hp]. rewrite Hp in Hs.
  by apply single_hyphens_suffix in Hs.
Qed.

Lemma strip_edge_hyphens_head s :
  single_hyphens s → head (strip_edge_hyphens s) ≠ Some hyphen.
Proof.
  intros Hs Hh. apply (strip_first_hyphen_head s Hs).
  destruct (strip_last_hyphen_prefix (strip_first_hyphen s)) as [q Hq].
  rewrite Hq. by apply head_prefix.
Qed.

(** A string of hyphens that neither starts with a hyphen is empty. *)
Lemma stripped_without_alnum s :
  single_hyphens s → alnum_part s = [] → Forall slug_char s → strip_edge_hyphens s = [].
Proof.
  intros Hs Ha Hc.
  pose proof (strip_edge_hyphens_head s Hs) as Hh.
  assert (Hall : Forall (λ c, c = hyphen) (strip_edge_hyphens s)).
  { apply slug_chars_nil.
    - unfold strip_edge_hyphens.
      destruct (strip_first_hyphen_suffix s) as [p Hp].
      destruct (strip_last_hyphen_prefix (strip_first_hyphen s)) as [q Hq].
      rewrite Hp, Hq in Hc. apply Forall_app in Hc as [_ Hc].
      by apply Forall_app in Hc as [Hc _].
    - by rewrite alnum_part_strip_edges. }
  destruct (strip_edge_hyphens s) as [|c t]; [done|].
  inversion Hall; subst. by destruct Hh.
Qed.

(** X1.  On every input the slug consists of lower-case ASCII letters, digits
    and hyphens only, never holds two hyphens in a row, never starts with a
    hyphen and is at most 40 code units long; its letters and digits are, in
    the same order, the first letters and digits of the lower-cased title. *)
Theorem slug_keeps_letters_and_digits (s : jsstring) :
  Forall slug_char (slug s) ∧
  single_hyphens (slug s) ∧
  head (slug s) ≠ Some hyphen ∧
  (length (slug s) ≤ 40)%nat ∧
  alnum_part (slug s) `prefix_of` alnum_part (toLowerCase s).
Proof.
  destruct (slug_shape s) as (H1 & H2 & H3 & H4). split_and!; [done..|].
  unfold slug, slice0.
  set (u := strip_edge_hyphens (replace_runs false (toLowerCase s))).
  assert (Hu : alnum_part u = alnum_part (toLowerCase s)).
  { unfold u. by rewrite alnum_part_strip_edges, alnum_part_replace_runs. }
  rewrite <- Hu. rewrite <- (take_drop (Z.to_nat slug_cap) u) at 2.
  rewrite alnum_part_app. by apply prefix_app_r.
Qed.

(** X2.  A slug can end in a hyphen only where it has been cut: when the last
    code unit of the slug is a hyphen, the slug is exactly 40 code units
    long. *)
Theorem slug_trailing_hyphen_only_at_the_cut (s : jsstring) :
  last (slug s) = Some hyphen → length (slug s) = 40%nat.
Proof.
  unfold slug, slice0.
  set (u := strip_edge_hyphens (replace_runs false (toLowerCase s))).
  intros Hlast. rewrite length_take.
  destruct (decide (length u ≤ 40)%nat) as [Hle|]; [|unfold slug_cap; lia].
  exfalso. rewrite take_ge in Hlast by (unfold slug_cap; lia).
  revert Hlast. apply strip_edge_hyphens_last, replace_runs_single.
Qed.

Lemma slug_trailing_hyphen_only_at_the_cut_witness :
  length (slug (js "Add retry with exponential backoff when pushing")) = 40%nat.
Proof.
  apply (slug_trailing_hyphen_only_at_the_cut
           (js "Add retry with exponential backoff when pushing")).
  vm_compute. reflexivity.
Defined.

(** X3.  The slug is empty exactly when the lower-cased title holds no
    character of [[a-z0-9]]: an empty title, punctuation only, a title in
    another script. *)
Theorem slug_is_empty_without_letters_and_digits (s : jsstring) :
  slug s = [] ↔ Forall (λ c, is_lower_alnum c = false) (toLowerCase s).
Proof.
  rewrite <- alnum_part_nil, <- (alnum_part_replace_runs false).
  unfold slug, slice0.
  set (r := replace_runs false (toLowerCase s)).
  split.
  - intros [H|H]%take_nil_inv; [by vm_compute in H|].
    by rewrite <- (alnum_part_strip_edges r), H.
  - intros Ha. rewrite (stripped_without_alnum r); [apply take_nil | | done |].
    + apply replace_runs_single.
    + apply replace_runs_chars.
Qed.

Lemma uint_digits_chars u : Forall (λ c, is_lower_alnum c = true) (uint_digits u).
Proof. induction u; constructor; done. Qed.

Lemma Number_toString_chars n : Forall branch_char (Number_toString n).
Proof.
  unfold Number_toString. destruct (Z.to_int n) as [u|u].
  - eapply Forall_impl; [apply uint_digits_chars|]. by left.
  - constructor; [by right; left|].
    eapply Forall_impl; [apply uint_digits_chars|]. by left.
Qed.

(** X4.  Whatever the title, the branch name consists of lower-case ASCII
    letters, digits, hyphens and slashes only, so it holds no white space,
    quote or shell metacharacter; it is at most 53 code units longer than
    the decimal form of the issue number. *)
Theorem branch_name_is_plain (number : Z) (title : jsstring) :
  Forall branch_char (branch_name number title) ∧
  (length (branch_name number title) ≤ 53 + length (Number_toString number))%nat.
Proof.
  destruct (slug_shape title) as (Hc & _ & _ & Hlen). unfold branch_name. split.
  - repeat apply Forall_app_2.
    + set (l := js "agent/issue-"). vm_compute in l. subst l.
      repeat (constructor;
        [first [left; reflexivity | right; left; reflexivity | right; right; reflexivity]|]).
      constructor.
    + apply Number_toString_chars.
    + constructor; [by right; left | constructor].
    + eapply Forall_impl; [exact Hc|]. intros c [?|?]; [by left | by right; left].
  - rewrite !length_app.
    change (length (js "agent/issue-")) with 12%nat.
    change (length (js "-")) with 1%nat. lia.
Qed.

(** ** The events of a run *)

(** X5.  The three ways through [safeRun].  For a deny-listed command it
    returns [ok = false] with the code 126 and a [stderr] that names the
    command, and the state is untouched.  A command that gets past the deny
    list and is empty or holds a NUL character throws the [TypeError] of
    [spawnSync], again with the state untouched.  A command that gets past
    the deny list and that [spawnSync] accepts returns after exactly one
    process has been started, with the command and the directory given, and
    in its result [ok] is true exactly when [code] is 0. *)
Theorem safeRun_reports_consistently w cmd cwd st :
  if is_forbidden cmd then
    ∃ r, safeRun w cmd cwd st = (Return r, st) ∧
         ok r = false ∧ code r = 126 ∧
         stderr r = js "Forbidden command pattern: " ++ cmd
  else
    (cmd = [] ∨ has_nul cmd = true → safeRun w cmd cwd st = (Throw TypeError, st)) ∧
    (invalid_spawn_args cmd cwd = false →
     ∃ r st', safeRun w cmd cwd st = (Return r, st') ∧
              (ok r = true ↔ code r = 0) ∧
              st_trace st' = st_trace st ++ [Spawn cmd cwd]).
Proof.
  destruct (safeRun_cases w cmd cwd st)
    as [[Hf Hr] | [(Hf & Hi & Hr) | (Hf & Hi & p & fs' & _ & Hr)]];
    rewrite Hr, Hf; [by eexists | by rewrite Hi |].
  apply invalid_spawn_args_false in Hi as Hi'. split.
  { intros [->|Hnul]; [by destruct Hi' | destruct Hi' as (_ & Hcmd & _); congruence]. }
  intros _. do 2 eexists. split; [reflexivity|]. cbn. split; [|done].
  destruct (p_status p) as [z|]; cbn.
  - rewrite bool_decide_eq_true. split; [by intros [= ->] | by intros ->].
  - split; [by rewrite bool_decide_eq_true | discriminate].
Qed.

Lemma safeRun_reports_consistently_witness :
  safeRun quiet_world [] (js "/work/repo-7") empty_state = (Throw TypeError, empty_state) ∧
  ∃ r st', safeRun quiet_world (js "npm test") (js "/work/repo-7") empty_state
           = (Return r, st') ∧
           (ok r = true ↔ code r = 0) ∧
           st_trace st' = st_trace empty_state ++ [Spawn (js "npm test") (js "/work/repo-7")].
Proof.
  split.
  - apply (safeRun_reports_consistently quiet_world [] (js "/work/repo-7") empty_state).
    by left.
  - apply (safeRun_reports_consistently quiet_world (js "npm test") (js "/work/repo-7")
             empty_state).
    vm_compute. reflexivity.
Defined.

Section Guarded.
Context (P : event → Prop) (E : abrupt → Prop).

Lemma behaves_safeRun_guarded w cmd cwd :
  (is_forbidden cmd = false → P (Spawn cmd cwd)) → E (Thrown TypeError) →
  behaves P E (safeRun w cmd cwd).
Proof.
  intros Hev Ht. unfold safeRun. destruct (is_forbidden cmd); [apply behaves_mret|].
  apply behaves_bind; [by apply behaves_spawnSync; auto | intros; apply behaves_mret].
Qed.

End Guarded.

(** Rules for a predicate on events: what it has to allow for each part of
    the program to stay within it. *)
Section Events.
Context (P : event → Prop).
Hypothesis P_other : ∀ ev, is_spawn ev = false → is_tracker_write ev = false → P ev.

Lemma events_createComment w n body :
  P (CreateComment n body) → behaves P any_abrupt (octokit_issues_createComment w n body).
Proof.
  intros HP st. exists [CreateComment n body].
  destruct (createComment_cases w n body st) as [-> | ->]; cbn;
    (split_and!; [done | by constructor | done]).
Qed.

Lemma events_pulls_create w t h b body :
  P (CreatePull t h b body) → behaves P any_abrupt (octokit_pulls_create w t h b body).
Proof.
  intros HP st. exists [CreatePull t h b body].
  destruct (pulls_create_cases w t h b body st) as [[url ->] | ->]; cbn;
    (split_and!; [done | by constructor | done]).
Qed.

Lemma events_listForRepo w : behaves P any_abrupt (octokit_issues_listForRepo w).
Proof.
  intros st. exists [ListIssues]. unfold octokit_issues_listForRepo.
  destruct (w_list_issues w _); cbn; (split_and!; [done | by constructor; auto | done]).
Qed.

Ltac event_step :=
  first
    [ apply behaves_mret
    | apply behaves_get_fs
    | apply behaves_put_fs
    | apply behaves_emit; by apply P_other
    | apply behaves_fetch; by apply P_other
    | apply behaves_safeRun_guarded; by auto
    | apply behaves_lift_fs; done
    | apply behaves_prop; done
    | apply behaves_throw; done
    | apply behaves_exit; done
    | apply events_listForRepo
    | apply behaves_bind; [|intros ?]
    | case_decide
    | case_match ].

Lemma events_tool_result w repoDir tc :
  (∀ cmd, is_forbidden cmd = false → P (Spawn cmd repoDir)) →
  behaves P any_abrupt (tool_result w repoDir tc).
Proof. intros Hrun. unfold tool_result. repeat event_step. Qed.

Lemma events_apply_tool_calls w repoDir messages tcs :
  (∀ cmd, is_forbidden cmd = false → P (Spawn cmd repoDir)) →
  behaves P any_abrupt (apply_tool_calls w repoDir messages tcs).
Proof.
  intros Hrun. revert messages.
  induction tcs as [|tc tcs IH]; intros messages; cbn [apply_tool_calls].
  - apply behaves_mret.
  - apply behaves_bind; [|done]. unfold apply_tool_call.
    apply behaves_bind; [by apply events_tool_result | intros; apply behaves_mret].
Qed.

Lemma events_conversation w e repoDir n messages :
  (∀ cmd, is_forbidden cmd = false → P (Spawn cmd repoDir)) →
  behaves P any_abrupt (conversation w e repoDir n messages).
Proof.
  intros Hrun. revert messages.
  induction n as [|n IH]; intros messages; cbn [conversation].
  - by apply behaves_throw.
  - apply behaves_bind; [apply behaves_fetch; by apply P_other|]. intros [| |output].
    + by apply behaves_throw.
    + by apply behaves_throw.
    + destruct (toolCalls_of output) as [|tc tcs]; [apply behaves_mret|].
      apply behaves_bind; [by apply events_apply_tool_calls | intros; apply IH].
Qed.

Lemma events_openaiLoop w e repoDir number title body :
  (∀ cmd, is_forbidden cmd = false → P (Spawn cmd repoDir)) →
  behaves P any_abrupt (openaiLoop w e repoDir number title body).
Proof.
  intros Hrun. unfold openaiLoop. apply behaves_bind.
  - unfold detectStack. repeat event_step.
  - intros. by apply events_conversation.
Qed.

Lemma events_die {A} msg : behaves P any_abrupt (die (A := A) msg).
Proof. unfold die. repeat event_step. Qed.

Lemma events_provision w e cloneUrl workRoot repoDir branch number title :
  (∀ cmd, is_forbidden cmd = false → P (Spawn cmd repoDir)) →
  (is_forbidden (git_clone cloneUrl repoDir) = false →
   P (Spawn (git_clone cloneUrl repoDir) workRoot)) →
  behaves P any_abrupt (provision w e cloneUrl workRoot repoDir branch number title).
Proof.
  intros Hrun Hclone. unfold provision.
  repeat first [ apply events_die | event_step ].
Qed.

Hypothesis P_comment :
  ∀ n body, Z.of_nat (length body) <= 65000 → P (CreateComment n body).
Hypothesis P_pull :
  ∀ t h b body, Z.of_nat (length body) <= 65000 → P (CreatePull t h b body).

Lemma length_slice0 n (s : jsstring) : 0 <= n → Z.of_nat (length (slice0 n s)) <= n.
Proof. intros Hn. unfold slice0. rewrite length_take. lia. Qed.

Lemma events_publish w e repoDir branch number title finalText :
  (∀ cmd, is_forbidden cmd = false → P (Spawn cmd repoDir)) →
  behaves P any_abrupt (publish w e repoDir branch number title finalText).
Proof.
  intros Hrun. unfold publish.
  repeat first
    [ apply events_die
    | apply events_createComment, P_comment, length_slice0; lia
    | apply events_pulls_create, P_pull, length_slice0; lia
    | event_step ].
Qed.

Lemma events_work_on w e cloneUrl workRoot issue :
  (∀ cmd, is_forbidden cmd = false → P (Spawn cmd (repoDir_of e workRoot issue))) →
  (is_forbidden (git_clone cloneUrl (repoDir_of e workRoot issue)) = false →
   P (Spawn (git_clone cloneUrl (repoDir_of e workRoot issue)) workRoot)) →
  behaves P any_abrupt (work_on w e cloneUrl workRoot issue).
Proof.
  intros Hrun Hclone. unfold work_on. cbv zeta.
  apply behaves_bind; [by apply events_provision|]. intros _.
  apply behaves_bind; [by apply events_openaiLoop|]. intros finalText.
  by apply events_publish.
Qed.

Hypothesis P_spawn : ∀ cmd cwd, is_forbidden cmd = false → P (Spawn cmd cwd).

Lemma events_poll_cycle w e cloneUrl workRoot :
  behaves P any_abrupt (poll_cycle w e cloneUrl workRoot).
Proof.
  unfold poll_cycle. apply behaves_bind; [apply events_listForRepo|].
  intros issues. case_match.
  - apply events_work_on; auto.
  - apply behaves_bind; [by apply behaves_emit, P_other | intros; by apply behaves_emit, P_other].
Qed.

Lemma events_poll_loop w e cloneUrl workRoot k :
  behaves P any_abrupt (poll_loop w e cloneUrl workRoot k).
Proof.
  induction k as [|k IH]; cbn [poll_loop]; [apply behaves_mret|].
  apply behaves_bind; [apply events_poll_cycle | done].
Qed.

Lemma events_main w e k : behaves P any_abrupt (main w e k).
Proof.
  unfold main. cbv zeta.
  apply behaves_bind; [apply behaves_get_fs|]. intros fs.
  apply behaves_bind; [by apply behaves_lift_fs|]. intros fs'.
  apply behaves_bind; [apply behaves_put_fs|]. intros _.
  apply behaves_bind; [by apply behaves_emit, P_other|]. intros _.
  apply events_poll_loop.
Qed.

Lemma events_run_main w e k st : Forall P (new_events (run_main w e k) st).
Proof.
  destruct (events_main w e k st) as (Δ & Ht & HP & _).
  unfold run_main, catch_and_exit, new_events.
  destruct (main w e k st) as [[[]|err|c] st1]; cbn in *.
  - by rewrite Ht, drop_app_length.
  - rewrite Ht, <- (assoc_L (++)), drop_app_length.
    apply Forall_app. split; [done|]. repeat constructor. by apply P_other.
  - by rewrite Ht, drop_app_length.
Qed.
End Events.

(** X6.  In a whole run of the program, whatever the tracker, the reasoning
    service and the commands answer, no process is started for a command
    that contains a string of the deny list. *)
Theorem no_deny_listed_command_is_ever_spawned w e cycles st :
  Forall allowed_spawn (new_events (run_main w e cycles) st).
Proof. apply events_run_main; try done. by intros []. Qed.

(** X7.  Every comment and every pull-request body that the program sends to
    the tracker is at most 65000 code units long. *)
Theorem tracker_texts_are_cut w e cycles st :
  Forall (body_within 65000) (new_events (run_main w e cycles) st).
Proof. apply events_run_main; try done. by intros []. Qed.

(** X8.  During the work on one issue every process is started in the checkout
    directory of that issue, except the clone, which is started in the work
    root; none of them runs a deny-listed command. *)
Theorem processes_run_in_the_checkout w e cloneUrl workRoot issue st :
  Forall (spawn_within workRoot (repoDir_of e workRoot issue)
            (git_clone cloneUrl (repoDir_of e workRoot issue)))
    (new_events (work_on w e cloneUrl workRoot issue) st).
Proof.
  set (repoDir := repoDir_of e workRoot issue).
  assert (Hb : behaves (spawn_within workRoot repoDir (git_clone cloneUrl repoDir)) any_abrupt
                 (work_on w e cloneUrl workRoot issue)).
  { apply events_work_on; try done.
    - by intros [].
    - intros cmd Hcmd. split; [done | by left].
    - intros Hcmd. split; [done | by right]. }
  destruct (Hb st) as (Δ & Ht & HP & _). by rewrite (new_events_eq _ _ _ Ht).
Qed.

(** ** The requests of the loop *)

Lemma detectStack_cases w repoDir st :
  (∃ c, readdirSync (w_cwd w) (st_fs st) repoDir = inl c ∧
        detectStack w repoDir st = (Throw (fs_exception c repoDir), st)) ∨
  (∃ s, detectStack w repoDir st = (Return s, st)).
Proof.
  unfold detectStack. rewrite bind_get_fs.
  destruct (readdirSync (w_cwd w) (st_fs st) repoDir) as [c|names].
  - left. exists c. by rewrite bind_lift_fs_inl.
  - right. rewrite bind_lift_fs_inr. by eexists.
Qed.

(** X9.  Whatever the reasoning service answers, one call of [openaiLoop]
    sends at most 30 requests, and at least one when it returns. *)
Theorem at_most_thirty_requests_per_issue w e repoDir number title body st :
  let loop := openaiLoop w e repoDir number title body in
  (count is_fetch (new_events loop st) ≤ 30)%nat ∧
  (returns loop st = true → (1 ≤ count is_fetch (new_events loop st))%nat).
Proof.
  intros loop. unfold loop, openaiLoop, returns, new_events.
  destruct (detectStack_cases w repoDir st) as [(c & _ & Hd) | (s & Hd)].
  - rewrite (bind_Throw _ _ _ _ _ Hd). cbn. rewrite drop_all. split; [cbn; lia | done].
  - rewrite (bind_Return _ _ _ _ _ Hd).
    match goal with |- context [conversation w e repoDir max_steps ?m st] =>
      destruct (conversation_requests w e repoDir max_steps m st) as (Δ & Ht & Hle & Hret) end.
    rewrite Ht, drop_app_length. split; [exact Hle | exact Hret].
Qed.

Lemma carries_weaken model h1 h2 ev :
  h1 `prefix_of` h2 → carries model h2 ev → carries model h1 ev.
Proof. intros Hp. destruct ev; cbn; try done. intros [-> ?]. split; [done | by etrans]. Qed.

Lemma carries_spawn model h Δ :
  Forall (λ ev, is_spawn ev = true) Δ → Forall (carries model h) Δ.
Proof. intros H. eapply Forall_impl; [exact H|]. by intros []. Qed.

Lemma conversation_history w e repoDir n messages :
  behaves (carries (OPENAI_MODEL e) messages) any_abrupt (conversation w e repoDir n messages).
Proof.
  revert messages. induction n as [|n IH]; intros messages st.
  - exists []. cbn. by rewrite (right_id_L [] (++)).
  - cbn [conversation]. unfold fetch_responses.
    unfold mbind at 1 2, M_bind at 1 2.
    assert (Hfirst : carries (OPENAI_MODEL e) messages (Fetch (OPENAI_MODEL e) messages))
      by done.
    destruct (w_fetch w (st_trace st) (OPENAI_MODEL e) messages) as [| |output].
    + exists [Fetch (OPENAI_MODEL e) messages]. cbn. split_and!; [done | by constructor | done].
    + exists [Fetch (OPENAI_MODEL e) messages]. cbn. split_and!; [done | by constructor | done].
    + destruct (toolCalls_of output) as [|tc tcs].
      { exists [Fetch (OPENAI_MODEL e) messages]. cbn. split_and!; [done | by constructor | done]. }
      set (st0 := {| st_fs := st_fs st; st_trace := st_trace st ++ _ |}).
      destruct (behaves_apply_tool_calls w repoDir messages (tc :: tcs) st0)
        as (Δ1 & Ht1 & HP1 & _).
      apply (carries_spawn (OPENAI_MODEL e) messages) in HP1.
      unfold mbind, M_bind.
      destruct (apply_tool_calls _ _ _ _ _) as [[msgs'|err|c] st1] eqn:Happ; cbn in Ht1.
      * apply apply_tool_calls_turns in Happ as (turns & -> & _).
        match goal with |- context [conversation w e repoDir n ?m st1] =>
          destruct (IH m st1) as (Δ2 & Ht2 & HP2 & _);
          assert (Hpre : messages `prefix_of` m)
        end.
        { destruct (trim (finalText_of output));
            rewrite <- ?(assoc_L (++)); by apply prefix_app_r. }
        exists ([Fetch (OPENAI_MODEL e) messages] ++ Δ1 ++ Δ2). split_and!; [| |done].
        -- rewrite Ht2, Ht1. cbn. by rewrite <- !(assoc_L (++)).
        -- constructor; [done|]. apply Forall_app. split; [done|].
           eapply Forall_impl; [exact HP2|]. intros ev. by apply carries_weaken.
      * exists ([Fetch (OPENAI_MODEL e) messages] ++ Δ1). cbn. split_and!; [| |done].
        -- rewrite Ht1. cbn. by rewrite <- !(assoc_L (++)).
        -- by constructor.
      * exists ([Fetch (OPENAI_MODEL e) messages] ++ Δ1). cbn. split_and!; [| |done].
        -- rewrite Ht1. cbn. by rewrite <- !(assoc_L (++)).
        -- by constructor.
Qed.

(** X10.  The conversation only grows.  Every request of the loop is for the
    configured model and its input starts with the messages the loop was
    started with; every request of [openaiLoop] starts with the system
    prompt followed by a user turn. *)
Theorem requests_carry_the_history w e repoDir :
  (∀ n messages st,
     Forall (carries (OPENAI_MODEL e) messages)
       (new_events (conversation w e repoDir n messages) st)) ∧
  (∀ number title body st,
     Forall opens_with_prompts (new_events (openaiLoop w e repoDir number title body) st)).
Proof.
  split.
  - intros n messages st.
    destruct (conversation_history w e repoDir n messages st) as (Δ & Ht & HP & _).
    by rewrite (new_events_eq _ _ _ Ht).
  - intros number title body st. unfold openaiLoop, new_events.
    destruct (detectStack_cases w repoDir st) as [(c & _ & Hd) | (s & Hd)].
    + rewrite (bind_Throw _ _ _ _ _ Hd). cbn. by rewrite drop_all.
    + rewrite (bind_Return _ _ _ _ _ Hd).
      match goal with |- context [conversation w e repoDir max_steps ?m st] =>
        destruct (conversation_history w e repoDir max_steps m st) as (Δ & Ht & HP & _) end.
      rewrite Ht, drop_app_length. eapply Forall_impl; [exact HP|].
      intros [] ; cbn; try done. intros [_ [rest ->]]. by do 2 eexists.
Qed.

(** ** Start-up and idle polling *)

Lemma find_only_pull_requests issues :
  Forall (λ i, i_pull_request i = true) issues →
  find (λ i, negb (i_pull_request i)) issues = None.
Proof. induction 1 as [|i l Hi _ IH]; [done|]. cbn. by rewrite Hi. Qed.

Lemma idle_poll_cycle w e cloneUrl workRoot st :
  only_pull_requests w →
  poll_cycle w e cloneUrl workRoot st = (Return tt, add_events st (idle_cycle e)).
Proof.
  intros Hw. destruct (Hw (st_trace st)) as (issues & Hl & Hprs).
  unfold poll_cycle, octokit_issues_listForRepo, mbind, M_bind.
  rewrite Hl, (find_only_pull_requests _ Hprs). unfold emit, add_events, idle_cycle. cbn.
  by rewrite <- !(assoc_L (++)).
Qed.

Lemma idle_poll_loop w e cloneUrl workRoot k st :
  only_pull_requests w →
  poll_loop w e cloneUrl workRoot k st
  = (Return tt, add_events st (mjoin (replicate k (idle_cycle e)))).
Proof.
  intros Hw. revert st. induction k as [|k IH]; intros st.
  - unfold add_events. cbn. rewrite (right_id_L [] (++)). by destruct st.
  - cbn [poll_loop]. rewrite (bind_Return _ _ _ _ _ (idle_poll_cycle w e _ _ st Hw)).
    rewrite IH. unfold add_events. cbn [st_fs st_trace replicate mjoin list_join].
    by rewrite <- !(assoc_L (++)).
Qed.

(** X11.  While the tracker lists nothing but pull requests, the process, once
    its work root exists, only polls: after the start line each cycle
    queries the tracker, prints that nothing matches and sleeps for
    POLL_INTERVAL_SECONDS times 1000 milliseconds.  After any number of
    cycles it is still running, and the only change to the files is the
    creation of the work root. *)
Theorem idle_polling_goes_on w e k st fs' :
  only_pull_requests w →
  mkdirSync (w_mkdir_over_file w) (w_cwd w) (st_fs st) (WORKDIR e) = inr fs' →
  run_main w e k st
  = (Return tt,
     {| st_fs := fs';
        st_trace := st_trace st ++ started_line e :: mjoin (replicate k (idle_cycle e)) |}).
Proof.
  intros Hw Hmk. unfold run_main, catch_and_exit, main. cbv zeta.
  rewrite bind_get_fs, Hmk, bind_lift_fs_inr, bind_put_fs, bind_emit.
  rewrite (idle_poll_loop _ _ _ _ _ _ Hw). unfold add_events. cbn [st_fs st_trace].
  by rewrite <- (assoc_L (++)).
Qed.

Lemma idle_polling_goes_on_witness :
  run_main quiet_world sample_env 2 empty_state
  = (Return tt,
     {| st_fs := {[ [js "work"] := Dir ]};
        st_trace := st_trace empty_state ++
          started_line sample_env :: mjoin (replicate 2 (idle_cycle sample_env)) |}).
Proof.
  apply (idle_polling_goes_on quiet_world sample_env 2 empty_state {[ [js "work"] := Dir ]}).
  - intros t. exists []. split; [reflexivity | constructor].
  - vm_compute. reflexivity.
Defined.

(** X13.  [openaiLoop] lists the checkout before it sends anything.  When the
    listing fails the loop throws that error at once: no request is sent
    and the state is untouched.  When it succeeds the stack detection
    returns and leaves the state untouched. *)
Theorem loop_needs_a_listable_checkout w e repoDir number title body st :
  match readdirSync (w_cwd w) (st_fs st) repoDir with
  | inl c =>
      openaiLoop w e repoDir number title body st = (Throw (fs_exception c repoDir), st)
  | inr _ => ∃ s, detectStack w repoDir st = (Return s, st)
  end.
Proof.
  destruct (detectStack_cases w repoDir st) as [(c & Hr & Hd) | (s & Hd)].
  - rewrite Hr. unfold openaiLoop. by rewrite (bind_Throw _ _ _ _ _ Hd).
  - destruct (readdirSync _ _ _) as [c|names] eqn:Hr; [|eauto].
    unfold detectStack in Hd. by rewrite bind_get_fs, Hr, bind_lift_fs_inl in Hd.
Qed.

(** ** The stack, and the arguments of the tools *)

Lemma detectStack_inv w repoDir st s st' :
  detectStack w repoDir st = (Return s, st') →
  st' = st ∧
  (let has p := existsSync (w_cwd w) (st_fs st) (path_join repoDir p) in
   isBun s = has (js "bun.lockb") ∧
   isNode s = has (js "package.json") ∧
   isPython s = has (js "pyproject.toml") || has (js "requirements.txt")) ∧
  commands s =
    (if isBun s then [js "bun install"; js "bun test || true"; js "bun run build || true"]
     else if isNode s then [js "npm ci || npm install"; js "npm test || true";
                            js "npm run build || true"]
     else []) ++
    (if isPython s then [js "python3 -m pip install -r requirements.txt || true";
                         js "pytest -q || true"] else []) ++
    (if isDotnet s then [js "dotnet test || true"; js "dotnet build || true"] else []).
Proof.
  unfold detectStack. rewrite bind_get_fs.
  destruct (readdirSync (w_cwd w) (st_fs st) repoDir) as [c|names].
  - by rewrite bind_lift_fs_inl.
  - rewrite bind_lift_fs_inr. by intros [= <- <-].
Qed.

(** X14.  The suggested commands follow the lock files.  With bun.lockb the
    three Bun commands come first and no npm command is suggested, even if
    package.json exists; with package.json and no bun.lockb the three npm
    commands come first.  Nothing is suggested exactly when no stack is
    detected; no suggested command is deny-listed, and there are never more
    than seven. *)
Theorem suggested_commands_follow_the_stack w repoDir st s st' :
  detectStack w repoDir st = (Return s, st') →
  let has p := existsSync (w_cwd w) (st_fs st) (path_join repoDir p) in
  (has (js "bun.lockb") = true →
   take 3 (commands s) = [js "bun install"; js "bun test || true"; js "bun run build || true"] ∧
   Forall (λ c, startsWith c (js "npm") = false) (commands s)) ∧
  (has (js "bun.lockb") = false → has (js "package.json") = true →
   take 3 (commands s) = [js "npm ci || npm install"; js "npm test || true";
                          js "npm run build || true"]) ∧
  (commands s = [] ↔ isBun s || isNode s || isPython s || isDotnet s = false) ∧
  Forall (λ c, is_forbidden c = false) (commands s) ∧
  (length (commands s) ≤ 7)%nat.
Proof.
  intros H. cbv zeta. apply detectStack_inv in H as (_ & H & Hc). cbv zeta in H.
  destruct H as (Hbun & Hnode & _). rewrite <- Hbun, <- Hnode, Hc. clear.
  assert (Hnpm : ∀ l : list jsstring,
            forallb (λ c, negb (startsWith c (js "npm"))) l = true →
            Forall (λ c, startsWith c (js "npm") = false) l).
  { intros l. rewrite forallb_forall, Forall_forall. intros H c Hc.
    apply negb_true_iff, H. by apply list_elem_of_In. }
  assert (Hdeny : ∀ l : list jsstring,
            forallb (λ c, negb (is_forbidden c)) l = true →
            Forall (λ c, is_forbidden c = false) l).
  { intros l. rewrite forallb_forall, Forall_forall. intros H c Hc.
    apply negb_true_iff, H. by apply list_elem_of_In. }
  destruct (isBun s), (isNode s), (isPython s), (isDotnet s); cbn [orb];
    (split_and!;
     [ intros Hb; first [discriminate Hb | split; [reflexivity | apply Hnpm; by vm_compute]]
     | intros Hb Hn; first [discriminate Hb | discriminate Hn | reflexivity]
     | split; intros H; first [discriminate H | reflexivity]
     | apply Hdeny; by vm_compute
     | cbn; lia ]).
Qed.

Lemma suggested_commands_follow_the_stack_witness :
  let s := {| isBun := true; isNode := true; isPython := false; isDotnet := false;
              commands := [js "bun install"; js "bun test || true";
                           js "bun run build || true"] |} in
  let has p := existsSync [] (st_fs bun_checkout_state) (path_join (js "/work/repo-7") p) in
  (has (js "bun.lockb") = true →
   take 3 (commands s) = [js "bun install"; js "bun test || true"; js "bun run build || true"] ∧
   Forall (λ c, startsWith c (js "npm") = false) (commands s)) ∧
  (has (js "bun.lockb") = false → has (js "package.json") = true →
   take 3 (commands s) = [js "npm ci || npm install"; js "npm test || true";
                          js "npm run build || true"]) ∧
  (commands s = [] ↔ isBun s || isNode s || isPython s || isDotnet s = false) ∧
  Forall (λ c, is_forbidden c = false) (commands s) ∧
  (length (commands s) ≤ 7)%nat.
Proof.
  apply (suggested_commands_follow_the_stack quiet_world (js "/work/repo-7")
           bun_checkout_state _ bun_checkout_state).
  vm_compute. reflexivity.
Defined.

(** The tools that only read. *)
Lemma stateless_mret {A} (a : A) : stateless (mret a).
Proof. done. Qed.

Lemma stateless_throw {A} e : stateless (throw (A := A) e).
Proof. done. Qed.

Lemma stateless_get_fs : stateless get_fs.
Proof. done. Qed.

Lemma stateless_lift_fs {A} p (r : errno + A) : stateless (lift_fs p r).
Proof. by destruct r. Qed.

Lemma stateless_prop args k : stateless (prop args k).
Proof. by destruct args. Qed.

Lemma stateless_bind {A B} (m : M A) (f : A → M B) :
  stateless m → (∀ a, stateless (f a)) → stateless (m ≫= f).
Proof.
  intros Hm Hf st. specialize (Hm st). unfold mbind, M_bind.
  destruct (m st) as [[a|err|c] st1]; cbn in Hm; subst st1; [apply Hf | done..].
Qed.

Ltac stateless_step :=
  first [ apply stateless_mret | apply stateless_throw | apply stateless_get_fs
        | apply stateless_lift_fs | apply stateless_prop
        | apply stateless_bind; [|intros ?] ].

(** X15.  A tool call that is neither [write_file] nor [run] (that is
    [read_file], [list_files] or an unknown tool) leaves the files and the
    trace as they are, whether it returns or throws; so does the stack
    detection. *)
Theorem reading_tools_change_nothing w repoDir tc st :
  tc_name tc ≠ js "write_file" → tc_name tc ≠ js "run" →
  (tool_result w repoDir tc st).2 = st ∧ (detectStack w repoDir st).2 = st.
Proof.
  intros Hw Hr. split.
  - revert st. change (stateless (tool_result w repoDir tc)). unfold tool_result.
    repeat first [ stateless_step | case_decide; [|apply stateless_mret] ]; done.
  - revert st. change (stateless (detectStack w repoDir)). unfold detectStack.
    repeat stateless_step.
Qed.

Lemma reading_tools_change_nothing_witness :
  (tool_result quiet_world (js "/work/repo-7") (read_file_call (js "package.json"))
     bun_checkout_state).2 = bun_checkout_state ∧
  (detectStack quiet_world (js "/work/repo-7") bun_checkout_state).2 = bun_checkout_state.
Proof.
  apply (reading_tools_change_nothing quiet_world (js "/work/repo-7")
           (read_file_call (js "package.json")) bun_checkout_state);
    vm_compute; discriminate.
Defined.

(** X16.  Missing arguments.  [list_files] without [dir] lists "."; [read_file]
    and [write_file] without [file] use the file named "undefined";
    [write_file] without [content] writes the empty string; [run] without
    [cmd] runs the command "undefined".  When [arguments] itself is
    undefined or null each of the four tools throws a TypeError, and
    arguments that are not an object behave like an object without
    properties. *)
Theorem missing_arguments_have_defaults w repoDir props st :
  (props !! js "dir" = None →
   tool_result w repoDir (call "list_files" props) st
   = tool_result w repoDir (call "list_files" (<[js "dir" := VString (js ".")]> props)) st) ∧
  (props !! js "file" = None →
   tool_result w repoDir (call "read_file" props) st
   = tool_result w repoDir
       (call "read_file" (<[js "file" := VString (js "undefined")]> props)) st) ∧
  (props !! js "file" = None →
   tool_result w repoDir (call "write_file" props) st
   = tool_result w repoDir
       (call "write_file" (<[js "file" := VString (js "undefined")]> props)) st) ∧
  (props !! js "content" = None →
   tool_result w repoDir (call "write_file" props) st
   = tool_result w repoDir (call "write_file" (<[js "content" := VString []]> props)) st) ∧
  (props !! js "cmd" = None →
   tool_result w repoDir (call "run" props) st
   = tool_result w repoDir (call "run" (<[js "cmd" := VString (js "undefined")]> props)) st) ∧
  (∀ n, n ∈ ["list_files"; "read_file"; "write_file"; "run"]%string →
        tool_result w repoDir {| tc_name := js n; tc_args := ArgsNullish |} st
        = (Throw TypeError, st)) ∧
  (∀ n, tool_result w repoDir {| tc_name := n; tc_args := ArgsPrimitive |} st
        = tool_result w repoDir {| tc_name := n; tc_args := ArgsObject ∅ |} st).
Proof.
  unfold call. split_and!; [..|done].
  - intros Hd. rewrite !tool_result_list_files. unfold list_files_block, prop.
    by rewrite lookup_insert_eq, Hd.
  - intros Hf. rewrite !tool_result_read_file. unfold read_file_block, prop.
    by rewrite lookup_insert_eq, Hf.
  - intros Hf. rewrite !tool_result_write_file. unfold write_file_block, prop.
    rewrite lookup_insert_eq, Hf. rewrite lookup_insert_ne by (by vm_compute). done.
  - intros Hc. rewrite !tool_result_write_file. unfold write_file_block, prop.
    rewrite lookup_insert_eq, Hc. rewrite lookup_insert_ne by (by vm_compute). done.
  - intros Hc. rewrite !tool_result_run. unfold run_block, prop.
    by rewrite lookup_insert_eq, Hc.
  - intros n Hn. repeat (apply elem_of_cons in Hn as [->|Hn]); [..|by apply elem_of_nil in Hn].
    + by rewrite tool_result_list_files.
    + by rewrite tool_result_read_file.
    + by rewrite tool_result_write_file.
    + by rewrite tool_result_run.
Qed.

(** [mkdir -p] keeps what is there. *)
Lemma mkdirp_preserves fs rsegs fs' p n :
  mkdirp fs rsegs = inr fs' → fs !! p = Some n → fs' !! p = Some n.
Proof.
  revert fs'. induction rsegs as [|seg rparent IH]; intros fs'; cbn [mkdirp].
  - cbn. by intros [= <-].
  - destruct (stat fs (reverse (seg :: rparent))) as [[?|]|] eqn:Hs; [done| |].
    + by intros [= <-].
    + destruct (mkdirp fs rparent) as [|fs1]; [done|]. intros [= <-] Hp.
      rewrite lookup_insert_ne; [by apply IH|].
      intros <-. unfold stat in Hs.
      destruct (reverse (seg :: rparent)); [done | congruence].
Qed.

(** What [mkdirSync] leaves is what was there, and more. *)
Lemma mkdirSync_preserves over_file cwd fs d fs' p n :
  mkdirSync over_file cwd fs d = inr fs' → fs !! p = Some n → fs' !! p = Some n.
Proof.
  unfold mkdirSync. destruct (has_nul d); [done|].
  destruct (resolve cwd d) as [[segs ?]|]; [|done].
  destruct (stat fs segs) as [[bytes|]|]; [|by apply mkdirp_preserves..].
  destruct over_file; [done|]. by intros [= <-].
Qed.

(** On a well-formed string [Buffer.byteLength] counts the bytes of the
    encoding. *)
Lemma length_utf8_of_code_point cp :
  Z.of_nat (length (utf8_of_code_point cp))
  = if cp <? 0x80 then 1 else if cp <? 0x800 then 2 else if cp <? 0x10000 then 3 else 4.
Proof. unfold utf8_of_code_point. by repeat case_match. Qed.

Lemma utf8_length_bounded (n : nat) (s : jsstring) :
  (length s ≤ n)%nat → isWellFormed s = true →
  utf8_length s = Z.of_nat (length (utf8_encode s)).
Proof.
  revert s. induction n as [|n IH]; intros s Hlen Hwf.
  { destruct s; [done | simpl in Hlen; lia]. }
  destruct s as [|c t]; [done|].
  cbn [isWellFormed utf8_encode utf8_length] in *.
  apply andb_true_iff in Hwf as [Hc Hwf]. apply in_range_iff in Hc.
  destruct (is_high_surrogate c) eqn:Hhi.
  - destruct t as [|d t']; [done|]. apply andb_true_iff in Hwf as [Hd Hwf].
    rewrite Hd. pose proof (code_point_of_pair_range c d Hhi Hd).
    rewrite length_app, Nat2Z.inj_add, length_utf8_of_code_point. ztest.
    rewrite (IH t'); [done | simpl in Hlen; lia | done].
  - apply andb_true_iff in Hwf as [Hlo Hwf]. apply negb_true_iff in Hlo.
    rewrite Hlo, length_app, Nat2Z.inj_add, length_utf8_of_code_point.
    rewrite (IH t); [|simpl in Hlen; lia | done].
    by rewrite (proj2 (Z.ltb_lt c 0x10000)) by lia.
Qed.

Lemma byteLength_well_formed w (s : jsstring) :
  isWellFormed s = true → byteLength w s = Z.of_nat (length (utf8_encode s)).
Proof.
  intros Hwf. unfold byteLength. rewrite Hwf.
  by apply (utf8_length_bounded (length s)).
Qed.

(** X17.  When a [write_file] call with a well-formed content returns, the
    file at the resolved path holds the UTF-8 encoding of the content, the
    reported [bytes] is the length of that encoding, no event has been
    recorded, and every other entry of the file system that existed before
    is still there, unchanged. *)
Theorem write_file_stores_the_bytes w repoDir file content st :
  isWellFormed content = true →
  returns (tool_result w repoDir (write_file_call file content)) st = true →
  let writing := tool_result w repoDir (write_file_call file content) in
  let st' := state_after writing st in
  ∃ segs,
    resolve (w_cwd w) (path_join repoDir file) = Some (segs, false) ∧
    st_fs st' !! segs = Some (File (utf8_encode content)) ∧
    (writing st).1
    = Return (JObject [(js "file", JString file);
                       (js "bytes", JNumber (Z.of_nat (length (utf8_encode content))))]) ∧
    st_trace st' = st_trace st ∧
    (∀ p n, p ≠ segs → st_fs st !! p = Some n → st_fs st' !! p = Some n).
Proof.
  intros Hwf Hret writing st'. unfold st', state_after, writing. clear st' writing.
  apply returns_inv in Hret as [r Hw]. unfold state_after in Hw.
  destruct (lookup_write_file file content) as [Hf Hc].
  unfold write_file_call in *.
  rewrite (tool_result_write_file_eq _ _ _ file content) in * by done.
  cbn zeta in *.
  destruct (mkdirSync _ _ _ _) as [|fs1] eqn:Hmk; [done|].
  destruct (writeFileSync _ _ _ _) as [|fs2] eqn:Hwr; [done|].
  pose proof Hwr as (segs & _ & Hres & Hne & _ & ->)%writeFileSync_inv.
  exists segs. cbn [fst snd st_fs st_trace]. split_and!; [done| | |done|].
  - destruct segs; [done|]. apply lookup_insert_eq.
  - by rewrite byteLength_well_formed.
  - intros p n Hp Hl. rewrite lookup_insert_ne by done.
    by eapply mkdirSync_preserves.
Qed.

Lemma write_file_stores_the_bytes_witness :
  let writing := tool_result quiet_world (js "/work/repo-7")
                   (write_file_call (js "src/app.ts") (js "export {};")) in
  let st' := state_after writing empty_state in
  ∃ segs,
    resolve [] (path_join (js "/work/repo-7") (js "src/app.ts")) = Some (segs, false) ∧
    st_fs st' !! segs = Some (File (utf8_encode (js "export {};"))) ∧
    (writing empty_state).1
    = Return (JObject [(js "file", JString (js "src/app.ts"));
                       (js "bytes", JNumber (Z.of_nat (length (utf8_encode (js "export {};")))))]) ∧
    st_trace st' = st_trace empty_state ∧
    (∀ p n, p ≠ segs → st_fs empty_state !! p = Some n → st_fs st' !! p = Some n).
Proof.
  apply (write_file_stores_the_bytes quiet_world (js "/work/repo-7") (js "src/app.ts")
           (js "export {};") empty_state); vm_compute; reflexivity.
Defined.

(** ** Titles, the deny list and the life of an issue *)

(** A command is refused as soon as a part of it is. *)
Lemma is_forbidden_embedded pre x post :
  is_forbidden x = true → is_forbidden (pre ++ x ++ post) = true.
Proof.
  rewrite !is_forbidden_spec. intros (f & a & b & Hf & ->).
  exists f, (pre ++ a), (b ++ post). split; [done|]. by rewrite <- !(assoc_L (++)).
Qed.

Lemma is_forbidden_of_part x f :
  f ∈ forbidden → includes x f = true → is_forbidden x = true.
Proof.
  intros Hf (a & b & ->)%includes_spec. apply is_forbidden_spec. eauto 10.
Qed.

(** The commit command holds a NUL character exactly when the title does. *)
Lemma escape_quotes_no_nul s : has_nul (escape_quotes s) = has_nul s.
Proof.
  induction s as [|c s IH]; [done|].
  change (escape_quotes (c :: s))
    with ((if c =? 34 then [92; 34] else [c]) ++ escape_quotes s).
  rewrite has_nul_app, IH. change (has_nul (c :: s)) with ((0 =? c) || has_nul s).
  destruct (Z.eqb_spec c 34) as [->|Hc]; [done|]. cbn. by rewrite orb_false_r.
Qed.

Lemma git_commit_accepted number title repoDir :
  invalid_spawn_args (git_commit number title) repoDir = false ↔
  has_nul title = false ∧ has_nul repoDir = false.
Proof.
  rewrite invalid_spawn_args_false. unfold git_commit.
  rewrite !has_nul_app, Number_toString_no_nul, escape_quotes_no_nul.
  change (has_nul (js "git commit -m ")) with false.
  change (has_nul (js "Fix: #")) with false.
  change (has_nul (js " ")) with false.
  change (has_nul [34]) with false.
  rewrite !orb_false_l, orb_false_r. split; [tauto|].
  intros [? ?]. split_and!; [|done..].
  intros Hnil. apply (f_equal length) in Hnil. rewrite length_app in Hnil.
  by vm_compute in Hnil.
Qed.

(** X18.  When the slug of the issue title contains a string of the deny list
    (as for the title "Fix crash on reboot"), [safeRun] refuses both to
    create the branch and to push it.  With changes in the checkout and a
    title without NUL character, [publish] then starts no push, sends
    nothing to the tracker and exits with status 1; the last thing it does
    is to report the refused push. *)
Theorem deny_listed_branch_is_never_pushed w e repoDir number title finalText st f :
  f ∈ forbidden → includes (slug title) f = true →
  status_text w repoDir st ≠ [] →
  has_nul title = false →
  let branch := branch_name number title in
  let publishing := publish w e repoDir branch number title finalText in
  is_forbidden (git_checkout_b branch) = true ∧
  is_forbidden (git_push branch) = true ∧
  (publishing st).1 = Exit 1 ∧
  (∀ cwd, Spawn (git_push branch) cwd ∉ new_events publishing st) ∧
  Forall no_tracker_write (new_events publishing st) ∧
  last (st_trace (publishing st).2)
  = Some (ConsoleError (js "git push failed: " ++
                        js "Forbidden command pattern: " ++ git_push branch)).
Proof.
  intros Hf Hincl Hdirty Htitle branch publishing.
  assert (Hslug : is_forbidden (slug title) = true) by by eapply is_forbidden_of_part.
  assert (Hco : is_forbidden (git_checkout_b branch) = true).
  { unfold git_checkout_b, branch, branch_name.
    rewrite !(assoc_L (++)), <- (right_id_L [] (++) (slug title)), <- !(assoc_L (++)).
    rewrite !(assoc_L (++) _ _ (slug title ++ [])). by apply is_forbidden_embedded. }
  assert (Hpush : is_forbidden (git_push branch) = true).
  { unfold git_push, branch, branch_name.
    rewrite !(assoc_L (++)), <- (right_id_L [] (++) (slug title)), <- !(assoc_L (++)).
    rewrite !(assoc_L (++) _ _ (slug title ++ [])). by apply is_forbidden_embedded. }
  assert (∃ s3, publishing st
            = (Exit 1, add_events s3
                 [ConsoleError (js "git push failed: " ++
                                js "Forbidden command pattern: " ++ git_push branch)]))
    as [s3 Hpub].
  { unfold publishing.
    apply status_text_dirty in Hdirty as (Hdir & s & Hs & Hdirty).
    destruct (fixed_commands_accepted number title repoDir Hdir) as (_ & Hadd & _).
    set (s1 := state_after _ st) in *.
    destruct (safeRun_returns w (js "git add -A") repoDir s1 (accepted_not_refused _ _ Hadd))
      as [a Ha].
    set (s2 := state_after _ s1) in *.
    destruct (safeRun_returns w (git_commit number title) repoDir s2
                (accepted_not_refused _ _
                   (proj2 (git_commit_accepted number title repoDir) (conj Htitle Hdir))))
      as [c Hc].
    set (s3 := state_after _ s2) in *.
    destruct (safeRun_cases w (git_push branch) repoDir s3)
      as [[_ Hp] | [(Hno & _) | (Hno & _)]]; [|congruence..].
    pose proof (publish_dirty w e repoDir branch number title finalText
                  _ _ _ _ _ _ _ _ _ Hs Hdirty Ha Hc Hp) as Hpub.
    cbn [ok stderr] in Hpub. eauto. }
  split_and!; [done..| | | |].
  - by rewrite Hpub.
  - intros cwd Hin.
    assert (Hall : Forall allowed_spawn (new_events publishing st)).
    { destruct (events_publish allowed_spawn) with (w := w) (e := e) (repoDir := repoDir)
        (branch := branch) (number := number) (title := title) (finalText := finalText)
        (st := st) as (Δ & Ht & HP & _); try done.
      - by intros [].
      - unfold publishing. by rewrite (new_events_eq _ _ _ Ht). }
    rewrite Forall_forall in Hall. specialize (Hall _ Hin). unfold allowed_spawn in Hall.
    by rewrite Hpush in Hall.
  - destruct (quiet_publish w e repoDir branch number title finalText st) as (Δ & Ht & HΔ).
    unfold publishing in *. rewrite (new_events_eq _ _ _ Ht). apply HΔ. by rewrite Hpub.
  - rewrite Hpub. cbn. by rewrite last_snoc.
Qed.

Lemma deny_listed_branch_is_never_pushed_witness :
  let branch := branch_name 8 (js "Fix crash on reboot") in
  let publishing := publish changes_world sample_env (js "/work/repo-8") branch 8
                      (js "Fix crash on reboot") (js "Done.") in
  is_forbidden (git_checkout_b branch) = true ∧
  is_forbidden (git_push branch) = true ∧
  (publishing checkout_state).1 = Exit 1 ∧
  (∀ cwd, Spawn (git_push branch) cwd ∉ new_events publishing checkout_state) ∧
  Forall no_tracker_write (new_events publishing checkout_state) ∧
  last (st_trace (publishing checkout_state).2)
  = Some (ConsoleError (js "git push failed: " ++
                        js "Forbidden command pattern: " ++ git_push branch)).
Proof.
  apply (deny_listed_branch_is_never_pushed changes_world sample_env (js "/work/repo-8") 8
           (js "Fix crash on reboot") (js "Done.") checkout_state (js "reboot")).
  - apply (bool_decide_unpack _). by vm_compute.
  - vm_compute. reflexivity.
  - vm_compute. discriminate.
  - vm_compute. reflexivity.
Defined.

Lemma escape_quotes_cons c s :
  escape_quotes (c :: s)
  = (if c =? double_quote then [backslash; double_quote] else [c]) ++ escape_quotes s.
Proof. done. Qed.

(** X19.  The commit message escapes double quotes and nothing else.  A title
    without double quotes is passed on unchanged, dollar signs, back quotes
    and backslashes included; in the escaped title every double quote is
    preceded by a backslash; apart from the backslashes, the characters are
    those of the title, in order. *)
Theorem only_double_quotes_are_escaped (s : jsstring) :
  (Forall (λ c, c ≠ double_quote) s → escape_quotes s = s) ∧
  (∀ a b, escape_quotes s = a ++ [double_quote] ++ b → ∃ a', a = a' ++ [backslash]) ∧
  List.filter (λ c, negb (c =? backslash)) (escape_quotes s)
  = List.filter (λ c, negb (c =? backslash)) s.
Proof.
  split_and!.
  - induction 1 as [|c t Hc _ IH]; [done|].
    rewrite escape_quotes_cons, IH. by destruct (Z.eqb_spec c double_quote).
  - induction s as [|c t IH]; intros a b.
    + by destruct a.
    + rewrite escape_quotes_cons. destruct (Z.eqb_spec c double_quote) as [->|Hc].
      * destruct a as [|x [|y a]]; cbn; intros [= ? ?]; simplify_eq.
        -- by exists [].
        -- destruct (IH a b) as [a' ->]; [done|]. by exists (backslash :: double_quote :: a').
      * destruct a as [|x a]; cbn; intros [= ? ?]; simplify_eq.
        destruct (IH a b) as [a' ->]; [done|]. by exists (x :: a').
  - induction s as [|c t IH]; [done|].
    rewrite escape_quotes_cons, List.filter_app, IH.
    destruct (Z.eqb_spec c double_quote) as [->|Hc]; cbn; [done|].
    by destruct (c =? backslash).
Qed.

(** X20.  The work on an issue first removes the checkout directory of the
    issue with everything below it and prints the line "Working on issue
    ...", and only then attempts the clone: in the state in which the
    clone is attempted nothing exists at or below the checkout path, and
    everything else is as it was. *)
Theorem each_run_starts_from_an_empty_directory w e cloneUrl workRoot issue st root slashed :
  resolve (w_cwd w) (repoDir_of e workRoot issue) = Some (root, slashed) →
  let st0 := before_clone w e workRoot issue st in
  (∀ k : unit → M unit,
     (provision w e cloneUrl workRoot (repoDir_of e workRoot issue) (branch_of issue)
        (i_number issue) (issueTitle_of issue) ≫= k) st
     = (r1 ← safeRun w (git_clone cloneUrl (repoDir_of e workRoot issue)) workRoot;
        (if ok r1 then mret tt else die (js "git clone failed: " ++ stderr r1));;
        safeRun w (git_checkout (DEFAULT_BASE_BRANCH e)) (repoDir_of e workRoot issue);;
        safeRun w (git_checkout_b (branch_of issue)) (repoDir_of e workRoot issue);;
        k tt) st0) ∧
  st_trace st0 = st_trace st ++ [working_line issue] ∧
  (∀ p, root `prefix_of` p → st_fs st0 !! p = None) ∧
  (∀ p, ¬ root `prefix_of` p → st_fs st0 !! p = st_fs st !! p).
Proof.
  intros Hres st0. split_and!.
  - intros k. apply provision_step. by eapply resolve_no_nul.
  - done.
  - intros p Hp. unfold st0, before_clone, remove_tree. cbn [st_fs]. rewrite Hres.
    apply map_lookup_filter_None. right. intros n _ Hn. by apply Hn.
  - intros p Hp. unfold st0, before_clone, remove_tree. cbn [st_fs]. rewrite Hres.
    destruct (st_fs st !! p) as [n|] eqn:Hl.
    + by apply map_lookup_filter_Some.
    + apply map_lookup_filter_None. by left.
Qed.

Lemma each_run_starts_from_an_empty_directory_witness :
  let st := {| st_fs := {[ [js "work"] := Dir; [js "work"; js "repo-7"] := Dir;
                           [js "work"; js "repo-7"; js "stale.txt"] := File [] ]};
               st_trace := [] |} in
  let st0 := before_clone quiet_world sample_env (js "/work") issue_7 st in
  (∀ k : unit → M unit,
     (provision quiet_world sample_env (js "u") (js "/work")
        (repoDir_of sample_env (js "/work") issue_7) (branch_of issue_7)
        (i_number issue_7) (issueTitle_of issue_7) ≫= k) st
     = (r1 ← safeRun quiet_world (git_clone (js "u") (repoDir_of sample_env (js "/work") issue_7))
               (js "/work");
        (if ok r1 then mret tt else die (js "git clone failed: " ++ stderr r1));;
        safeRun quiet_world (git_checkout (DEFAULT_BASE_BRANCH sample_env))
          (repoDir_of sample_env (js "/work") issue_7);;
        safeRun quiet_world (git_checkout_b (branch_of issue_7))
          (repoDir_of sample_env (js "/work") issue_7);;
        k tt) st0) ∧
  st_trace st0 = st_trace st ++ [working_line issue_7] ∧
  (∀ p, [js "work"; js "repo-7"] `prefix_of` p → st_fs st0 !! p = None) ∧
  (∀ p, ¬ [js "work"; js "repo-7"] `prefix_of` p → st_fs st0 !! p = st_fs st !! p).
Proof.
  apply (each_run_starts_from_an_empty_directory quiet_world sample_env (js "u") (js "/work")
           issue_7 _ [js "work"; js "repo-7"] false).
  vm_compute. reflexivity.
Defined.

(** The work on an issue that returns has printed its line. *)
Lemma trace_grows_work_on w e cloneUrl workRoot issue st :
  returns (work_on w e cloneUrl workRoot issue) st = true →
  ∃ Δ, st_trace (work_on w e cloneUrl workRoot issue st).2
       = st_trace st ++ [working_line issue] ++ Δ.
Proof.
  unfold returns, work_on. cbv zeta.
  destruct (has_nul (repoDir_of e workRoot issue)) eqn:Hnul.
  { by rewrite (bind_Throw _ _ _ _ _ (provision_refused _ _ _ _ _ _ _ _ _ Hnul)). }
  intros _. rewrite provision_step by done.
  match goal with |- context [(?m (before_clone w e workRoot issue st))] =>
    assert (Hb : behaves any_event any_abrupt m) end.
  { apply behaves_bind; [by apply behaves_safeRun|]. intros r1.
    apply behaves_bind.
    { destruct (ok r1); [apply behaves_mret | by apply events_die]. }
    intros _. apply behaves_bind; [by apply behaves_safeRun|]. intros _.
    apply behaves_bind; [by apply behaves_safeRun|]. intros _.
    apply behaves_bind; [by apply events_openaiLoop | intros; by apply events_publish]. }
  destruct (Hb (before_clone w e workRoot issue st)) as (Δ & Ht & _).
  exists Δ. rewrite Ht. cbn. by rewrite <- (assoc_L (++)).
Qed.

Lemma count_working_line issue : count (is_working_line issue) [working_line issue] = 1%nat.
Proof. unfold count. cbn. by rewrite bool_decide_eq_true_2. Qed.

Lemma rework_loop w e cloneUrl workRoot issues issue k st :
  always_lists w issues →
  find (λ i, negb (i_pull_request i)) issues = Some issue →
  returns (poll_loop w e cloneUrl workRoot k) st = true →
  ∃ Δ, st_trace (poll_loop w e cloneUrl workRoot k st).2 = st_trace st ++ Δ ∧
       (k ≤ count (is_working_line issue) Δ)%nat.
Proof.
  intros Hw Hfind. revert st. induction k as [|k IH]; intros st Hret.
  - exists []. cbn. rewrite (right_id_L [] (++)). split; [done | lia].
  - unfold returns in Hret. cbn [poll_loop] in Hret |- *.
    unfold mbind, M_bind in Hret |- *.
    rewrite (poll_cycle_selects w e cloneUrl workRoot st issues issue (Hw _) Hfind)
      in Hret |- *.
    pose proof (trace_grows_work_on w e cloneUrl workRoot issue (add_events st [ListIssues]))
      as Hgrows.
    unfold returns in Hgrows.
    destruct (work_on w e cloneUrl workRoot issue (add_events st [ListIssues]))
      as [[[]|err|c] st1]; [|done..].
    destruct (Hgrows eq_refl) as [Δ1 Ht1]. cbn [snd] in Ht1.
    destruct (IH st1) as (Δ2 & Ht2 & Hk); [exact Hret|].
    exists ([ListIssues] ++ [working_line issue] ++ Δ1 ++ Δ2). split.
    + rewrite Ht2, Ht1. cbn. by rewrite <- !(assoc_L (++)).
    + rewrite !count_app, count_working_line. lia.
Qed.

(** X21.  The program keeps no record of the issues it has handled.  As long as
    the tracker keeps listing the same issue first, every polling cycle
    starts the work on it again: after [k] cycles that have returned, the
    line "Working on issue ..." for that issue has been printed at least
    [k] times. *)
Theorem handled_issues_are_not_remembered w e cloneUrl workRoot issues issue k st :
  always_lists w issues →
  find (λ i, negb (i_pull_request i)) issues = Some issue →
  returns (poll_loop w e cloneUrl workRoot k) st = true →
  (k ≤ count (is_working_line issue) (new_events (poll_loop w e cloneUrl workRoot k) st))%nat.
Proof.
  intros Hw Hfind Hret.
  destruct (rework_loop w e cloneUrl workRoot issues issue k st Hw Hfind Hret) as (Δ & Ht & Hk).
  by rewrite (new_events_eq _ _ _ Ht).
Qed.

Lemma handled_issues_are_not_remembered_witness :
  (2 ≤ count (is_working_line issue_7)
         (new_events (poll_loop same_issue_world sample_env (cloneUrl_of sample_env)
                        (js "/work") 2)
            {| st_fs := {[ [js "work"] := Dir ]}; st_trace := [] |}))%nat.
Proof.
  apply (handled_issues_are_not_remembered same_issue_world sample_env
           (cloneUrl_of sample_env) (js "/work") [issue_7] issue_7 2
           {| st_fs := {[ [js "work"] := Dir ]}; st_trace := [] |}).
  - intros t. reflexivity.
  - reflexivity.
  - vm_compute. reflexivity.
Defined.

(** ** What [read_file] makes of bytes *)

Lemma isWellFormed_scalar c t :
  0 <= c <= 0xFFFF → ¬ (0xD800 <= c <= 0xDFFF) →
  isWellFormed (c :: t) = isWellFormed t.
Proof.
  intros Hc Hs. cbn [isWellFormed]. unfold is_high_surrogate, is_low_surrogate.
  rewrite (in_range_true 0 65535) by lia.
  rewrite (in_range_false 0xD800 0xDBFF) by lia.
  rewrite (in_range_false 0xDC00 0xDFFF) by lia. done.
Qed.

Lemma isWellFormed_pair cp t :
  0x10000 <= cp < 0x110000 →
  isWellFormed (utf16_of_code_point cp ++ t) = isWellFormed t.
Proof.
  intros Hcp. unfold utf16_of_code_point. ztest. cbn [app isWellFormed].
  unfold is_high_surrogate, is_low_surrogate. ztest. done.
Qed.

Lemma isWellFormed_replacement t :
  isWellFormed (replacement_char :: t) = isWellFormed t.
Proof. by apply isWellFormed_scalar; unfold replacement_char; lia. Qed.

Lemma utf8_decode_well_formed_bounded n bs :
  (length bs ≤ n)%nat → Forall is_byte bs → isWellFormed (utf8_decode bs) = true.
Proof.
  revert bs. induction n as [|n IH]; intros bs Hlen Hb.
  { destruct bs; [done | cbn in Hlen; lia]. }
  destruct bs as [|b0 r0]; [done|]. cbn [utf8_decode].
  inversion_clear Hb as [|?? Hb0 Hr0]. unfold is_byte in Hb0. cbn in Hlen.
  assert (IH0 : isWellFormed (utf8_decode r0) = true) by (apply IH; [lia | done]).
  destruct (Z.ltb_spec b0 0x80).
  { rewrite isWellFormed_scalar by lia. done. }
  destruct (in_range 0xC2 0xDF b0) eqn:H2.
  { apply in_range_iff in H2.
    destruct r0 as [|b1 r1]; [done|].
    inversion_clear Hr0 as [|?? Hb1 Hr1]. cbn in Hlen.
    unfold is_continuation. destruct (in_range 0x80 0xBF b1) eqn:Hc1.
    - apply in_range_iff in Hc1. rewrite isWellFormed_scalar by lia.
      apply IH; [lia | done].
    - by rewrite isWellFormed_replacement. }
  destruct (in_range 0xE0 0xEF b0) eqn:H3.
  { apply in_range_iff in H3.
    destruct r0 as [|b1 r1]; [done|].
    inversion_clear Hr0 as [|?? Hb1 Hr1]. cbn in Hlen.
    destruct (second_byte_ok b0 b1) eqn:Hs; [|by rewrite isWellFormed_replacement].
    destruct r1 as [|b2 r2]; [done|].
    inversion_clear Hr1 as [|?? Hb2 Hr2]. cbn in Hlen.
    unfold is_continuation. destruct (in_range 0x80 0xBF b2) eqn:Hc2.
    - apply in_range_iff in Hc2. unfold second_byte_ok in Hs. apply in_range_iff in Hs.
      rewrite isWellFormed_scalar.
      + apply IH; [lia | done].
      + destruct (Z.eqb_spec b0 0xE0), (Z.eqb_spec b0 0xED), (Z.eqb_spec b0 0xF0),
          (Z.eqb_spec b0 0xF4); lia.
      + destruct (Z.eqb_spec b0 0xE0), (Z.eqb_spec b0 0xED), (Z.eqb_spec b0 0xF0),
          (Z.eqb_spec b0 0xF4); lia.
    - rewrite isWellFormed_replacement. apply IH; [cbn; lia | by constructor]. }
  destruct (in_range 0xF0 0xF4 b0) eqn:H4.
  { apply in_range_iff in H4.
    destruct r0 as [|b1 r1]; [done|].
    inversion_clear Hr0 as [|?? Hb1 Hr1]. cbn in Hlen.
    destruct (second_byte_ok b0 b1) eqn:Hs; [|by rewrite isWellFormed_replacement].
    destruct r1 as [|b2 r2]; [done|].
    inversion_clear Hr1 as [|?? Hb2 Hr2]. cbn in Hlen.
    unfold is_continuation.
    destruct (in_range 0x80 0xBF b2) eqn:Hc2;
      [|rewrite isWellFormed_replacement; apply IH; [cbn; lia | by constructor]].
    destruct r2 as [|b3 r3]; [done|].
    inversion_clear Hr2 as [|?? Hb3 Hr3]. cbn in Hlen.
    destruct (in_range 0x80 0xBF b3) eqn:Hc3;
      [|rewrite isWellFormed_replacement; apply IH; [cbn; lia | by constructor]].
    apply in_range_iff in Hc2, Hc3. unfold second_byte_ok in Hs. apply in_range_iff in Hs.
    rewrite isWellFormed_pair.
    - apply IH; [lia | done].
    - destruct (Z.eqb_spec b0 0xE0), (Z.eqb_spec b0 0xED), (Z.eqb_spec b0 0xF0),
        (Z.eqb_spec b0 0xF4); lia. }
  by rewrite isWellFormed_replacement.
Qed.

(** Whatever the bytes, what the decoder gives is a well-formed string. *)
Lemma utf8_decode_well_formed bs :
  Forall is_byte bs → isWellFormed (utf8_decode bs) = true.
Proof. by apply (utf8_decode_well_formed_bounded (length bs)). Qed.

(** X22.  [read_file] never fails because of what a file holds: for a regular
    file it returns the decoding of the bytes, whatever they are, and what
    it returns is a well-formed string (ill-formed UTF-8 is replaced by
    U+FFFD, not reported). *)
Theorem read_file_decodes_any_bytes w repoDir file st segs bytes :
  resolve (w_cwd w) (path_join repoDir file) = Some (segs, false) →
  stat (st_fs st) segs = Some (File bytes) →
  Forall is_byte bytes →
  tool_result w repoDir (read_file_call file) st
  = (Return (JObject [(js "file", JString file);
                      (js "content", JString (utf8_decode bytes))]), st) ∧
  isWellFormed (utf8_decode bytes) = true.
Proof.
  intros Hres Hstat Hbytes. split; [|by apply utf8_decode_well_formed].
  unfold read_file_call.
  rewrite (tool_result_read_file_eq _ _ _ file) by apply lookup_singleton_eq.
  unfold readFileSync. by rewrite (resolve_no_nul _ _ _ Hres), Hres, Hstat.
Qed.

Lemma read_file_decodes_any_bytes_witness :
  let st := {| st_fs := {[ [js "work"] := Dir; [js "work"; js "repo-7"] := Dir;
                           [js "work"; js "repo-7"; js "logo.png"]
                             := File [0x89; 0x50; 0x4E; 0x47; 0xFF; 0xC0; 0x80] ]};
               st_trace := [] |} in
  tool_result quiet_world (js "/work/repo-7") (read_file_call (js "logo.png")) st
  = (Return (JObject [(js "file", JString (js "logo.png"));
                      (js "content",
                       JString (utf8_decode [0x89; 0x50; 0x4E; 0x47; 0xFF; 0xC0; 0x80]))]), st) ∧
  isWellFormed (utf8_decode [0x89; 0x50; 0x4E; 0x47; 0xFF; 0xC0; 0x80]) = true.
Proof.
  apply (read_file_decodes_any_bytes quiet_world (js "/work/repo-7") (js "logo.png") _
           [js "work"; js "repo-7"; js "logo.png"] [0x89; 0x50; 0x4E; 0x47; 0xFF; 0xC0; 0x80]).
  - vm_compute. reflexivity.
  - vm_compute. reflexivity.
  - repeat constructor; unfold is_byte; lia.
Defined.

(** ** [getPrivateKeyPem] *)

(** X23.  [getPrivateKeyPem].  A non-empty GITHUB_PRIVATE_KEY_PATH wins: the
    key is the content of that file, and a failed read throws, without any
    fall-back to GITHUB_PRIVATE_KEY_BASE64.  With the path absent or empty,
    a non-empty Base64 text is decoded.  With both absent or empty the
    message is written to the error stream and the process exits with
    status 1.  The files are never changed, and under the handler of [main]
    the outcome is a return or the exit with status 1. *)
Theorem private_key_is_read_from_the_file_first w decode k st :
  (∀ p, GITHUB_PRIVATE_KEY_PATH k = Some p → p ≠ [] →
        getPrivateKeyPem w decode k st
        = match readFileSync (w_cwd w) (st_fs st) p with
          | inr pem => (Return pem, st)
          | inl c => (Throw (fs_exception c p), st)
          end) ∧
  (truthy (GITHUB_PRIVATE_KEY_PATH k) = false →
   ∀ b, GITHUB_PRIVATE_KEY_BASE64 k = Some b → b ≠ [] →
        getPrivateKeyPem w decode k st = (Return (utf8_decode (decode b)), st)) ∧
  (truthy (GITHUB_PRIVATE_KEY_PATH k) = false →
   truthy (GITHUB_PRIVATE_KEY_BASE64 k) = false →
   getPrivateKeyPem w decode k st
   = (Exit 1, add_events st [ConsoleError missing_key_message])) ∧
  st_fs (getPrivateKeyPem w decode k st).2 = st_fs st ∧
  (catch_and_exit (getPrivateKeyPem w decode k;; mret tt) st).1 ∈ [Return tt; Exit 1].
Proof.
  unfold getPrivateKeyPem, catch_and_exit.
  destruct (GITHUB_PRIVATE_KEY_PATH k) as [[|c p]|] eqn:Hp;
    destruct (GITHUB_PRIVATE_KEY_BASE64 k) as [[|d b]|] eqn:Hb; cbn [truthy];
    rewrite ?bind_assoc, ?bind_get_fs;
    try destruct (readFileSync (w_cwd w) (st_fs st) (c :: p)) as [code|pem] eqn:Hr;
    rewrite ?bind_lift_fs_inl, ?bind_lift_fs_inr;
    (split_and!;
     [ intros ? [= <-] ?; try done; by rewrite ?bind_get_fs, ?Hr
     | intros ? ? [= <-] ?; done
     | intros ? ?; done
     | rewrite ?bind_get_fs, ?Hr; done
     | cbn; set_solver ]).
Qed.

(** ** How the loop and the process end *)

(** The loop returns right after a response without function calls. *)
Lemma conversation_returns w e repoDir n messages st text st' :
  conversation w e repoDir n messages st = (Return text, st') →
  ∃ t input output,
    st_trace st' = t ++ [Fetch (OPENAI_MODEL e) input] ∧
    w_fetch w t (OPENAI_MODEL e) input = HttpOk output ∧
    toolCalls_of output = [] ∧
    text = finalText_of output.
Proof.
  revert messages st. induction n as [|n IH]; intros messages st; [done|].
  cbn [conversation]. unfold fetch_responses. unfold mbind at 1, M_bind at 1.
  destruct (w_fetch w (st_trace st) (OPENAI_MODEL e) messages) as [| |output] eqn:Hf;
    [done..|].
  destruct (toolCalls_of output) as [|tc tcs] eqn:Htc.
  - intros [= <- <-]. by exists (st_trace st), messages, output.
  - unfold mbind, M_bind.
    destruct (apply_tool_calls _ _ _ _ _) as [[msgs'|?|?] st1]; [|done..].
    apply IH.
Qed.

(** X28.  The loop returns exactly on a response without function calls.  Such
    a response ends the loop at once with its text (the empty string when
    it has none); and whenever [openaiLoop] returns, the last thing it did
    was a request whose response had no function call and whose text it
    returns. *)
Theorem loop_returns_the_text_of_the_last_response w e repoDir number title body st :
  (∀ n messages output,
     w_fetch w (st_trace st) (OPENAI_MODEL e) messages = HttpOk output →
     toolCalls_of output = [] →
     conversation w e repoDir (S n) messages st
     = (Return (finalText_of output), after_fetch e messages st)) ∧
  (∀ text st',
     openaiLoop w e repoDir number title body st = (Return text, st') →
     ∃ t input output,
       st_trace st' = t ++ [Fetch (OPENAI_MODEL e) input] ∧
       w_fetch w t (OPENAI_MODEL e) input = HttpOk output ∧
       toolCalls_of output = [] ∧
       text = finalText_of output).
Proof.
  split.
  - intros n messages output Hf Htc. cbn [conversation]. unfold fetch_responses.
    unfold mbind, M_bind. by rewrite Hf, Htc.
  - intros text st'. unfold openaiLoop.
    destruct (detectStack_cases w repoDir st) as [(c & _ & Hd) | (s & Hd)].
    + by rewrite (bind_Throw _ _ _ _ _ Hd).
    + rewrite (bind_Return _ _ _ _ _ Hd). apply conversation_returns.
Qed.

Lemma behaves_poll_loop w e cloneUrl workRoot k :
  behaves any_event exits_with_1 (poll_loop w e cloneUrl workRoot k).
Proof.
  induction k as [|k IH]; cbn [poll_loop]; [apply behaves_mret|].
  apply behaves_bind; [apply behaves_poll_cycle | done].
Qed.

Lemma behaves_main w e k : behaves any_event exits_with_1 (main w e k).
Proof.
  unfold main. cbv zeta.
  apply behaves_bind; [apply behaves_get_fs|]. intros fs.
  apply behaves_bind; [by apply behaves_lift_fs|]. intros fs'.
  apply behaves_bind; [apply behaves_put_fs|]. intros _.
  apply behaves_bind; [by apply behaves_emit|]. intros _.
  apply behaves_poll_loop.
Qed.

(** X29.  The process has one exit status.  However many polling cycles it
    makes, a run is either still polling or has exited with status 1: no
    exception escapes the handler and no other status is used. *)
Theorem the_process_only_ends_with_status_1 w e cycles st :
  (run_main w e cycles st).1 = Return tt ∨ (run_main w e cycles st).1 = Exit 1.
Proof.
  destruct (behaves_main w e cycles st) as (_ & _ & _ & HE).
  unfold run_main, catch_and_exit.
  destruct (main w e cycles st) as [[[]|err|c] st1]; cbn in *; [by left | by right |].
  right. by rewrite (HE _ eq_refl).
Qed.
